(** * A shallow embedding of the LeanServer WebAssembly runtime

    Sources embedded here:
    - [src/wasm/lean_runtime_wasm.c]: panics, allocation, reference-count
      release, closure application, object arrays, byte arrays, strings,
      small naturals, mutable references, IO and crypto stubs;
    - [src/wasm/init_stubs_wasm.c]: the global empty containers, the
      [extract] operations on byte arrays and object arrays, byte-array
      equality, [Array.back], lists and characters;
    - [src/wasm/wasm_glue.c]: [lean_secure_zero] and the byte-array helpers
      of the host bridge.

    The heap is a finite map from addresses to tagged cells.  Every operation
    is a function in a state-and-error monad [M]; the state also counts the
    activations of the one recursive runtime function,
    [lean_dec_ref_cold]. *)

From stdpp Require Import gmap list strings.
From Stdlib Require Import ZArith Lia.

Local Open Scope Z_scope.

(* ================================================================== *)
(** ** Machine integers *)
(* ================================================================== *)

(** The target is 32-bit WebAssembly: [size_t] and [unsigned] are 32 bits
    wide.  Conversions are written as explicit reductions. *)
Definition size_t (x : Z) : Z := x mod 2 ^ 32.
Definition uint32_t (x : Z) : Z := x mod 2 ^ 32.

(** [(char)x]: the stored byte, kept as its unsigned value [0..255]. *)
Definition char (x : Z) : Z := x mod 256.

(** A [char] read in an [int] expression; [char] is signed on this target. *)
Definition char_to_int (b : Z) : Z := if b <? 128 then b else b - 256.

(* ================================================================== *)
(** ** Object references and heap cells *)
(* ================================================================== *)

(** A [lean_object *] is the null pointer, a boxed scalar (low bit set) or the
    address of a heap cell. *)
Inductive lean_obj : Type :=
| NULL
| lean_box (n : Z)
| lean_ptr (a : positive).

Global Instance lean_obj_eq_dec : EqDecision lean_obj.
Proof. solve_decision. Defined.

(** The variants of a heap cell, named after the tags of the runtime.  A
    constructor cell keeps its tag ([tag <= LeanMaxCtorTag]) and its
    [m_other] fields are the length of [m_objs]; a closure's [m_num_fixed] is
    the length of its [m_objs].  The arrays and strings keep [m_size] and
    [m_capacity] as fields, and [m_data] has one entry per allocated slot. *)
Inductive lean_payload : Type :=
| LeanCtor (tag : Z) (m_objs : list lean_obj)
| LeanClosure (m_fun : Z) (m_arity : Z) (m_objs : list lean_obj)
| LeanArray (m_size m_capacity : Z) (m_data : list lean_obj)
| LeanScalarArray (m_size m_capacity : Z) (m_data : list Z)
| LeanString (m_size m_capacity m_length : Z) (m_data : list Z)
| LeanRef (m_value : lean_obj).

Record lean_cell : Type := mkCell { m_rc : Z; m_body : lean_payload }.

Record state : Type := mkState {
  heap : gmap positive lean_cell;
  (** what a freshly allocated byte holds before it is written *)
  uninit : nat → Z;
  (** the two globals of init_stubs_wasm.c *)
  l_Array_empty : lean_obj;
  l_ByteArray_empty : lean_obj;
  (** activations of [lean_dec_ref_cold] now on the native stack, and the
      largest number there has been *)
  frames : nat;
  peak_frames : nat
}.

Definition upd_heap (f : gmap positive lean_cell → gmap positive lean_cell)
    (st : state) : state :=
  mkState (f (heap st)) (uninit st) (l_Array_empty st) (l_ByteArray_empty st)
          (frames st) (peak_frames st).

(* ================================================================== *)
(** ** The monad of runtime operations *)
(* ================================================================== *)

(** [Abort] is [abort()] after a diagnostic; [Fault] is behaviour C leaves
    undefined (a wild or dangling pointer, an access out of bounds);
    [Timeout] is a computation that does not return. *)
Inductive result (A : Type) : Type :=
| Ok (a : A)
| Abort (msg : string)
| Fault
| Timeout.
Arguments Ok {A} a.
Arguments Abort {A} msg.
Arguments Fault {A}.
Arguments Timeout {A}.

Definition M (A : Type) : Type := state → result (A * state).

Definition ret {A} (a : A) : M A := fun st => Ok (a, st).

Definition bind {A B} (m : M A) (k : A → M B) : M B :=
  fun st =>
    match m st with
    | Ok (a, st') => k a st'
    | Abort msg => Abort msg
    | Fault => Fault
    | Timeout => Timeout
    end.

Notation "x <- m ;; k" := (bind m (fun x => k))
  (at level 100, m at next level, right associativity).
Notation "m ;; k" := (bind m (fun _ => k))
  (at level 100, right associativity).

Definition fault {A} : M A := fun _ => Fault.
Definition timeout {A} : M A := fun _ => Timeout.

(** lean_runtime_wasm.c:30 — print the message and [abort()]. *)
Definition lean_internal_panic {A} (msg : string) : M A := fun _ => Abort msg.

Definition load (a : positive) : M lean_cell :=
  fun st => match heap st !! a with
            | Some c => Ok (c, st)
            | None => Fault
            end.

Definition store (a : positive) (c : lean_cell) : M unit :=
  fun st => match heap st !! a with
            | Some _ => Ok (tt, upd_heap <[a := c]> st)
            | None => Fault
            end.

Fixpoint for_each {A} (f : A → M unit) (l : list A) : M unit :=
  match l with
  | [] => ret tt
  | x :: l' => f x ;; for_each f l'
  end.

(** [for (i = from; i < from + n; i++) body(i)] *)
Fixpoint for_loop (n : nat) (from : Z) (body : Z → M unit) : M unit :=
  match n with
  | O => ret tt
  | S n' => body from ;; for_loop n' (from + 1) body
  end.

(* ================================================================== *)
(** ** Allocation (lean_runtime_wasm.c, section 2) *)
(* ================================================================== *)

(** [malloc] is the C library's.  An allocator stands for it: given the live
    cells it hands out the address of a block, or [None] for the null pointer
    when no memory is left. *)
Definition allocator : Type := gmap positive lean_cell → option positive.

(** An address that is not live: the successor of the largest live one. *)
Definition fresh_addr (h : gmap positive lean_cell) : positive :=
  Pos.succ (map_fold (fun k _ acc => Pos.max k acc) 1%positive h).

(** The allocator of a host that does not run out of memory. *)
Definition unlimited : allocator := fun h => Some (fresh_addr h).

(** lean_runtime_wasm.c:35 *)
Definition lean_internal_panic_out_of_memory {A} : M A :=
  fun _ => Abort "out of memory".

(** lean_runtime_wasm.c:78, [lean_alloc_object] followed by
    [lean_set_st_header]: the out-of-memory panic when [malloc] returns the
    null pointer, otherwise a block whose header has [m_rc = 1]; the payload
    is what the caller lays out. *)
Definition lean_alloc_object_from (malloc : allocator) (body : lean_payload) :
    M lean_obj :=
  fun st =>
    match malloc (heap st) with
    | None => lean_internal_panic_out_of_memory st
    | Some a => Ok (lean_ptr a, upd_heap <[a := mkCell 1 body]> st)
    end.

(** Where running out of memory is not the subject, allocation is taken
    from the allocator that does not fail. *)
Definition lean_alloc_object (body : lean_payload) : M lean_obj :=
  lean_alloc_object_from unlimited body.

(** lean_runtime_wasm.c:86 *)
Definition lean_free_object (a : positive) : M unit :=
  fun st => match heap st !! a with
            | Some _ => Ok (tt, upd_heap (delete a) st)
            | None => Fault
            end.

(** [n] bytes of memory nobody has written yet. *)
Definition uninit_bytes (n : Z) : M (list Z) :=
  fun st => Ok (map (uninit st) (seq 0 (Z.to_nat n)), st).

(* ================================================================== *)
(** ** Inline helpers of lean.h *)
(* ================================================================== *)

(** Modelled from the spec: lean.h is the header of the Lean toolchain and
    is not among the repository sources; its inline helpers are written here
    after section 3 and 4.1 of the specification (scalars carry no reference
    count, [retain] increments unless immortal or scalar, [release]
    decrements and frees at zero, allocation returns count 1). *)
Definition lean_is_scalar (o : lean_obj) : bool :=
  match o with lean_box _ => true | _ => false end.

(** Modelled from the spec: lean.h [lean_unbox], the pointer word shifted
    right by one.  An address [a] stands for the even word [2 * a]. *)
Definition lean_unbox (o : lean_obj) : Z :=
  match o with
  | lean_box n => n
  | lean_ptr a => Z.pos a
  | NULL => 0
  end.

Definition set_rc (rc : Z) (c : lean_cell) : lean_cell := mkCell rc (m_body c).

(** Modelled from the spec: lean.h [lean_is_exclusive], [m_rc == 1]. *)
Definition lean_is_exclusive (o : lean_obj) : M bool :=
  match o with
  | lean_ptr a => c <- load a ;; ret (m_rc c =? 1)
  | _ => fault
  end.

(** Modelled from the spec: lean.h [lean_inc]: nothing for a scalar, nothing
    for an immortal object ([m_rc == 0]), otherwise [m_rc++].  Negative
    counts belong to the multi-threaded runtime, whose [lean_inc_ref_cold]
    this repository does not define. *)
Definition lean_inc (o : lean_obj) : M unit :=
  match o with
  | lean_box _ => ret tt
  | NULL => fault
  | lean_ptr a =>
      c <- load a ;;
      if 0 <? m_rc c then store a (set_rc (m_rc c + 1) c)
      else if m_rc c =? 0 then ret tt
      else fault
  end.

(** Modelled from the spec: lean.h [lean_dec_ref] and [lean_dec], over the
    out-of-line [cold] path that is defined in the sources:
    [if (m_rc > 1) m_rc--; else if (m_rc != 0) lean_dec_ref_cold(o);]. *)
Definition lean_dec_ref_with (cold : positive → M unit) (a : positive) : M unit :=
  c <- load a ;;
  if 1 <? m_rc c then store a (set_rc (m_rc c - 1) c)
  else if m_rc c =? 0 then ret tt
  else cold a.

(** Modelled from the spec: lean.h [lean_dec],
    [if (!lean_is_scalar(o)) lean_dec_ref(o);]; a null pointer is
    dereferenced, which traps. *)
Definition lean_dec_with (cold : positive → M unit) (o : lean_obj) : M unit :=
  match o with
  | lean_box _ => ret tt
  | NULL => fault
  | lean_ptr a => lean_dec_ref_with cold a
  end.

(* ================================================================== *)
(** ** Typed access to cells, and the allocators of lean.h *)
(* ================================================================== *)

(** [lean_to_sarray(o)->...]: the fields of a scalar array; any other cell
    behind the cast is a fault. *)
Definition lean_to_sarray (o : lean_obj) : M (Z * Z * list Z) :=
  match o with
  | lean_ptr a =>
      c <- load a ;;
      match m_body c with
      | LeanScalarArray m_size m_capacity m_data => ret (m_size, m_capacity, m_data)
      | _ => fault
      end
  | _ => fault
  end.

Definition lean_to_array (o : lean_obj) : M (Z * Z * list lean_obj) :=
  match o with
  | lean_ptr a =>
      c <- load a ;;
      match m_body c with
      | LeanArray m_size m_capacity m_data => ret (m_size, m_capacity, m_data)
      | _ => fault
      end
  | _ => fault
  end.

Definition lean_to_string (o : lean_obj) : M (Z * Z * Z * list Z) :=
  match o with
  | lean_ptr a =>
      c <- load a ;;
      match m_body c with
      | LeanString m_size m_capacity m_length m_data =>
          ret (m_size, m_capacity, m_length, m_data)
      | _ => fault
      end
  | _ => fault
  end.

(** Overwrite the payload of a live cell, keeping its header. *)
Definition set_body (o : lean_obj) (body : lean_payload) : M unit :=
  match o with
  | lean_ptr a => c <- load a ;; store a (mkCell (m_rc c) body)
  | _ => fault
  end.

(** [p[i]] for an array of [length l] allocated slots. *)
Definition index {A} (l : list A) (i : Z) : M A :=
  if 0 <=? i then
    match l !! Z.to_nat i with
    | Some x => ret x
    | None => fault
    end
  else fault.

(** The [n] bytes at [data + off]. *)
Definition bytes_at (data : list Z) (off n : Z) : M (list Z) :=
  if (0 <=? off) && (0 <=? n) && (off + n <=? Z.of_nat (length data))
  then ret (take (Z.to_nat n) (drop (Z.to_nat off) data))
  else fault.

(** [data] with [src] written at offset [off]; the write must stay inside
    the allocation. *)
Definition write_bytes (data : list Z) (off : Z) (src : list Z) : M (list Z) :=
  if (0 <=? off) && (off + Z.of_nat (length src) <=? Z.of_nat (length data))
  then ret (take (Z.to_nat off) data ++ src ++
            drop (Z.to_nat off + length src) data)
  else fault.

(** Modelled from the spec: lean.h [lean_alloc_sarray(elem_size, size,
    capacity)]: a fresh scalar array with count 1 whose [elem_size *
    capacity] bytes have not been written. *)
Definition lean_alloc_sarray (elem_size size capacity : Z) : M lean_obj :=
  data <- uninit_bytes (elem_size * capacity) ;;
  lean_alloc_object (LeanScalarArray size capacity data).

(** Modelled from the spec: lean.h [lean_alloc_array(size, capacity)]; the
    slots hold no object yet. *)
Definition lean_alloc_array (size capacity : Z) : M lean_obj :=
  lean_alloc_object (LeanArray size capacity (replicate (Z.to_nat capacity) NULL)).

(** Modelled from the spec: lean.h [lean_alloc_ctor(tag, num_objs,
    scalar_sz)] and [lean_ctor_set(o, i, v)]. *)
Definition lean_alloc_ctor_from (malloc : allocator) (tag num_objs scalar_sz : Z) :
    M lean_obj :=
  lean_alloc_object_from malloc (LeanCtor tag (replicate (Z.to_nat num_objs) NULL)).

Definition lean_alloc_ctor (tag num_objs scalar_sz : Z) : M lean_obj :=
  lean_alloc_ctor_from unlimited tag num_objs scalar_sz.

Definition lean_ctor_set (o : lean_obj) (i : Z) (v : lean_obj) : M unit :=
  match o with
  | lean_ptr a =>
      c <- load a ;;
      match m_body c with
      | LeanCtor tag m_objs =>
          if (0 <=? i) && (i <? Z.of_nat (length m_objs))
          then store a (mkCell (m_rc c) (LeanCtor tag (<[Z.to_nat i := v]> m_objs)))
          else fault
      | _ => fault
      end
  | _ => fault
  end.

(** Modelled from the spec: lean.h [lean_io_result_mk_ok(a)], the success
    alternative of the result union whose error alternative [mk_io_error]
    builds below: constructor 0 with the value as its only field. *)
Definition lean_io_result_mk_ok (a : lean_obj) : M lean_obj :=
  r <- lean_alloc_ctor 0 1 0 ;;
  lean_ctor_set r 0 a ;;
  ret r.

(* ================================================================== *)
(** ** Release (lean_runtime_wasm.c:150-174) *)
(* ================================================================== *)

Definition enter_frame : M unit :=
  fun st =>
    Ok (tt, mkState (heap st) (uninit st) (l_Array_empty st) (l_ByteArray_empty st)
                    (S (frames st)) (Nat.max (peak_frames st) (S (frames st)))).

Definition leave_frame : M unit :=
  fun st =>
    Ok (tt, mkState (heap st) (uninit st) (l_Array_empty st) (l_ByteArray_empty st)
                    (Nat.pred (frames st)) (peak_frames st)).

(** The first [n] slots of an array, as the loops [for (i = 0; i < n; i++)]
    read them; reading past the allocation is a fault. *)
Definition slots {A} (n : Z) (l : list A) : M (list A) :=
  if (0 <=? n) && (n <=? Z.of_nat (length l)) then ret (take (Z.to_nat n) l)
  else fault.

(** [lean_dec_ref_cold]: when [m_rc == 1], release every owned child with
    [lean_dec] — which re-enters this function for a child whose count is 1 —
    and then free the cell.  The C function recurses on the native stack; the
    recursion is by [fuel] here, and each activation is counted in [frames].
    The children are read once: a cell under release has [m_rc == 1] and is
    neither written nor freed before its own activation ends. *)
Fixpoint lean_dec_ref_cold (fuel : nat) (o : positive) : M unit :=
  match fuel with
  | O => timeout
  | S fuel' =>
      let lean_dec := lean_dec_with (lean_dec_ref_cold fuel') in
      enter_frame ;;
      c <- load o ;;
      (if m_rc c =? 1 then
         match m_body c with
         | LeanCtor _ m_objs => for_each lean_dec m_objs
         | LeanClosure _ _ m_objs => for_each lean_dec m_objs
         | LeanArray m_size _ m_data =>
             children <- slots m_size m_data ;; for_each lean_dec children
         | LeanRef m_value =>
             match m_value with
             | NULL => ret tt
             | _ => lean_dec m_value
             end
         | LeanScalarArray _ _ _ => ret tt
         | LeanString _ _ _ _ => ret tt
         end ;;
         lean_free_object o
       else ret tt) ;;
      leave_frame
  end.

(** [lean_dec] as the rest of the runtime calls it.  Release never allocates,
    so a recursion deeper than the number of live cells has come back to a
    cell that is still under release: ownership is cyclic and the C code does
    not return either.  That many levels of fuel are therefore exact. *)
Definition lean_dec (o : lean_obj) : M unit :=
  fun st => lean_dec_with (lean_dec_ref_cold (S (size (heap st)))) o st.

(** lean_runtime_wasm.c:176 *)
Definition lean_mark_persistent (o : lean_obj) : M unit :=
  if lean_is_scalar o then ret tt
  else match o with
       | lean_ptr a => c <- load a ;; store a (set_rc 0 c)
       | _ => fault
       end.

(* ================================================================== *)
(** ** Global constants (init_stubs_wasm.c:46-69) *)
(* ================================================================== *)

Definition set_l_Array_empty (o : lean_obj) : M unit :=
  fun st => Ok (tt, mkState (heap st) (uninit st) o (l_ByteArray_empty st)
                            (frames st) (peak_frames st)).

Definition set_l_ByteArray_empty (o : lean_obj) : M unit :=
  fun st => Ok (tt, mkState (heap st) (uninit st) (l_Array_empty st) o
                            (frames st) (peak_frames st)).

(** [init_wasm_globals]: the canonical empty array and empty byte array are
    allocated once and marked persistent. *)
Definition init_wasm_globals : M unit :=
  ea <- lean_alloc_array 0 0 ;;
  set_l_Array_empty ea ;;
  lean_mark_persistent ea ;;
  eb <- lean_alloc_sarray 1 0 0 ;;
  set_l_ByteArray_empty eb ;;
  lean_mark_persistent eb.

(* ================================================================== *)
(** ** ByteArray.extract and Array.extract (init_stubs_wasm.c:76, 171) *)
(* ================================================================== *)

Definition l_ByteArray_extract (a start stop : lean_obj) : M lean_obj :=
  o <- lean_to_sarray a ;;
  let '(m_size, _, m_data) := o in
  let s := lean_unbox start in
  let e := lean_unbox stop in
  let sz := m_size in
  let s := if sz <? s then sz else s in
  let e := if sz <? e then sz else e in
  if e <=? s then lean_alloc_sarray 1 0 0
  else
    let len := e - s in
    r <- lean_alloc_sarray 1 len len ;;
    (* memcpy(lean_sarray_cptr(r), o->m_data + s, len) *)
    src <- bytes_at m_data s len ;;
    ro <- lean_to_sarray r ;;
    let '(r_size, r_capacity, r_data) := ro in
    dst <- write_bytes r_data 0 src ;;
    set_body r (LeanScalarArray r_size r_capacity dst) ;;
    ret r.

Definition l_Array_extract___redArg (a start stop : lean_obj) : M lean_obj :=
  o <- lean_to_array a ;;
  let '(m_size, _, _) := o in
  let s := lean_unbox start in
  let e := lean_unbox stop in
  let sz := m_size in
  let s := if sz <? s then sz else s in
  let e := if sz <? e then sz else e in
  if e <=? s then lean_alloc_array 0 0
  else
    let len := e - s in
    r <- lean_alloc_array len len ;;
    (* ro->m_size = len *)
    ro <- lean_to_array r ;;
    let '(_, r_capacity, r_data) := ro in
    set_body r (LeanArray len r_capacity r_data) ;;
    for_loop (Z.to_nat len) 0 (fun i =>
      (* lean_inc(o->m_data[s + i]); ro->m_data[i] = o->m_data[s + i]; *)
      o <- lean_to_array a ;;
      let '(_, _, m_data) := o in
      x <- index m_data (s + i) ;;
      lean_inc x ;;
      ro <- lean_to_array r ;;
      let '(r_size, r_capacity, r_data) := ro in
      _ <- index r_data i ;;
      set_body r (LeanArray r_size r_capacity (<[Z.to_nat i := x]> r_data))) ;;
    ret r.

(* ================================================================== *)
(** ** Strings (lean_runtime_wasm.c, section 7) *)
(* ================================================================== *)

(** The bytes of a C string literal, without its terminator. *)
Definition c_str (s : string) : list Z :=
  map (fun ch => Z.of_N (Ascii.N_of_ascii ch)) (String.list_ascii_of_string s).

(** [strlen]: the bytes before the first zero; the list ends where the
    terminator of the C string stands. *)
Fixpoint strlen (s : list Z) : Z :=
  match s with
  | [] => 0
  | b :: s' => if b =? 0 then 0 else 1 + strlen s'
  end.

(** lean_runtime_wasm.c:550 — [str] is the rest of the C string; stepping
    over the terminator reads outside the string. *)
Fixpoint lean_utf8_strlen_loop (fuel : nat) (str : list Z) : M Z :=
  match fuel with
  | O => timeout
  | S fuel' =>
      match str with
      | [] => ret 0
      | c :: _ =>
          if c =? 0 then ret 0
          else
            let step := if c <? 0x80 then 1
                        else if c <? 0xE0 then 2
                        else if c <? 0xF0 then 3
                        else 4 in
            if step <=? Z.of_nat (length str) then
              len <- lean_utf8_strlen_loop fuel' (drop (Z.to_nat step) str) ;;
              ret (size_t (len + 1))
            else fault
      end
  end.

Definition lean_utf8_strlen (str : list Z) : M Z :=
  lean_utf8_strlen_loop (S (length str)) str.

(** lean_runtime_wasm.c:577 *)
Definition lean_mk_string_unchecked_from (malloc : allocator)
    (s : list Z) (sz len : Z) : M lean_obj :=
  let rsz := size_t (sz + 1) in
  fresh <- uninit_bytes rsz ;;
  o <- lean_alloc_object_from malloc (LeanString rsz rsz len fresh) ;;
  src <- bytes_at s 0 sz ;;
  d1 <- write_bytes fresh 0 src ;;
  d2 <- write_bytes d1 sz [0] ;;
  set_body o (LeanString rsz rsz len d2) ;;
  ret o.

Definition lean_mk_string_unchecked (s : list Z) (sz len : Z) : M lean_obj :=
  lean_mk_string_unchecked_from unlimited s sz len.

(** lean_runtime_wasm.c:594 *)
Definition lean_mk_string_from (malloc : allocator) (s : list Z) : M lean_obj :=
  let sz := strlen s in
  len <- lean_utf8_strlen s ;;
  lean_mk_string_unchecked_from malloc s sz len.



(** lean_runtime_wasm.c:747 *)
Definition lean_string_utf8_set (s i : lean_obj) (c : Z) : M lean_obj :=
  ret s.


(** [(b & 0xC0) != 0x80]: [b] is not a continuation byte. *)
Definition not_cont (b : Z) : bool := negb (Z.land b 0xC0 =? 0x80).

(** The loop of [lean_string_validate_utf8] (lean_runtime_wasm.c:846-854).
    The argument is the byte range [[p, end)]: its head is [*p], its length is
    [end - p], and the match on the tail is the test [end - p < k] in front of
    the reads of [p[1]], [p[2]], [p[3]]. *)
Fixpoint validate_utf8_loop (p : list Z) : Z :=
  match p with
  | [] => 1
  | b0 :: p1 =>
      if b0 <? 0x80 then validate_utf8_loop p1
      else if b0 <? 0xC2 then 0
      else if b0 <? 0xE0 then
        match p1 with
        | b1 :: p2 => if not_cont b1 then 0 else validate_utf8_loop p2
        | _ => 0
        end
      else if b0 <? 0xF0 then
        match p1 with
        | b1 :: b2 :: p3 =>
            if not_cont b1 || not_cont b2 then 0 else validate_utf8_loop p3
        | _ => 0
        end
      else if b0 <? 0xF5 then
        match p1 with
        | b1 :: b2 :: b3 :: p4 =>
            if not_cont b1 || not_cont b2 || not_cont b3 then 0
            else validate_utf8_loop p4
        | _ => 0
        end
      else 0
  end.

(** lean_runtime_wasm.c:842 *)
Definition lean_string_validate_utf8 (s : lean_obj) : M Z :=
  so <- lean_to_string s ;;
  let '(m_size, _, _, m_data) := so in
  range <- bytes_at m_data 0 (m_size - 1) ;;
  ret (validate_utf8_loop range).

(* ================================================================== *)
(** ** Byte-array stubs *)
(* ================================================================== *)

(** [memset(lean_sarray_cptr(o), v, n)] *)
Definition memset_sarray (o : lean_obj) (v n : Z) : M unit :=
  so <- lean_to_sarray o ;;
  let '(m_size, m_capacity, m_data) := so in
  dst <- write_bytes m_data 0 (replicate (Z.to_nat n) (char v)) ;;
  set_body o (LeanScalarArray m_size m_capacity dst).

(** wasm_glue.c:23 *)
Definition lean_secure_zero (arr w : lean_obj) : M lean_obj :=
  exclusive <- lean_is_exclusive arr ;;
  (if exclusive then
     o <- lean_to_sarray arr ;;
     let '(m_size, _, _) := o in
     memset_sarray arr 0 m_size
   else ret tt) ;;
  lean_io_result_mk_ok arr.

(** lean_runtime_wasm.c:1063 *)
Definition lean_io_get_random_bytes (n w : lean_obj) : M lean_obj :=
  let sz := lean_unbox n in
  ba <- lean_alloc_sarray 1 sz sz ;;
  memset_sarray ba 0 sz ;;
  lean_io_result_mk_ok ba.

(** lean_runtime_wasm.c:1136 *)
Definition lean_crypto_random_bytes (n w : lean_obj) : M lean_obj :=
  let sz := lean_unbox n in
  ba <- lean_alloc_sarray 1 sz sz ;;
  memset_sarray ba 0 sz ;;
  lean_io_result_mk_ok ba.

(* ================================================================== *)
(** ** Operations the WebAssembly host does not provide *)
(* ================================================================== *)

(** What these operations do when no memory is left belongs to what is said
    about them, so they are written over an arbitrary allocator. *)
Section Unavailable.

Variable malloc : allocator.

(** lean_runtime_wasm.c:1042 — [IO.Error.userError msg] inside
    [EStateM.Result.error]. *)
Definition mk_io_error (msg : string) : M lean_obj :=
  s <- lean_mk_string_from malloc (c_str msg) ;;
  err <- lean_alloc_ctor_from malloc 2 1 0 ;;
  lean_ctor_set err 0 s ;;
  r <- lean_alloc_ctor_from malloc 1 1 0 ;;
  lean_ctor_set r 0 err ;;
  ret r.

(** init_stubs_wasm.c:33 *)
Definition wasm_io_error (msg : string) : M lean_obj :=
  s <- lean_mk_string_from malloc (c_str msg) ;;
  err <- lean_alloc_ctor_from malloc 2 1 0 ;;
  lean_ctor_set err 0 s ;;
  r <- lean_alloc_ctor_from malloc 1 1 0 ;;
  lean_ctor_set r 0 err ;;
  ret r.

(** lean_runtime_wasm.c:1081 *)
Definition lean_io_read_dir (path w : lean_obj) : M lean_obj :=
  lean_dec path ;;
  mk_io_error "filesystem not available in WASM".

(** lean_runtime_wasm.c:1102-1134 *)
Definition lean_crypto_sha256 (data w : lean_obj) : M lean_obj :=
  lean_dec data ;;
  mk_io_error "crypto FFI not available in WASM".

Definition lean_crypto_hmac_sha256 (key data w : lean_obj) : M lean_obj :=
  lean_dec key ;; lean_dec data ;;
  mk_io_error "crypto FFI not available in WASM".

Definition lean_crypto_aes128_gcm_encrypt (key iv aad pt w : lean_obj) : M lean_obj :=
  lean_dec key ;; lean_dec iv ;; lean_dec aad ;; lean_dec pt ;;
  mk_io_error "crypto FFI not available in WASM".

Definition lean_crypto_aes128_gcm_decrypt (key iv aad ct w : lean_obj) : M lean_obj :=
  lean_dec key ;; lean_dec iv ;; lean_dec aad ;; lean_dec ct ;;
  mk_io_error "crypto FFI not available in WASM".

Definition lean_crypto_x25519_base (privkey w : lean_obj) : M lean_obj :=
  lean_dec privkey ;;
  mk_io_error "crypto FFI not available in WASM".

Definition lean_crypto_x25519 (scalar point w : lean_obj) : M lean_obj :=
  lean_dec scalar ;; lean_dec point ;;
  mk_io_error "crypto FFI not available in WASM".

(** lean_runtime_wasm.c:1176 *)
Definition lean_io_promise_new (w : lean_obj) : M lean_obj :=
  mk_io_error "promises not available in WASM".

(** init_stubs_wasm.c:770, 776 *)
Definition l_IO_FS_readFile (path : lean_obj) : M lean_obj :=
  lean_dec path ;;
  wasm_io_error "filesystem not available in WASM".

Definition l_IO_FS_readBinFile (path : lean_obj) : M lean_obj :=
  lean_dec path ;;
  wasm_io_error "filesystem not available in WASM".

End Unavailable.

(** init_stubs_wasm.c:800 — the answer is a [uint8_t], not an object. *)
Definition l_System_FilePath_pathExists (path : lean_obj) : M Z :=
  lean_dec path ;;
  ret 0.

(* ================================================================== *)
(** ** Closure application (lean_runtime_wasm.c, section 4) *)
(* ================================================================== *)

(** Closures are applied to values and return values.  At this level an
    object is what it denotes: a scalar, a closure with its bound arguments,
    or any other data; [lean_inc] and [lean_dec] do not change what an object
    denotes and are left to the heap model above.  A native function is a
    function from its argument vector to a result. *)
Module Closure.

#[local] Unset Elimination Schemes.
Inductive value : Type :=
| Scalar (n : Z)
| Fun (m_fun : Z) (m_arity : Z) (m_objs : list value)
| Data (tag : Z) (fields : list value).
#[local] Set Elimination Schemes.

Section Apply.

(** The native code behind each function pointer. *)
Variable call : Z → list value → result value.

(** [a[i]] in the argument array. *)
Definition arg (a : list value) (i : nat) : value := nth i a (Scalar 0).

(** lean_runtime_wasm.c:206 *)
Definition lean_call_with_args (fn : Z) (arity : Z) (a : list value) : result value :=
  match arity with
  | 1 => call fn [arg a 0]
  | 2 => call fn [arg a 0; arg a 1]
  | 3 => call fn [arg a 0; arg a 1; arg a 2]
  | 4 => call fn [arg a 0; arg a 1; arg a 2; arg a 3]
  | 5 => call fn [arg a 0; arg a 1; arg a 2; arg a 3; arg a 4]
  | 6 => call fn [arg a 0; arg a 1; arg a 2; arg a 3; arg a 4; arg a 5]
  | 7 => call fn [arg a 0; arg a 1; arg a 2; arg a 3; arg a 4; arg a 5; arg a 6]
  | 8 => call fn [arg a 0; arg a 1; arg a 2; arg a 3; arg a 4; arg a 5; arg a 6;
                  arg a 7]
  | 9 => call fn [arg a 0; arg a 1; arg a 2; arg a 3; arg a 4; arg a 5; arg a 6;
                  arg a 7; arg a 8]
  | 10 => call fn [arg a 0; arg a 1; arg a 2; arg a 3; arg a 4; arg a 5; arg a 6;
                   arg a 7; arg a 8; arg a 9]
  | 11 => call fn [arg a 0; arg a 1; arg a 2; arg a 3; arg a 4; arg a 5; arg a 6;
                   arg a 7; arg a 8; arg a 9; arg a 10]
  | 12 => call fn [arg a 0; arg a 1; arg a 2; arg a 3; arg a 4; arg a 5; arg a 6;
                   arg a 7; arg a 8; arg a 9; arg a 10; arg a 11]
  | 13 => call fn [arg a 0; arg a 1; arg a 2; arg a 3; arg a 4; arg a 5; arg a 6;
                   arg a 7; arg a 8; arg a 9; arg a 10; arg a 11; arg a 12]
  | 14 => call fn [arg a 0; arg a 1; arg a 2; arg a 3; arg a 4; arg a 5; arg a 6;
                   arg a 7; arg a 8; arg a 9; arg a 10; arg a 11; arg a 12;
                   arg a 13]
  | 15 => call fn [arg a 0; arg a 1; arg a 2; arg a 3; arg a 4; arg a 5; arg a 6;
                   arg a 7; arg a 8; arg a 9; arg a 10; arg a 11; arg a 12;
                   arg a 13; arg a 14]
  | 16 => call fn [arg a 0; arg a 1; arg a 2; arg a 3; arg a 4; arg a 5; arg a 6;
                   arg a 7; arg a 8; arg a 9; arg a 10; arg a 11; arg a 12;
                   arg a 13; arg a 14; arg a 15]
  | _ => Abort "lean_call_with_args: arity > 16"
  end.







End Apply.

(** A table with one native function of three arguments, which packs them
    into a record, and one of one argument, which returns a closure over the
    first. *)
Definition sample_call (fn : Z) (args : list value) : result value :=
  if fn =? 0 then Ok (Data 0 args)
  else Ok (Fun 0 3 (take 1 args)).

End Closure.

(* ================================================================== *)
(** ** Small naturals (lean_runtime_wasm.c, section 8) *)
(* ================================================================== *)

(** Modelled from the spec: lean.h [lean_box(n)], the word [(n << 1) | 1].
    The word has 32 bits, so the scalar keeps the low 31 bits of [n]. *)
Definition lean_box_sz (n : Z) : lean_obj := lean_box (n mod 2 ^ 31).

(** Modelled from the spec: lean.h [LEAN_MAX_SMALL_NAT], [SIZE_MAX >> 1]. *)
Definition LEAN_MAX_SMALL_NAT : Z := 2 ^ 31 - 1.

(** lean_runtime_wasm.c:887 — print the name of the operation and
    [abort()]. *)
Definition big_nat_panic {A} (fn : string) : M A :=
  fun _ => Abort (String.append "WASM: big nat operation not supported: " fn).

(** lean_runtime_wasm.c:912 *)
Definition lean_nat_shiftl (a1 a2 : lean_obj) : M lean_obj :=
  if lean_is_scalar a1 && lean_is_scalar a2 then
    let v := size_t (lean_unbox a1) in
    let s := size_t (lean_unbox a2) in
    if s <? 32 then
      let r := size_t (Z.shiftl v s) in
      if (r <=? LEAN_MAX_SMALL_NAT) && ((s =? 0) || (Z.shiftr r s =? v))
      then ret (lean_box_sz r)
      else big_nat_panic "lean_nat_shiftl (overflow)"
    else big_nat_panic "lean_nat_shiftl (overflow)"
  else big_nat_panic "lean_nat_shiftl (overflow)".

(** The loop of [lean_nat_pow]: [n] iterations are left and [result] holds
    the product so far. *)
Fixpoint lean_nat_pow_loop (n : nat) (base result : Z) : M Z :=
  match n with
  | O => ret result
  | S n' =>
      let result := size_t (result * base) in
      if LEAN_MAX_SMALL_NAT <? result
      then big_nat_panic "lean_nat_pow (overflow)"
      else lean_nat_pow_loop n' base result
  end.

(** lean_runtime_wasm.c:925 *)
Definition lean_nat_pow (a1 a2 : lean_obj) : M lean_obj :=
  if lean_is_scalar a1 && lean_is_scalar a2 then
    let base := size_t (lean_unbox a1) in
    let exp := size_t (lean_unbox a2) in
    result <- lean_nat_pow_loop (Z.to_nat exp) base 1 ;;
    ret (lean_box_sz result)
  else big_nat_panic "lean_nat_pow (big)".

(** [while (v > 1) { v >>= 1; r++; }]; [v] gets smaller at every turn, so
    [v] turns are enough. *)
Fixpoint lean_nat_log2_loop (fuel : nat) (v r : Z) : M Z :=
  match fuel with
  | O => timeout
  | S fuel' =>
      if 1 <? v then lean_nat_log2_loop fuel' (Z.shiftr v 1) (size_t (r + 1))
      else ret r
  end.

(** lean_runtime_wasm.c:940 *)
Definition lean_nat_log2 (a : lean_obj) : M lean_obj :=
  if lean_is_scalar a then
    let v := size_t (lean_unbox a) in
    if v =? 0 then ret (lean_box_sz 0)
    else
      r <- lean_nat_log2_loop (Z.to_nat v) v 0 ;;
      ret (lean_box_sz r)
  else big_nat_panic "lean_nat_log2 (big)".

(** [while (y) { t = y; y = x % y; x = t; }]; [y] gets smaller at every
    turn, so [y + 1] turns are enough. *)
Fixpoint lean_nat_gcd_loop (fuel : nat) (x y : Z) : M Z :=
  match fuel with
  | O => timeout
  | S fuel' =>
      if y =? 0 then ret x
      else lean_nat_gcd_loop fuel' y (x mod y)
  end.

(** lean_runtime_wasm.c:986 *)
Definition lean_nat_gcd (a1 a2 : lean_obj) : M lean_obj :=
  if lean_is_scalar a1 && lean_is_scalar a2 then
    let x := size_t (lean_unbox a1) in
    let y := size_t (lean_unbox a2) in
    x <- lean_nat_gcd_loop (S (Z.to_nat y)) x y ;;
    ret (lean_box_sz x)
  else big_nat_panic "lean_nat_gcd (big)".

(** The loop of [lean_cstr_to_nat]; [n] is the rest of the C string, which
    ends where its terminator stands. *)
Fixpoint lean_cstr_to_nat_loop (n : list Z) (val : Z) : Z :=
  match n with
  | [] => val
  | c :: n' =>
      if (48 <=? char_to_int c) && (char_to_int c <=? 57) then
        let d := size_t (char_to_int c - 48) in
        lean_cstr_to_nat_loop n' (size_t (val * 10 + d))
      else val
  end.

(** lean_runtime_wasm.c:951 *)
Definition lean_cstr_to_nat (n : list Z) : lean_obj :=
  lean_box_sz (lean_cstr_to_nat_loop n 0).

(* ================================================================== *)
(** ** Characters (init_stubs_wasm.c, section 6) *)
(* ================================================================== *)

(** init_stubs_wasm.c:539 *)
Definition l_Char_ofNat (n : lean_obj) : Z :=
  let v := size_t (lean_unbox n) in
  if (0x10FFFF <? v) || ((0xD800 <=? v) && (v <=? 0xDFFF)) then 0xFFFD
  else uint32_t v.


(* ================================================================== *)
(** ** More string operations (lean_runtime_wasm.c, section 7) *)
(* ================================================================== *)

(** lean_runtime_wasm.c:563 — the argument is the byte range
    [[str, str + n)].  A step that carries [str] to [end] or past it ends
    the loop, so a sequence cut short by the end of the range still counts
    for one. *)
Fixpoint lean_utf8_n_strlen (str : list Z) : Z :=
  match str with
  | [] => 0
  | c :: p1 =>
      size_t
        (1 +
         (if c <? 0x80 then lean_utf8_n_strlen p1
          else
            match p1 with
            | [] => 0
            | _ :: p2 =>
                if c <? 0xE0 then lean_utf8_n_strlen p2
                else
                  match p2 with
                  | [] => 0
                  | _ :: p3 =>
                      if c <? 0xF0 then lean_utf8_n_strlen p3
                      else
                        match p3 with
                        | [] => 0
                        | _ :: p4 => lean_utf8_n_strlen p4
                        end
                  end
            end))
  end.

(** lean_runtime_wasm.c:590 — [s] is the memory from the pointer on. *)
Definition lean_mk_string_from_bytes (s : list Z) (sz : Z) : M lean_obj :=
  range <- bytes_at s 0 sz ;;
  lean_mk_string_unchecked s sz (lean_utf8_n_strlen range).

(** lean_runtime_wasm.c:655 — in the in-place branch [memcpy] writes into
    the buffer of [s1]; when [s2] is the same object the terminator it
    overwrites first is also the last byte it has to read, and [memcpy] on
    overlapping ranges is undefined. *)
Definition lean_string_append (s1 s2 : lean_obj) : M lean_obj :=
  o1 <- lean_to_string s1 ;;
  o2 <- lean_to_string s2 ;;
  let '(size1, capacity1, length1, data1) := o1 in
  let '(size2, _, length2, data2) := o2 in
  let sz1 := size_t (size1 - 1) in
  let sz2 := size_t (size2 - 1) in
  let new_bsz := size_t (sz1 + sz2 + 1) in
  exclusive <- lean_is_exclusive s1 ;;
  if exclusive && (new_bsz <=? capacity1) then
    src <- bytes_at data2 0 (size_t (sz2 + 1)) ;;
    (if decide (s1 = s2) then fault else ret tt) ;;
    d <- write_bytes data1 sz1 src ;;
    set_body s1 (LeanString new_bsz capacity1 (size_t (length1 + length2)) d) ;;
    ret s1
  else
    let cap := if new_bsz <? 16 then 16 else size_t (new_bsz * 2) in
    fresh <- uninit_bytes cap ;;
    r <- lean_alloc_object (LeanString 0 0 0 fresh) ;;
    src1 <- bytes_at data1 0 sz1 ;;
    d1 <- write_bytes fresh 0 src1 ;;
    src2 <- bytes_at data2 0 (size_t (sz2 + 1)) ;;
    d2 <- write_bytes d1 sz1 src2 ;;
    set_body r (LeanString new_bsz cap (size_t (length1 + length2)) d2) ;;
    lean_dec s1 ;;
    ret r.

(** lean_runtime_wasm.c:736 *)
Definition lean_string_utf8_extract (s b e : lean_obj) : M lean_obj :=
  so <- lean_to_string s ;;
  let '(m_size, _, _, m_data) := so in
  let bv := size_t (lean_unbox b) in
  let ev := size_t (lean_unbox e) in
  let sz := size_t (m_size - 1) in
  let bv := if sz <? bv then sz else bv in
  let ev := if sz <? ev then sz else ev in
  if ev <=? bv then lean_mk_string_unchecked [] 0 0
  else lean_mk_string_from_bytes (drop (Z.to_nat bv) m_data) (size_t (ev - bv)).

(** lean_runtime_wasm.c:771 *)
Definition lean_string_utf8_next (s i : lean_obj) : M lean_obj :=
  so <- lean_to_string s ;;
  let '(m_size, _, _, m_data) := so in
  let pos := size_t (lean_unbox i) in
  let sz := size_t (m_size - 1) in
  if sz <=? pos then ret (lean_box_sz sz)
  else
    c <- index m_data pos ;;
    let step := if 0x80 <=? c
                then (if c <? 0xE0 then 2 else if c <? 0xF0 then 3 else 4)
                else 1 in
    let r := size_t (pos + step) in
    let r := if sz <? r then sz else r in
    ret (lean_box_sz r).

(** [while (pos > 0 && (so->m_data[pos] & 0xC0) == 0x80) pos--;] *)
Fixpoint lean_string_utf8_prev_loop (pos : nat) (m_data : list Z) : M Z :=
  match pos with
  | O => ret 0
  | S pos' =>
      c <- index m_data (Z.of_nat pos) ;;
      if Z.land (char_to_int c) 0xC0 =? 0x80
      then lean_string_utf8_prev_loop pos' m_data
      else ret (Z.of_nat pos)
  end.

(** lean_runtime_wasm.c:790 *)
Definition lean_string_utf8_prev (s i : lean_obj) : M lean_obj :=
  so <- lean_to_string s ;;
  let '(_, _, _, m_data) := so in
  let pos := size_t (lean_unbox i) in
  if pos =? 0 then ret (lean_box_sz 0)
  else
    pos <- lean_string_utf8_prev_loop (Z.to_nat (pos - 1)) m_data ;;
    ret (lean_box_sz pos).

(** [memcmp] on two ranges of the same length: the sign of the first
    difference, the bytes compared as unsigned. *)
Fixpoint memcmp (p q : list Z) : Z :=
  match p, q with
  | x :: p', y :: q' =>
      if x <? y then -1 else if y <? x then 1 else memcmp p' q'
  | _, _ => 0
  end.

(** lean_runtime_wasm.c:805 *)
Definition lean_string_eq_cold (s1 s2 : lean_obj) : M bool :=
  o1 <- lean_to_string s1 ;;
  o2 <- lean_to_string s2 ;;
  let '(size1, _, _, data1) := o1 in
  let '(size2, _, _, data2) := o2 in
  if negb (size1 =? size2) then ret false
  else
    p <- bytes_at data1 0 size1 ;;
    q <- bytes_at data2 0 size1 ;;
    ret (memcmp p q =? 0).

(** lean_runtime_wasm.c:812 *)
Definition lean_string_lt (s1 s2 : lean_obj) : M bool :=
  o1 <- lean_to_string s1 ;;
  o2 <- lean_to_string s2 ;;
  let '(size1, _, _, data1) := o1 in
  let '(size2, _, _, data2) := o2 in
  let m := if size1 <? size2 then size1 else size2 in
  p <- bytes_at data1 0 m ;;
  q <- bytes_at data2 0 m ;;
  let c := memcmp p q in
  ret ((c <? 0) || ((c =? 0) && (size1 <? size2))).

Definition uint64_t (x : Z) : Z := x mod 2 ^ 64.

(** [h = 7; for (...) h = h * 31 + byte;] in [uint64_t]. *)
Definition hash_bytes (bytes : list Z) : Z :=
  foldl (fun h b => uint64_t (h * 31 + b)) 7 bytes.

(** lean_runtime_wasm.c:538 *)
Definition lean_byte_array_hash (a : lean_obj) : M Z :=
  o <- lean_to_sarray a ;;
  let '(m_size, _, m_data) := o in
  bytes <- bytes_at m_data 0 m_size ;;
  ret (hash_bytes bytes).

(** lean_runtime_wasm.c:820 *)
Definition lean_string_hash (s : lean_obj) : M Z :=
  o <- lean_to_string s ;;
  let '(m_size, _, _, m_data) := o in
  bytes <- bytes_at m_data 0 (size_t (m_size - 1)) ;;
  ret (hash_bytes bytes).

(** lean_runtime_wasm.c:873 *)
Definition lean_slice_hash (s : lean_obj) : M Z := lean_string_hash s.

(** lean_runtime_wasm.c:857 *)
Definition lean_string_from_utf8_unchecked (ba : lean_obj) : M lean_obj :=
  o <- lean_to_sarray ba ;;
  let '(m_size, _, m_data) := o in
  s <- lean_mk_string_from_bytes m_data m_size ;;
  lean_dec ba ;;
  ret s.

(** lean_runtime_wasm.c:864 *)
Definition lean_string_to_utf8 (s : lean_obj) : M lean_obj :=
  so <- lean_to_string s ;;
  let '(m_size, _, _, m_data) := so in
  let sz := size_t (m_size - 1) in
  ba <- lean_alloc_sarray 1 sz sz ;;
  (* memcpy(lean_sarray_cptr(ba), so->m_data, sz) *)
  src <- bytes_at m_data 0 sz ;;
  bo <- lean_to_sarray ba ;;
  let '(b_size, b_capacity, b_data) := bo in
  dst <- write_bytes b_data 0 src ;;
  set_body ba (LeanScalarArray b_size b_capacity dst) ;;
  lean_dec s ;;
  ret ba.

(* ================================================================== *)
(** ** Mutable references (lean_runtime_wasm.c, section 9) *)
(* ================================================================== *)

(** [r->m_value], read through the cast of [r] to a [lean_ref_object]. *)
Definition lean_to_ref (r : lean_obj) : M lean_obj :=
  match r with
  | lean_ptr a =>
      c <- load a ;;
      match m_body c with
      | LeanRef m_value => ret m_value
      | _ => fault
      end
  | _ => fault
  end.

(** lean_runtime_wasm.c:999 *)
Definition lean_st_mk_ref (a : lean_obj) : M lean_obj :=
  r <- lean_alloc_object (LeanRef NULL) ;;
  set_body r (LeanRef a) ;;
  lean_io_result_mk_ok r.

(** lean_runtime_wasm.c:1006 *)
Definition lean_st_ref_get (r : lean_obj) : M lean_obj :=
  v <- lean_to_ref r ;;
  lean_inc v ;;
  lean_io_result_mk_ok v.

(** lean_runtime_wasm.c:1012 *)
Definition lean_st_ref_set (r v : lean_obj) : M lean_obj :=
  old <- lean_to_ref r ;;
  set_body r (LeanRef v) ;;
  lean_dec old ;;
  lean_io_result_mk_ok (lean_box 0).

(** lean_runtime_wasm.c:1019 *)
Definition lean_st_ref_take (r : lean_obj) : M lean_obj :=
  v <- lean_to_ref r ;;
  set_body r (LeanRef (lean_box 0)) ;;
  lean_io_result_mk_ok v.

(** lean_runtime_wasm.c:1025 *)
Definition lean_st_ref_swap (r v : lean_obj) : M lean_obj :=
  old <- lean_to_ref r ;;
  set_body r (LeanRef v) ;;
  lean_io_result_mk_ok old.

(** lean_runtime_wasm.c:1031 *)
Definition lean_st_ref_reset (r : lean_obj) : M lean_obj :=
  old <- lean_to_ref r ;;
  set_body r (LeanRef (lean_box 0)) ;;
  lean_dec old ;;
  lean_io_result_mk_ok (lean_box 0).

(* ================================================================== *)
(** ** Byte arrays (lean_runtime_wasm.c, section 6; init_stubs_wasm.c,
       section 2) *)
(* ================================================================== *)

Definition uint8_t (x : Z) : Z := x mod 256.

(** [memcpy(lean_sarray_cptr(o) + off, src, length src)] *)
Definition memcpy_sarray (o : lean_obj) (off : Z) (src : list Z) : M unit :=
  so <- lean_to_sarray o ;;
  let '(m_size, m_capacity, m_data) := so in
  dst <- write_bytes m_data off src ;;
  set_body o (LeanScalarArray m_size m_capacity dst).

(** lean_runtime_wasm.c:477 *)
Definition lean_copy_byte_array (a : lean_obj) : M lean_obj :=
  src <- lean_to_sarray a ;;
  let '(m_size, _, m_data) := src in
  let sz := m_size in
  dst <- lean_alloc_sarray 1 sz sz ;;
  bytes <- bytes_at m_data 0 sz ;;
  memcpy_sarray dst 0 bytes ;;
  lean_dec a ;;
  ret dst.

(** lean_runtime_wasm.c:486 *)
Definition lean_byte_array_push (a : lean_obj) (b : Z) : M lean_obj :=
  o <- lean_to_sarray a ;;
  let '(m_size, m_capacity, m_data) := o in
  exclusive <- lean_is_exclusive a ;;
  if exclusive && (m_size <? m_capacity) then
    d <- write_bytes m_data m_size [uint8_t b] ;;
    set_body a (LeanScalarArray (size_t (m_size + 1)) m_capacity d) ;;
    ret a
  else
    let sz := m_size in
    let cap := if sz <? 4 then 8 else size_t (sz * 2) in
    dst <- lean_alloc_sarray 1 (size_t (sz + 1)) cap ;;
    bytes <- bytes_at m_data 0 sz ;;
    memcpy_sarray dst 0 bytes ;;
    memcpy_sarray dst sz [uint8_t b] ;;
    lean_dec a ;;
    ret dst.

(** lean_runtime_wasm.c:502 — the in-place branch uses [memmove], which
    copies as if through a temporary, so the source bytes are those read
    before the destination is written, also when both are one object. *)
Definition lean_byte_array_copy_slice
    (src srcOff dst dstOff len : lean_obj) (exact : Z) : M lean_obj :=
  s <- lean_to_sarray src ;;
  let '(src_sz, _, s_data) := s in
  let ss := size_t (lean_unbox srcOff) in
  let ds := size_t (lean_unbox dstOff) in
  let n := size_t (lean_unbox len) in
  let ss := if src_sz <? ss then src_sz else ss in
  let n := if src_sz <? size_t (ss + n) then size_t (src_sz - ss) else n in
  d <- lean_to_sarray dst ;;
  let '(dst_sz, d_capacity, d_data) := d in
  let ds := if dst_sz <? ds then dst_sz else ds in
  let new_sz := size_t (ds + n) in
  let new_sz := if new_sz <? dst_sz then dst_sz else new_sz in
  exclusive <- lean_is_exclusive dst ;;
  if negb exclusive || (d_capacity <? new_sz) then
    let cap := if negb (exact =? 0) then new_sz
               else if new_sz <? 8 then 8 else size_t (new_sz * 2) in
    new_dst <- lean_alloc_sarray 1 new_sz cap ;;
    head <- bytes_at d_data 0 ds ;;
    memcpy_sarray new_dst 0 head ;;
    mid <- bytes_at s_data ss n ;;
    memcpy_sarray new_dst ds mid ;;
    (if size_t (ds + n) <? new_sz then
       tail <- bytes_at d_data (size_t (ds + n)) (size_t (new_sz - ds - n)) ;;
       memcpy_sarray new_dst (size_t (ds + n)) tail
     else ret tt) ;;
    lean_dec dst ;;
    ret new_dst
  else
    mid <- bytes_at s_data ss n ;;
    d' <- write_bytes d_data ds mid ;;
    set_body dst (LeanScalarArray new_sz d_capacity d') ;;
    ret dst.

(** init_stubs_wasm.c:93 *)
Definition l_ByteArray_instBEq_beq (a b : lean_obj) : M Z :=
  sa <- lean_to_sarray a ;;
  sb <- lean_to_sarray b ;;
  let '(a_size, _, a_data) := sa in
  let '(b_size, _, b_data) := sb in
  if negb (a_size =? b_size) then ret 0
  else
    p <- bytes_at a_data 0 a_size ;;
    q <- bytes_at b_data 0 a_size ;;
    ret (if memcmp p q =? 0 then 1 else 0).

(** init_stubs_wasm.c:107 *)
Definition l_ByteArray_instDecidableEq (a b : lean_obj) : M Z :=
  l_ByteArray_instBEq_beq a b.

(** init_stubs_wasm.c:118 *)
Definition l_ByteArray_isEmpty (a : lean_obj) : M Z :=
  o <- lean_to_sarray a ;;
  let '(m_size, _, _) := o in
  ret (if m_size =? 0 then 1 else 0).

(* ================================================================== *)
(** ** The host bridge (wasm_glue.c) *)
(* ================================================================== *)

(** A buffer of linear memory that crosses the bridge is the null pointer
    ([None]) or the bytes from the pointer on. *)

(** wasm_glue.c:37 *)
Definition mk_byte_array (data : option (list Z)) (len : Z) : M lean_obj :=
  arr <- lean_alloc_sarray 1 len len ;;
  match data with
  | Some bytes =>
      if 0 <? len then
        src <- bytes_at bytes 0 len ;;
        memcpy_sarray arr 0 src
      else ret tt
  | None => ret tt
  end ;;
  ret arr.

(** wasm_glue.c:49 — the pointer to the bytes and [*out_len]. *)
Definition byte_array_data (arr : lean_obj) : M (list Z * Z) :=
  o <- lean_to_sarray arr ;;
  let '(m_size, _, m_data) := o in
  ret (m_data, m_size).

(** wasm_glue.c:59 — the buffer [malloc] returns, as it is handed to the
    caller, and [*total_len]. *)
Definition export_byte_array (arr : lean_obj) : M (list Z * Z) :=
  dl <- byte_array_data arr ;;
  let '(data, len) := dl in
  buf <- uninit_bytes len ;;
  buf <- (if 0 <? len then
            src <- bytes_at data 0 len ;;
            write_bytes buf 0 src
          else ret buf) ;;
  ret (buf, len).

(* ================================================================== *)
(** ** Object arrays (lean_runtime_wasm.c, section 5; init_stubs_wasm.c,
       section 3) *)
(* ================================================================== *)

(** init_stubs_wasm.c:145 *)
Definition l_Array_back___redArg (a : lean_obj) : M lean_obj :=
  o <- lean_to_array a ;;
  let '(m_size, _, m_data) := o in
  if m_size =? 0 then lean_internal_panic "Array.back: empty array"
  else
    v <- index m_data (size_t (m_size - 1)) ;;
    lean_inc v ;;
    ret v.

(** The body of the filling loop of [lean_mk_array]. *)
Definition mk_array_body (arr v : lean_obj) (i : Z) : M unit :=
  lean_inc v ;;
  d <- lean_to_array arr ;;
  let '(d_size, d_capacity, d_data) := d in
  _ <- index d_data i ;;
  set_body arr (LeanArray d_size d_capacity (<[Z.to_nat i := v]> d_data)).

(** lean_runtime_wasm.c:388 *)
Definition lean_mk_array (n v : lean_obj) : M lean_obj :=
  let sz := lean_unbox n in
  arr <- lean_alloc_array sz sz ;;
  (* a->m_size = sz *)
  d <- lean_to_array arr ;;
  let '(_, d_capacity, d_data) := d in
  set_body arr (LeanArray sz d_capacity d_data) ;;
  for_loop (Z.to_nat sz) 0 (mk_array_body arr v) ;;
  lean_dec v ;;
  ret arr.

(** The body of the copying loop of [lean_copy_expand_array]:
    [lean_inc(src->m_data[i]); d->m_data[i] = src->m_data[i];] *)
Definition copy_expand_body (a dst : lean_obj) (i : Z) : M unit :=
  src <- lean_to_array a ;;
  let '(_, _, s_data) := src in
  x <- index s_data i ;;
  lean_inc x ;;
  src <- lean_to_array a ;;
  let '(_, _, s_data) := src in
  x <- index s_data i ;;
  d <- lean_to_array dst ;;
  let '(d_size, d_capacity, d_data) := d in
  _ <- index d_data i ;;
  set_body dst (LeanArray d_size d_capacity (<[Z.to_nat i := x]> d_data)).

(** lean_runtime_wasm.c:401 *)
Definition lean_copy_expand_array (a : lean_obj) (expand : bool) : M lean_obj :=
  src <- lean_to_array a ;;
  let '(m_size, _, _) := src in
  let sz := m_size in
  let cap := if expand then (if sz <? 4 then 4 else size_t (sz * 2)) else sz in
  dst <- lean_alloc_array sz cap ;;
  (* d->m_size = sz *)
  d <- lean_to_array dst ;;
  let '(_, d_capacity, d_data) := d in
  set_body dst (LeanArray sz d_capacity d_data) ;;
  for_loop (Z.to_nat sz) 0 (copy_expand_body a dst) ;;
  lean_dec a ;;
  ret dst.

(** [o->m_data[o->m_size++] = v] *)
Definition array_store_at_end (o v : lean_obj) : M unit :=
  so <- lean_to_array o ;;
  let '(m_size, m_capacity, m_data) := so in
  _ <- index m_data m_size ;;
  set_body o (LeanArray (size_t (m_size + 1)) m_capacity
                        (<[Z.to_nat m_size := v]> m_data)).

(** lean_runtime_wasm.c:416 *)
Definition lean_array_push (a v : lean_obj) : M lean_obj :=
  o <- lean_to_array a ;;
  let '(m_size, m_capacity, _) := o in
  exclusive <- lean_is_exclusive a ;;
  if exclusive && (m_size <? m_capacity) then
    array_store_at_end a v ;;
    ret a
  else
    r <- lean_copy_expand_array a true ;;
    ro <- lean_to_array r ;;
    let '(r_size, r_capacity, _) := ro in
    r <- (if r_capacity <=? r_size then lean_copy_expand_array r true else ret r) ;;
    array_store_at_end r v ;;
    ret r.

(* ================================================================== *)
(** ** Lists (init_stubs_wasm.c, section 4; lean_runtime_wasm.c:373) *)
(* ================================================================== *)

(** Modelled from the spec: lean.h [lean_ctor_get(o, i)], the [i]-th object
    field of a constructor. *)
Definition lean_ctor_get (o : lean_obj) (i : Z) : M lean_obj :=
  match o with
  | lean_ptr a =>
      c <- load a ;;
      match m_body c with
      | LeanCtor _ m_objs => index m_objs i
      | _ => fault
      end
  | _ => fault
  end.

(** [for (i = n; i > 0; i--) r = body(i, r)] *)
Fixpoint for_down {A} (n : nat) (i : Z) (body : Z → A → M A) (r : A) : M A :=
  match n with
  | O => ret r
  | S n' => r' <- body i r ;; for_down n' (i - 1) body r'
  end.

(** The step every list builder of the stubs repeats:
    [cons = lean_alloc_ctor(1, 2, 0); lean_ctor_set(cons, 0, hd);
     lean_ctor_set(cons, 1, r); r = cons;] *)
Definition list_cons (hd r : lean_obj) : M lean_obj :=
  cons <- lean_alloc_ctor 1 2 0 ;;
  lean_ctor_set cons 0 hd ;;
  lean_ctor_set cons 1 r ;;
  ret cons.

(** init_stubs_wasm.c:252 *)
Definition l_List_range (n_obj : lean_obj) : M lean_obj :=
  let n := lean_unbox n_obj in
  for_down (Z.to_nat n) n (fun i r => list_cons (lean_box_sz (i - 1)) r) (lean_box 0).

(** [while (!lean_is_scalar(p)) { len++; p = lean_ctor_get(p, 1); }].  The
    walk allocates nothing, so one that is longer than the number of live
    cells has come back to a cell it has seen: the list is cyclic and the C
    loop does not return either. *)
Fixpoint list_length_loop (fuel : nat) (p : lean_obj) (len : Z) : M Z :=
  if lean_is_scalar p then ret len
  else
    match fuel with
    | O => timeout
    | S fuel' =>
        p' <- lean_ctor_get p 1 ;;
        list_length_loop fuel' p' (size_t (len + 1))
    end.

(** init_stubs_wasm.c:383 *)
Definition l_List_lengthTR___redArg (xs : lean_obj) : M lean_obj :=
  fun st =>
    (len <- list_length_loop (S (size (heap st))) xs 0 ;;
     ret (lean_box_sz len)) st.

(** init_stubs_wasm.c:378 *)
Definition l_List_isEmpty___redArg (xs : lean_obj) : M Z :=
  ret (if lean_is_scalar xs then 1 else 0).

(** [while (n > 0 && !lean_is_scalar(cur)) { cur = lean_ctor_get(cur, 1); n--; }];
    [n] bounds the number of rounds. *)
Fixpoint list_skip (fuel : nat) (n : Z) (cur : lean_obj) : M lean_obj :=
  if (0 <? n) && negb (lean_is_scalar cur) then
    match fuel with
    | O => timeout
    | S fuel' =>
        cur' <- lean_ctor_get cur 1 ;;
        list_skip fuel' (n - 1) cur'
    end
  else ret cur.

(** init_stubs_wasm.c:363 *)
Definition l_List_get_x21Internal___redArg (xs n_obj fallback : lean_obj) :
    M lean_obj :=
  let n := lean_unbox n_obj in
  cur <- list_skip (Z.to_nat n) n xs ;;
  if lean_is_scalar cur then ret fallback
  else
    hd <- lean_ctor_get cur 0 ;;
    lean_inc hd ;;
    lean_dec fallback ;;
    ret hd.

(** The body of the loop of [lean_array_to_list]. *)
Definition to_list_body (a : lean_obj) (i : Z) (r : lean_obj) : M lean_obj :=
  arr <- lean_to_array a ;;
  let '(_, _, m_data) := arr in
  hd <- index m_data (i - 1) ;;
  lean_inc hd ;;
  list_cons hd r.

(** lean_runtime_wasm.c:373 *)
Definition lean_array_to_list (a : lean_obj) : M lean_obj :=
  arr <- lean_to_array a ;;
  let '(m_size, _, _) := arr in
  r <- for_down (Z.to_nat m_size) m_size (to_list_body a) (lean_box 0) ;;
  lean_dec a ;;
  ret r.

(* ================================================================== *)
(** ** Byte arrays and lists (init_stubs_wasm.c:123,
       lean_runtime_wasm.c:445) *)
(* ================================================================== *)

(** The body of the loop of [l_ByteArray_toList]. *)
Definition byte_list_body (a : lean_obj) (i : Z) (r : lean_obj) : M lean_obj :=
  cons <- lean_alloc_ctor 1 2 0 ;;
  o <- lean_to_sarray a ;;
  let '(_, _, m_data) := o in
  b <- index m_data (i - 1) ;;
  lean_ctor_set cons 0 (lean_box_sz b) ;;
  lean_ctor_set cons 1 r ;;
  ret cons.

(** init_stubs_wasm.c:123 *)
Definition l_ByteArray_toList (a : lean_obj) : M lean_obj :=
  o <- lean_to_sarray a ;;
  let '(m_size, _, _) := o in
  for_down (Z.to_nat m_size) m_size (byte_list_body a) (lean_box 0).

(** The filling loop of [lean_byte_array_mk]:
    [for (i = 0; i < len; i++) { o->m_data[i] = (uint8_t)lean_unbox(hd); ... }] *)
Fixpoint byte_array_mk_loop (n : nat) (i : Z) (arr p : lean_obj) : M unit :=
  match n with
  | O => ret tt
  | S n' =>
      hd <- lean_ctor_get p 0 ;;
      memcpy_sarray arr i [uint8_t (lean_unbox hd)] ;;
      p' <- lean_ctor_get p 1 ;;
      byte_array_mk_loop n' (i + 1) arr p'
  end.

(** lean_runtime_wasm.c:445 *)
Definition lean_byte_array_mk (a : lean_obj) : M lean_obj :=
  fun st =>
    (len <- list_length_loop (S (size (heap st))) a 0 ;;
     arr <- lean_alloc_sarray 1 len len ;;
     byte_array_mk_loop (Z.to_nat len) 0 arr a ;;
     lean_dec a ;;
     ret arr) st.

(* ================================================================== *)
(** ** Vocabulary of the statements *)
(* ================================================================== *)

(** Chains of owned objects, for the statements about release. *)

(** The four ways a cell owns a single child: a record field, a bound
    argument of a closure, an array element, the value of a mutable cell. *)
Inductive owner : Type :=
| InCtor (tag : Z)
| InClosure (m_fun m_arity : Z)
| InArray
| InRef.

Definition owner_body (k : owner) (child : lean_obj) : lean_payload :=
  match k with
  | InCtor tag => LeanCtor tag [child]
  | InClosure m_fun m_arity => LeanClosure m_fun m_arity [child]
  | InArray => LeanArray 1 1 [child]
  | InRef => LeanRef child
  end.

(** Allocate a chain, innermost cell first; the innermost child is the
    scalar [lean_box 0].  The head of [ks] is the outermost owner, so the
    result owns a chain of depth [length ks]. *)
Fixpoint build_chain (ks : list owner) : M lean_obj :=
  match ks with
  | [] => ret (lean_box 0)
  | k :: ks' => child <- build_chain ks' ;; lean_alloc_object (owner_body k child)
  end.

(** [o] heads a chain of exclusively owned cells at the addresses [addrs]. *)
Inductive chain_at (h : gmap positive lean_cell) :
    lean_obj → list owner → list positive → Prop :=
| chain_nil n : chain_at h (lean_box n) [] []
| chain_cons a k child ks addrs :
    h !! a = Some (mkCell 1 (owner_body k child)) →
    chain_at h child ks addrs →
    chain_at h (lean_ptr a) (k :: ks) (a :: addrs).

(** What [lean_inc] does to the heap, written as a function of the heap. *)
Definition retain (x : lean_obj) (h : gmap positive lean_cell) :
    gmap positive lean_cell :=
  match x with
  | lean_ptr p =>
      match h !! p with
      | Some c => if 0 <? m_rc c then <[p := set_rc (m_rc c + 1) c]> h else h
      | None => h
      end
  | _ => h
  end.

(** A reference [lean_inc] accepts: a scalar, or a live single-threaded or
    immortal object. *)
Definition valid_ref (h : gmap positive lean_cell) (x : lean_obj) : Prop :=
  match x with
  | lean_box _ => True
  | lean_ptr p => ∃ c, h !! p = Some c ∧ 0 ≤ m_rc c
  | NULL => False
  end.

(** The count of a live cell after [k] more references to it were taken. *)
Definition retained (k : nat) (c : lean_cell) : lean_cell :=
  if 0 <? m_rc c then set_rc (m_rc c + Z.of_nat k) c else c.

Definition retain_all (xs : list lean_obj) (h : gmap positive lean_cell) :
    gmap positive lean_cell :=
  foldl (fun h x => retain x h) h xs.

(** How many of the references [xs] point at the cell [p]. *)
Definition occurrences (p : positive) (xs : list lean_obj) : nat :=
  count_occ lean_obj_eq_dec xs (lean_ptr p).

(** The body of the copying loop of [l_Array_extract___redArg]. *)
Definition extract_body (a r : lean_obj) (s : Z) (i : Z) : M unit :=
  o <- lean_to_array a ;;
  let '(_, _, m_data) := o in
  x <- index m_data (s + i) ;;
  lean_inc x ;;
  ro <- lean_to_array r ;;
  let '(r_size, r_capacity, r_data) := ro in
  _ <- index r_data i ;;
  set_body r (LeanArray r_size r_capacity (<[Z.to_nat i := x]> r_data)).



(** Cells that own no other object. *)
Definition childless (b : lean_payload) : Prop :=
  match b with
  | LeanScalarArray _ _ _ | LeanString _ _ _ _ => True
  | _ => False
  end.

(** [data] with [src] written over it from offset [off]. *)
Definition splice (data : list Z) (off : nat) (src : list Z) : list Z :=
  take off data ++ src ++ drop (off + length src) data.

(** How many continuation bytes the validation loop reads after the
    leading byte [b] of a multi-byte sequence ([0xC2 <= b < 0xF5]). *)
Definition continuation_count (b : Z) : nat :=
  if b <? 0xE0 then 1 else if b <? 0xF0 then 2 else 3.

(** [r] is an error result that carries the message [msg]: constructor 1
    ([EStateM.Result.error]) around constructor 2 ([IO.Error.userError])
    around the string. *)
Definition is_io_error (h : gmap positive lean_cell) (r : lean_obj) (msg : string) : Prop :=
  ∃ pr pe ps,
    r = lean_ptr pr ∧
    h !! pr = Some (mkCell 1 (LeanCtor 1 [lean_ptr pe])) ∧
    h !! pe = Some (mkCell 1 (LeanCtor 2 [lean_ptr ps])) ∧
    h !! ps = Some (mkCell 1 (LeanString (Z.of_nat (String.length msg) + 1)
                                         (Z.of_nat (String.length msg) + 1)
                                         (Z.of_nat (String.length msg))
                                         (c_str msg ++ [0]))).

(** A computation that does not end in [abort()]. *)
Definition no_abort {A} (m : M A) (st : state) : Prop :=
  ∀ msg, m st ≠ Abort msg.

Definition never_aborts {A} (m : M A) : Prop := ∀ st, no_abort m st.

(** An allocator hands out only blocks that are not live. *)
Definition sound (malloc : allocator) : Prop :=
  ∀ h a, malloc h = Some a → h !! a = None.

Definition never_fails (malloc : allocator) : Prop := ∀ h, is_Some (malloc h).

(** What holds of an operation the host lacks, for every sound allocator.
    The only way it aborts is the out-of-memory panic of the allocation.
    If it returns, it returns the error result with the message [msg].  Once
    its arguments have been released, it either returns that result, leaving
    the live cells as they are, or aborts for lack of memory: it returns
    when the allocator does not fail, and aborts when the allocator has
    nothing to hand out for the first block. *)
Definition unavailable (op : allocator → M lean_obj) (release : M unit)
    (msg : string) : Prop :=
  ∀ malloc st, sound malloc →
    (∀ m, op malloc st = Abort m → m = "out of memory") ∧
    (∀ r st', op malloc st = Ok (r, st') → is_io_error (heap st') r msg) ∧
    (∀ st1, release st = Ok (tt, st1) →
       ((∃ r st', op malloc st = Ok (r, st') ∧ is_io_error (heap st') r msg ∧
                  ∀ p, is_Some (heap st1 !! p) → heap st' !! p = heap st1 !! p)
        ∨ op malloc st = Abort "out of memory") ∧
       (never_fails malloc →
          ∃ r st', op malloc st = Ok (r, st') ∧ is_io_error (heap st') r msg ∧
                   ∀ p, is_Some (heap st1 !! p) → heap st' !! p = heap st1 !! p) ∧
       (malloc (heap st1) = None → op malloc st = Abort "out of memory")).

(** The number a string of decimal digits denotes, most significant digit
    first. *)
Definition decimal (ds : list Z) : Z := foldl (fun v d => v * 10 + d) 0 ds.

(** The ASCII characters of the digits [ds]. *)
Definition digit_chars (ds : list Z) : list Z := map (fun d => d + 48) ds.

(** A byte at which [lean_cstr_to_nat] stops. *)
Definition not_digit (c : Z) : Prop := c < 48 ∨ 57 < c.

(** Lexicographic order on byte strings, a proper prefix coming first. *)
Fixpoint bytes_lt (p q : list Z) : bool :=
  match p, q with
  | [], [] => false
  | [], _ :: _ => true
  | _ :: _, [] => false
  | x :: p', y :: q' => (x <? y) || ((x =? y) && bytes_lt p' q')
  end.

(** What release may make of a heap: every cell of [h'] was in [h] with the
    same payload and a count at least as large, a positive count has stayed
    positive, and the cells of [h] whose count is not positive — the
    immortal ones — are in [h'] as they were. *)
Definition released (h h' : gmap positive lean_cell) : Prop :=
  (∀ a c', h' !! a = Some c' →
           ∃ c, h !! a = Some c ∧ m_body c' = m_body c ∧
                m_rc c' ≤ m_rc c ∧ (0 < m_rc c → 0 < m_rc c')) ∧
  (∀ a c, h !! a = Some c → m_rc c ≤ 0 → h' !! a = Some c).

(** The same state but for the heap, which has only been released. *)
Definition only_released (st st' : state) : Prop :=
  released (heap st) (heap st') ∧
  uninit st' = uninit st ∧
  l_Array_empty st' = l_Array_empty st ∧
  l_ByteArray_empty st' = l_ByteArray_empty st ∧
  frames st' = frames st.

(** What [lean_dec] does to the heap when the count stays positive: one
    less, and nothing for a scalar or an immortal object. *)
Definition release1 (x : lean_obj) (h : gmap positive lean_cell) :
    gmap positive lean_cell :=
  match x with
  | lean_ptr p =>
      match h !! p with
      | Some c => if 1 <? m_rc c then <[p := set_rc (m_rc c - 1) c]> h else h
      | None => h
      end
  | _ => h
  end.

Definition release_all (xs : list lean_obj) (h : gmap positive lean_cell) :
    gmap positive lean_cell :=
  foldl (fun h x => release1 x h) h xs.

(** The count of a live cell after [k] references to it were dropped. *)
Definition unretained (k : nat) (c : lean_cell) : lean_cell :=
  if 0 <? m_rc c then set_rc (m_rc c - Z.of_nat k) c else c.

(** Every reference in [xs] can be dropped without freeing anything: the
    objects are immortal or have more owners than [xs] holds references. *)
Definition shared_beyond (xs : list lean_obj) (h : gmap positive lean_cell) : Prop :=
  Forall (fun x => x ≠ NULL) xs ∧
  ∀ p, (0 < occurrences p xs)%nat →
       ∃ c, h !! p = Some c ∧ (m_rc c = 0 ∨ Z.of_nat (occurrences p xs) < m_rc c).

(** Everything but the heap and the recorded peak of the release stack is
    as before. *)
Definition same_globals (st st' : state) : Prop :=
  uninit st' = uninit st ∧
  l_Array_empty st' = l_Array_empty st ∧
  l_ByteArray_empty st' = l_ByteArray_empty st ∧
  frames st' = frames st.

(** The capacity [lean_copy_expand_array] gives an expanded copy. *)
Definition expanded_capacity (sz : Z) : Z :=
  if sz <? 4 then 4 else size_t (sz * 2).

(** [list_at h o vs]: in the heap [h] the object [o] is the list of the
    values [vs], a scalar for the empty list and a constructor with head and
    tail for every element. *)
Fixpoint list_at (h : gmap positive lean_cell) (o : lean_obj)
    (vs : list lean_obj) : Prop :=
  match vs with
  | [] => ∃ n, o = lean_box n
  | v :: vs' =>
      ∃ a rc tag tl,
        o = lean_ptr a ∧ h !! a = Some (mkCell rc (LeanCtor tag [v; tl])) ∧
        list_at h tl vs'
  end.

(** A list as the stubs build it: [List.nil] is the scalar 0, every element
    has a cell of its own with tag 1 and count 1, and none of these cells is
    a cell of [h0]. *)
Fixpoint fresh_list_at (h0 h : gmap positive lean_cell) (o : lean_obj)
    (vs : list lean_obj) : Prop :=
  match vs with
  | [] => o = lean_box 0
  | v :: vs' =>
      ∃ a tl,
        o = lean_ptr a ∧ h0 !! a = None ∧
        h !! a = Some (mkCell 1 (LeanCtor 1 [v; tl])) ∧
        fresh_list_at h0 h tl vs'
  end.

(** The scalars [0, 1, ..., n - 1]. *)
Definition numbers (n : nat) : list lean_obj :=
  map (fun k => lean_box (Z.of_nat k)) (seq 0 n).

(** [list_over h0 h o vs]: the heap [h] is [h0] and, on top of it, the cells
    of the list [o] of the values [vs], one cell of count 1 for each
    element. *)
Fixpoint list_over (h0 h : gmap positive lean_cell) (o : lean_obj)
    (vs : list lean_obj) : Prop :=
  match vs with
  | [] => o = lean_box 0 ∧ h = h0
  | v :: vs' =>
      ∃ a tl h',
        o = lean_ptr a ∧ h' !! a = None ∧
        h = <[a := mkCell 1 (LeanCtor 1 [v; tl])]> h' ∧
        list_over h0 h' tl vs'
  end.

(* ================================================================== *)
(** ** Concrete inputs *)
(* ================================================================== *)

Definition initial_state : state :=
  mkState ∅ (fun _ => 170) NULL NULL 0 0.

(** The peak number of [lean_dec_ref_cold] activations while an [n]-deep
    chain of records, built in the initial state, is released. *)
Definition release_peak (n : nat) : option nat :=
  match (o <- build_chain (replicate n (InCtor 1)) ;; lean_dec o) initial_state with
  | Ok (_, st) => Some (peak_frames st)
  | _ => None
  end.

(** The state in which the start-up constructor has run and a byte array
    holding [0x41 0x41 0x41] has been allocated. *)
Definition three_bytes : M lean_obj :=
  init_wasm_globals ;;
  a <- lean_alloc_sarray 1 3 3 ;;
  set_body a (LeanScalarArray 3 3 [65; 65; 65]) ;;
  ret a.

Definition one_array : M lean_obj :=
  init_wasm_globals ;;
  a <- lean_alloc_array 1 1 ;;
  set_body a (LeanArray 1 1 [lean_box 7]) ;;
  ret a.

(** A heap with the byte array [0x41 0x41 0x41] at address 4. *)
Definition st_bytes : state :=
  mkState (<[4%positive := mkCell 1 (LeanScalarArray 3 3 [65; 65; 65])]> ∅)
          (fun _ => 170) NULL NULL 0 0.

(** A heap with an array at address 3 that holds the record at address 1
    twice and the scalar 7. *)
Definition st_array : state :=
  mkState (<[3%positive := mkCell 1 (LeanArray 3 4
                                       [lean_ptr 1; lean_box 7; lean_ptr 1; NULL])]>
            (<[1%positive := mkCell 1 (LeanCtor 0 [])]> ∅))
          (fun _ => 170) NULL NULL 0 0.

(** A state with a scalar array of three bytes at address 1, with the given
    reference count. *)
Definition st_secret (rc : Z) : state :=
  mkState (<[1%positive := mkCell rc (LeanScalarArray 3 4 [1; 2; 3; 9])]> ∅)
          (fun _ => 170) NULL NULL 0 0.

(** A state with the byte array [de ad] at address 1, shared by two owners,
    and the string "/tmp" at address 2. *)
Definition st_args : state :=
  mkState (<[2%positive := mkCell 1 (LeanString 5 5 4 (c_str "/tmp" ++ [0]))]>
            (<[1%positive := mkCell 2 (LeanScalarArray 2 2 [0xDE; 0xAD])]> ∅))
          (fun _ => 170) NULL NULL 0 0.

(** A state with a record at address 1, owned once, inside an array at
    address 2, owned once, next to an immortal byte array at address 3. *)
Definition st_nested : state :=
  mkState (<[3%positive := mkCell 0 (LeanScalarArray 1 1 [7])]>
            (<[2%positive := mkCell 1 (LeanArray 2 2 [lean_ptr 1; lean_ptr 3])]>
              (<[1%positive := mkCell 1 (LeanCtor 0 [lean_box 5])]> ∅)))
          (fun _ => 170) NULL NULL 0 0.

(** A state with the byte array [1 2 3] in a buffer of four bytes at
    address 1, with the given count, and the byte array [9 8] at
    address 2. *)
Definition st_two_arrays (rc : Z) : state :=
  mkState (<[2%positive := mkCell 1 (LeanScalarArray 2 2 [9; 8])]>
            (<[1%positive := mkCell rc (LeanScalarArray 3 4 [1; 2; 3; 170])]> ∅))
          (fun _ => 170) NULL NULL 0 0.

(** A state with a record at address 1 and, at address 2, an array with
    the given count and capacity that holds the record and the scalar 7. *)
Definition st_pair_array (rc cap : Z) : state :=
  mkState (<[2%positive := mkCell rc (LeanArray 2 cap
                             ([lean_ptr 1; lean_box 7] ++
                              replicate (Z.to_nat (cap - 2)) NULL))]>
            (<[1%positive := mkCell 1 (LeanCtor 0 [])]> ∅))
          (fun _ => 170) NULL NULL 0 0.

(** A state with the list [7, 8]: its first cell at address 2, its second
    at address 1. *)
Definition st_list : state :=
  mkState (<[2%positive := mkCell 1 (LeanCtor 1 [lean_box 7; lean_ptr 1])]>
            (<[1%positive := mkCell 1 (LeanCtor 1 [lean_box 8; lean_box 0])]> ∅))
          (fun _ => 170) NULL NULL 0 0.

(* ################################################################## *)
(** * Theorems *)
(* ################################################################## *)

Lemma bind_ok {A B} (m : M A) (k : A → M B) st a st' :
  m st = Ok (a, st') → (x <- m ;; k x) st = k a st'.
Proof. intros H. unfold bind. by rewrite H. Qed.

Lemma for_each_one {A} (f : A → M unit) x st : for_each f [x] st = f x st.
Proof. simpl. unfold bind, ret. by destruct (f x st) as [[[] ?]| | |]. Qed.

(** *** Allocation *)

Lemma fresh_addr_bound (h : gmap positive lean_cell) k :
  is_Some (h !! k) → (k < fresh_addr h)%positive.
Proof.
  unfold fresh_addr.
  cut (∀ j, is_Some (h !! j) →
            (j ≤ map_fold (fun k _ acc => Pos.max k acc) 1 h)%positive).
  { intros Hcut Hk. specialize (Hcut k Hk). lia. }
  apply (map_fold_weak_ind
           (fun r (m : gmap positive lean_cell) =>
              ∀ j, is_Some (m !! j) → (j ≤ r)%positive)).
  - intros j [x Hx]. by rewrite lookup_empty in Hx.
  - intros i x m r Hi IH j Hj.
    destruct (decide (i = j)) as [->|Hne]; [lia|].
    rewrite lookup_insert_ne in Hj by done.
    specialize (IH j Hj). lia.
Qed.

Lemma fresh_addr_fresh (h : gmap positive lean_cell) : h !! fresh_addr h = None.
Proof.
  destruct (h !! fresh_addr h) eqn:E; [|done].
  assert (fresh_addr h < fresh_addr h)%positive by (apply fresh_addr_bound; eauto).
  lia.
Qed.

(** *** Release of a chain *)

Lemma lookup_foldr_delete (h : gmap positive lean_cell) addrs a :
  a ∉ addrs → foldr delete h addrs !! a = h !! a.
Proof.
  induction addrs as [|b addrs IH]; simpl; [done|].
  intros Hn. apply not_elem_of_cons in Hn as [Hab Hn].
  rewrite lookup_delete_ne by done. auto.
Qed.

Lemma chain_at_length h o ks addrs :
  chain_at h o ks addrs → length addrs = length ks.
Proof. induction 1; simpl; auto. Qed.

Lemma chain_at_live h o ks addrs a :
  chain_at h o ks addrs → a ∈ addrs → is_Some (h !! a).
Proof.
  induction 1 as [|b k child ks addrs Hb _ IH]; intros Ha.
  - by apply elem_of_nil in Ha.
  - apply elem_of_cons in Ha as [->|Ha]; eauto.
Qed.

Lemma chain_at_insert h o ks addrs a c :
  chain_at h o ks addrs → h !! a = None → chain_at (<[a := c]> h) o ks addrs.
Proof.
  induction 1 as [n|b k child ks addrs Hb _ IH]; intros Ha.
  - apply chain_nil.
  - apply chain_cons with child; auto.
    rewrite lookup_insert_ne; [done|]. intros ->. congruence.
Qed.

Lemma release_chain ks : ∀ fuel o addrs st,
  chain_at (heap st) o ks addrs → NoDup addrs →
  (length ks < fuel)%nat → (frames st ≤ peak_frames st)%nat →
  lean_dec_with (lean_dec_ref_cold fuel) o st =
    Ok (tt, mkState (foldr delete (heap st) addrs) (uninit st)
                    (l_Array_empty st) (l_ByteArray_empty st) (frames st)
                    (Nat.max (peak_frames st) (frames st + length ks))).
Proof.
  induction ks as [|k ks IH]; intros fuel o addrs st Hc Hnd Hfuel Hfr.
  - inversion Hc; subst; simpl. unfold ret. destruct st; simpl in *.
    do 2 f_equal. f_equal. lia.
  - inversion Hc as [|a k' child ks' addrs' Ha Hc']; subst.
    apply NoDup_cons in Hnd as [Hna Hnd].
    destruct fuel as [|fuel]; [simpl in Hfuel; lia|].
    simpl lean_dec_with. unfold lean_dec_ref_with at 1.
    rewrite (bind_ok _ _ st (mkCell 1 (owner_body k child)) st)
      by (unfold load; by rewrite Ha).
    simpl. 
    set (st1 := mkState (heap st) (uninit st) (l_Array_empty st)
                        (l_ByteArray_empty st) (S (frames st))
                        (Nat.max (peak_frames st) (S (frames st)))).
    assert (Hchild : lean_dec_with (lean_dec_ref_cold fuel) child st1 =
              Ok (tt, mkState (foldr delete (heap st) addrs') (uninit st)
                    (l_Array_empty st) (l_ByteArray_empty st) (S (frames st))
                    (Nat.max (Nat.max (peak_frames st) (S (frames st)))
                             (S (frames st) + length ks)))).
    { apply (IH fuel child addrs' st1); simpl; auto; simpl in Hfuel; lia. }
    assert (Hfree : ∀ u f p,
      lean_free_object a (mkState (foldr delete (heap st) addrs') u
         (l_Array_empty st) (l_ByteArray_empty st) f p) =
      Ok (tt, mkState (delete a (foldr delete (heap st) addrs')) u
         (l_Array_empty st) (l_ByteArray_empty st) f p)).
    { intros. unfold lean_free_object; simpl.
      by rewrite lookup_foldr_delete, Ha by done. }
    unfold bind at 1. unfold enter_frame. fold st1.
    unfold bind at 1. unfold load at 1. simpl heap. rewrite Ha. simpl.
    assert (Hbody :
      match owner_body k child with
      | LeanCtor _ m_objs | LeanClosure _ _ m_objs =>
          for_each (lean_dec_with (lean_dec_ref_cold fuel)) m_objs
      | LeanArray m_size _ m_data =>
          children <- slots m_size m_data;;
          for_each (lean_dec_with (lean_dec_ref_cold fuel)) children
      | LeanRef m_value =>
          match m_value with
          | NULL => ret tt
          | _ => lean_dec_with (lean_dec_ref_cold fuel) m_value
          end
      | _ => ret tt
      end st1 = lean_dec_with (lean_dec_ref_cold fuel) child st1).
    { destruct k; simpl.
      - apply for_each_one.
      - apply for_each_one.
      - unfold bind at 1. simpl. apply for_each_one.
      - by destruct child. }
    unfold bind at 1. unfold bind at 1. rewrite Hbody, Hchild.
    rewrite Hfree. unfold leave_frame. simpl.
    do 3 f_equal. lia.
Qed.

Lemma delete_foldr_delete (h : gmap positive lean_cell) addrs a :
  delete a (foldr delete h addrs) = foldr delete (delete a h) addrs.
Proof.
  induction addrs as [|b addrs IH]; simpl; [done|].
  by rewrite (delete_delete _ a b), IH.
Qed.

Lemma live_addrs_size (h : gmap positive lean_cell) addrs :
  NoDup addrs → (∀ a, a ∈ addrs → is_Some (h !! a)) →
  (length addrs ≤ size h)%nat.
Proof.
  intros Hnd Hlive.
  rewrite <- (size_list_to_set (C := gset positive) addrs) by done.
  rewrite <- (size_dom (D := gset positive) h).
  apply subseteq_size. intros a Ha.
  apply elem_of_list_to_set in Ha. apply elem_of_dom. auto.
Qed.

Lemma build_chain_spec ks : ∀ st, ∃ o addrs h',
  build_chain ks st = Ok (o, upd_heap (fun _ => h') st) ∧
  chain_at h' o ks addrs ∧ NoDup addrs ∧
  foldr delete h' addrs = heap st.
Proof.
  induction ks as [|k ks IH]; intros st.
  - exists (lean_box 0), [], (heap st). simpl. split_and!; try done.
    + by destruct st.
    + constructor.
    + constructor.
  - destruct (IH st) as (child & addrs & h1 & Hb & Hc & Hnd & Hdel).
    set (a := fresh_addr h1).
    assert (Hfresh : h1 !! a = None) by apply fresh_addr_fresh.
    assert (Hna : a ∉ addrs).
    { intros Ha. destruct (chain_at_live _ _ _ _ a Hc Ha) as [c Hc1]. congruence. }
    exists (lean_ptr a), (a :: addrs), (<[a := mkCell 1 (owner_body k child)]> h1).
    split_and!.
    + simpl. rewrite (bind_ok _ _ _ _ _ Hb). done.
    + apply chain_cons with child; [apply lookup_insert_eq|].
      by apply chain_at_insert.
    + by constructor.
    + simpl. rewrite delete_foldr_delete, delete_insert_id by done. done.
Qed.

(** Building a chain of any depth and releasing it gives every cell back
    and stacks one activation of [lean_dec_ref_cold] per level. *)
Lemma build_release_chain ks st :
  (frames st ≤ peak_frames st)%nat →
  (o <- build_chain ks ;; lean_dec o) st =
    Ok (tt, mkState (heap st) (uninit st) (l_Array_empty st) (l_ByteArray_empty st)
                    (frames st) (Nat.max (peak_frames st) (frames st + length ks))).
Proof.
  intros Hfr.
  destruct (build_chain_spec ks st) as (o & addrs & h' & Hb & Hc & Hnd & Hdel).
  rewrite (bind_ok _ _ _ _ _ Hb). unfold lean_dec.
  rewrite (release_chain ks _ o addrs); simpl; auto.
  - by rewrite Hdel.
  - rewrite <- (chain_at_length _ _ _ _ Hc).
    apply Nat.lt_succ_r, live_addrs_size; [done|].
    intros a Ha. eapply chain_at_live; eauto.
Qed.

Lemma release_peak_eq n : release_peak n = Some n.
Proof.
  unfold release_peak.
  rewrite build_release_chain by (simpl; lia).
  simpl. by rewrite length_replicate.
Qed.

(** C1 (as the code has it).  For every object [o] that heads a chain of
    [N = length ks] exclusively owned cells — records, closures, arrays and
    mutable cells in any mix — [lean_dec o] returns, every cell of the chain
    has been freed and nothing else in the heap has changed; the release is
    by direct recursion, and the number of nested activations of
    [lean_dec_ref_cold] reaches [N] above its level on entry. *)
Theorem lean_dec_chain_depth (st : state) (o : lean_obj) (ks : list owner)
    (addrs : list positive) :
  chain_at (heap st) o ks addrs →
  NoDup addrs →
  (frames st ≤ peak_frames st)%nat →
  ∃ st', lean_dec o st = Ok (tt, st') ∧
         heap st' = foldr delete (heap st) addrs ∧
         (∀ a, a ∈ addrs → heap st' !! a = None) ∧
         (∀ a, a ∉ addrs → heap st' !! a = heap st !! a) ∧
         frames st' = frames st ∧
         peak_frames st' = Nat.max (peak_frames st) (frames st + length ks).
Proof.
  intros Hc Hnd Hfr. eexists. split.
  - unfold lean_dec. apply (release_chain ks _ o addrs); auto.
    rewrite <- (chain_at_length _ _ _ _ Hc).
    apply Nat.lt_succ_r, live_addrs_size; [done|].
    intros a Ha. eapply chain_at_live; eauto.
  - simpl. split_and!; try done.
    + intros a Ha. clear -Ha. induction addrs as [|b addrs IH]; simpl.
      * by apply elem_of_nil in Ha.
      * destruct (decide (b = a)) as [->|Hne]; [apply lookup_delete_eq|].
        rewrite lookup_delete_ne by done.
        apply elem_of_cons in Ha as [->|Ha]; [done|auto].
    + intros a Ha. by apply lookup_foldr_delete.
Qed.

(** A chain of three owners of different kinds, released in a state where
    two activations are already on the stack. *)
Lemma lean_dec_chain_depth_witness :
  ∃ st', lean_dec (lean_ptr 3)
           (mkState (<[3%positive := mkCell 1 (LeanRef (lean_ptr 2))]>
                     (<[2%positive := mkCell 1 (LeanArray 1 1 [lean_ptr 1])]>
                      (<[1%positive := mkCell 1 (LeanCtor 1 [lean_box 0])]> ∅)))
                    (fun _ => 0) NULL NULL 2 2) = Ok (tt, st') ∧
         heap st' = ∅ ∧ frames st' = 2%nat ∧ peak_frames st' = 5%nat.
Proof.
  destruct (lean_dec_chain_depth
    (mkState (<[3%positive := mkCell 1 (LeanRef (lean_ptr 2))]>
               (<[2%positive := mkCell 1 (LeanArray 1 1 [lean_ptr 1])]>
                (<[1%positive := mkCell 1 (LeanCtor 1 [lean_box 0])]> ∅)))
             (fun _ => 0) NULL NULL 2 2)
    (lean_ptr 3) [InRef; InArray; InCtor 1] [3; 2; 1]%positive)
    as (st' & Hrun & Hheap & _ & _ & Hfr & Hpeak).
  - apply chain_cons with (lean_ptr 2); [reflexivity|].
    apply chain_cons with (lean_ptr 1); [reflexivity|].
    apply chain_cons with (lean_box 0); [reflexivity|].
    apply chain_nil.
  - apply (bool_decide_unpack (NoDup [3; 2; 1]%positive)). vm_compute. exact I.
  - simpl. lia.
  - exists st'. by split_and!.
Defined.

(** C1 (as stated) fails.  Releasing a chain of 100000 nested records stacks
    100000 activations of [lean_dec_ref_cold], and no constant bounds the
    depth over all chain lengths: the code recurses, one native frame per
    level, and keeps no work list. *)
Lemma release_depth_not_bounded :
  release_peak (Z.to_nat 100000) = Some (Z.to_nat 100000) ∧
  ¬ ∃ K : nat, ∀ n d, release_peak n = Some d → (d ≤ K)%nat.
Proof.
  split; [apply release_peak_eq|].
  intros [K HK]. specialize (HK (S K) (S K) (release_peak_eq (S K))). lia.
Qed.

(** *** Running the primitives *)

Lemma length_uninit n (u : nat → Z) : length (map u (seq 0 n)) = n.
Proof. by rewrite length_map, length_seq. Qed.

Lemma lean_to_sarray_run st a rc sz cap data :
  heap st !! a = Some (mkCell rc (LeanScalarArray sz cap data)) →
  lean_to_sarray (lean_ptr a) st = Ok ((sz, cap, data), st).
Proof. intros H. unfold lean_to_sarray, bind, load. by rewrite H. Qed.

Lemma lean_to_array_run st a rc sz cap data :
  heap st !! a = Some (mkCell rc (LeanArray sz cap data)) →
  lean_to_array (lean_ptr a) st = Ok ((sz, cap, data), st).
Proof. intros H. unfold lean_to_array, bind, load. by rewrite H. Qed.

Lemma lean_to_string_run st a rc sz cap len data :
  heap st !! a = Some (mkCell rc (LeanString sz cap len data)) →
  lean_to_string (lean_ptr a) st = Ok ((sz, cap, len, data), st).
Proof. intros H. unfold lean_to_string, bind, load. by rewrite H. Qed.

Lemma set_body_run st a c body :
  heap st !! a = Some c →
  set_body (lean_ptr a) body st = Ok (tt, upd_heap <[a := mkCell (m_rc c) body]> st).
Proof. intros H. unfold set_body, bind, load, store. by rewrite H, H. Qed.

Lemma bytes_at_run st data off n :
  0 ≤ off → 0 ≤ n → off + n ≤ Z.of_nat (length data) →
  bytes_at data off n st = Ok (take (Z.to_nat n) (drop (Z.to_nat off) data), st).
Proof.
  intros. unfold bytes_at.
  destruct (Z.leb_spec 0 off); [|lia]. destruct (Z.leb_spec 0 n); [|lia].
  destruct (Z.leb_spec (off + n) (Z.of_nat (length data))); [|lia]. done.
Qed.

Lemma write_bytes_run st data off src :
  0 ≤ off → off + Z.of_nat (length src) ≤ Z.of_nat (length data) →
  write_bytes data off src st =
    Ok (take (Z.to_nat off) data ++ src ++ drop (Z.to_nat off + length src) data, st).
Proof.
  intros. unfold write_bytes.
  destruct (Z.leb_spec 0 off); [|lia].
  destruct (Z.leb_spec (off + Z.of_nat (length src)) (Z.of_nat (length data))); [|lia].
  done.
Qed.

Lemma upd_heap_upd_heap f g st : upd_heap f (upd_heap g st) = upd_heap (f ∘ g) st.
Proof. done. Qed.

(** One step of a sequence whose first operation is known to succeed. *)
Ltac run_with lem := erewrite bind_ok; [|lem]; cbv beta iota.

(** *** Extraction from byte arrays *)

Lemma l_ByteArray_extract_run st a rc sz cap data start stop :
  heap st !! a = Some (mkCell rc (LeanScalarArray sz cap data)) →
  0 ≤ sz ≤ Z.of_nat (length data) → 0 ≤ start → 0 ≤ stop →
  let s := Z.min start sz in
  let e := Z.min stop sz in
  let r := fresh_addr (heap st) in
  l_ByteArray_extract (lean_ptr a) (lean_box start) (lean_box stop) st =
    Ok (lean_ptr r,
        upd_heap <[r := mkCell 1 (LeanScalarArray (Z.max 0 (e - s)) (Z.max 0 (e - s))
                            (take (Z.to_nat (e - s)) (drop (Z.to_nat s) data)))]> st).
Proof.
  intros Ha Hsz Hs He s e r.
  unfold l_ByteArray_extract.
  run_with ltac:(by eapply lean_to_sarray_run). simpl.
  replace (if sz <? start then sz else start) with s
    by (subst s; destruct (Z.ltb_spec sz start); lia).
  replace (if sz <? stop then sz else stop) with e
    by (subst e; destruct (Z.ltb_spec sz stop); lia).
  destruct (Z.leb_spec e s) as [Hle|Hlt].
  - unfold lean_alloc_sarray, bind, uninit_bytes, lean_alloc_object. simpl.
    replace (Z.max 0 (e - s)) with 0 by lia.
    replace (Z.to_nat (e - s)) with 0%nat by lia. done.
  - run_with ltac:(reflexivity). fold r.
    run_with ltac:(apply bytes_at_run; lia).
    run_with ltac:(eapply lean_to_sarray_run; simpl; apply lookup_insert_eq).
    simpl.
    run_with ltac:(apply write_bytes_run; [lia|]).
    2:{ rewrite length_uninit, length_take, length_drop. lia. }
    run_with ltac:(eapply set_body_run; simpl; apply lookup_insert_eq).
    unfold ret. rewrite upd_heap_upd_heap. simpl.
    unfold upd_heap. simpl. do 3 f_equal.
    rewrite insert_insert_eq. do 2 f_equal.
    replace (Z.max 0 (e - s)) with (e - s) by lia. f_equal.
    rewrite (drop_ge (map _ _)); [by rewrite app_nil_r|].
    rewrite length_uninit, length_take, length_drop. lia.
Qed.

(** *** Retaining references *)

Lemma retained_retained j k c : retained j (retained k c) = retained (k + j) c.
Proof.
  unfold retained, set_rc. destruct (Z.ltb_spec 0 (m_rc c)); simpl.
  - destruct (Z.ltb_spec 0 (m_rc c + Z.of_nat k)); [|lia].
    f_equal. lia.
  - destruct (Z.ltb_spec 0 (m_rc c)); [lia|done].
Qed.

Lemma retained_0 c : retained 0 c = c.
Proof.
  unfold retained, set_rc. destruct (0 <? m_rc c); [|done].
  destruct c; simpl. f_equal. lia.
Qed.

Lemma retained_body k c : m_body (retained k c) = m_body c.
Proof. unfold retained. by destruct (0 <? m_rc c). Qed.

Lemma retain_lookup x h p :
  retain x h !! p =
    if decide (x = lean_ptr p) then retained 1 <$> h !! p else h !! p.
Proof.
  destruct x as [|n|q]; simpl; try done.
  destruct (decide (lean_ptr q = lean_ptr p)) as [[= ->]|Hne].
  - destruct (h !! p) as [c|] eqn:E; simpl; [|by rewrite E].
    unfold retained. destruct (0 <? m_rc c); [by rewrite lookup_insert_eq|].
    by rewrite E.
  - assert (q ≠ p) by congruence.
    destruct (h !! q) as [c|]; [|done].
    destruct (0 <? m_rc c); [by rewrite lookup_insert_ne|done].
Qed.

Lemma retain_all_lookup xs : ∀ h p,
  retain_all xs h !! p = retained (occurrences p xs) <$> h !! p.
Proof.
  unfold retain_all, occurrences.
  induction xs as [|x xs IH]; intros h p; simpl.
  - destruct (h !! p); simpl; [by rewrite retained_0|done].
  - rewrite IH, retain_lookup.
    destruct (lean_obj_eq_dec x (lean_ptr p)) as [->|Hne].
    + rewrite decide_True by done.
      destruct (h !! p); simpl; [|done]. by rewrite retained_retained.
    + by rewrite decide_False.
Qed.

Lemma retain_insert_fresh x h r c :
  valid_ref h x → h !! r = None → retain x (<[r := c]> h) = <[r := c]> (retain x h).
Proof.
  intros Hv Hr. apply map_eq. intros p.
  rewrite retain_lookup.
  destruct (decide (r = p)) as [->|Hne].
  - rewrite !lookup_insert_eq. rewrite decide_False; [done|].
    intros ->. destruct Hv as (c' & Hc' & _). congruence.
  - rewrite !lookup_insert_ne by done. by rewrite retain_lookup.
Qed.

Lemma retain_valid x y h : valid_ref h y → valid_ref (retain x h) y.
Proof.
  destruct y as [|n|p]; simpl; [done|done|].
  intros (c & Hc & Hrc). rewrite retain_lookup, Hc.
  destruct (decide _); simpl; [|eauto].
  eexists; split; [done|]. unfold retained, set_rc.
  destruct (Z.ltb_spec 0 (m_rc c)); simpl; lia.
Qed.

Lemma lean_inc_run st x :
  valid_ref (heap st) x → lean_inc x st = Ok (tt, upd_heap (retain x) st).
Proof.
  destruct x as [|n|p]; simpl; [done| |].
  - intros _. by destruct st.
  - intros (c & Hc & Hrc). unfold bind, load, store, upd_heap, retain.
    rewrite Hc.
    destruct (Z.ltb_spec 0 (m_rc c)); [by rewrite Hc|].
    destruct (Z.eqb_spec (m_rc c) 0); [|lia]. by destruct st.
Qed.

Lemma index_run {A} st (l : list A) i x :
  0 ≤ i → l !! Z.to_nat i = Some x → index l i st = Ok (x, st).
Proof.
  intros Hi Hx. unfold index. destruct (Z.leb_spec 0 i); [|lia]. by rewrite Hx.
Qed.

(** *** Extraction from object arrays *)

Lemma valid_ref_insert_fresh h x r c :
  valid_ref h x → h !! r = None → valid_ref (<[r := c]> h) x.
Proof.
  destruct x as [|n|p]; simpl; [done|done|].
  intros (c' & Hc' & Hrc) Hr. exists c'. split; [|done].
  rewrite lookup_insert_ne; [done|]. intros ->. congruence.
Qed.

Lemma extract_body_run a r s len sz cap data n pre hbase st rca x :
  heap st = <[r := mkCell 1 (LeanArray len len (pre ++ replicate (S n) NULL))]> hbase →
  hbase !! r = None →
  hbase !! a = Some (mkCell rca (LeanArray sz cap data)) →
  0 ≤ s →
  data !! (Z.to_nat s + length pre)%nat = Some x →
  valid_ref hbase x →
  extract_body (lean_ptr a) (lean_ptr r) s (Z.of_nat (length pre)) st =
    Ok (tt, upd_heap (fun _ =>
          <[r := mkCell 1 (LeanArray len len ((pre ++ [x]) ++ replicate n NULL))]>
            (retain x hbase)) st).
Proof.
  intros Hst Hr Ha Hs Hx Hvx.
  assert (Har : a ≠ r) by (intros ->; congruence).
  unfold extract_body.
  run_with ltac:(eapply lean_to_array_run; rewrite Hst, lookup_insert_ne by done; exact Ha).
  run_with ltac:(apply index_run; [lia|]).
  2:{ replace (Z.to_nat (s + Z.of_nat (length pre)))
        with (Z.to_nat s + length pre)%nat by lia. exact Hx. }
  run_with ltac:(apply lean_inc_run; rewrite Hst; by apply valid_ref_insert_fresh).
  assert (Hst2 : heap (upd_heap (retain x) st) =
            <[r := mkCell 1 (LeanArray len len (pre ++ replicate (S n) NULL))]>
              (retain x hbase)).
  { simpl. rewrite Hst. by apply retain_insert_fresh. }
  run_with ltac:(eapply lean_to_array_run; rewrite Hst2; apply lookup_insert_eq).
  run_with ltac:(apply index_run; [lia|]).
  2:{ rewrite Nat2Z.id, lookup_app_r by lia. by rewrite Nat.sub_diag. }
  erewrite set_body_run by (rewrite Hst2; apply lookup_insert_eq).
  simpl m_rc. rewrite upd_heap_upd_heap. unfold upd_heap. simpl.
  do 3 f_equal. rewrite Hst.
  rewrite retain_insert_fresh by done.
  rewrite insert_insert_eq. do 3 f_equal.
  rewrite Nat2Z.id.
  replace (length pre) with (length pre + 0)%nat at 1 by lia.
  rewrite insert_app_r. simpl. by rewrite <- app_assoc.
Qed.

Lemma extract_loop a r s len sz cap data : ∀ n pre hbase st rca,
  heap st = <[r := mkCell 1 (LeanArray len len (pre ++ replicate n NULL))]> hbase →
  hbase !! r = None →
  hbase !! a = Some (mkCell rca (LeanArray sz cap data)) →
  0 ≤ s →
  (Z.to_nat s + length pre + n ≤ length data)%nat →
  Forall (valid_ref hbase) (take n (drop (Z.to_nat s + length pre) data)) →
  for_loop n (Z.of_nat (length pre)) (extract_body (lean_ptr a) (lean_ptr r) s) st =
    Ok (tt, upd_heap (fun _ =>
          <[r := mkCell 1 (LeanArray len len
                   (pre ++ take n (drop (Z.to_nat s + length pre) data)))]>
            (retain_all (take n (drop (Z.to_nat s + length pre) data)) hbase)) st).
Proof.
  induction n as [|n IH]; intros pre hbase st rca Hst Hr Ha Hs Hlen Hval.
  - simpl. unfold ret. destruct st; simpl in *. subst. done.
  - destruct (lookup_lt_is_Some_2 data (Z.to_nat s + length pre)) as [x Hx]; [lia|].
    rewrite (drop_S _ _ _ Hx) in Hval |- *. simpl take in Hval |- *.
    apply Forall_cons in Hval as [Hvx Hval].
    simpl for_loop.
    run_with ltac:(by eapply extract_body_run).
    assert (Hra : ∃ rca', retain x hbase !! a = Some (mkCell rca' (LeanArray sz cap data))).
    { rewrite retain_lookup, Ha. destruct (decide _); simpl; [|eauto].
      exists (m_rc (retained 1 (mkCell rca (LeanArray sz cap data)))).
      f_equal. destruct (retained 1 _) as [rc' b'] eqn:E. simpl.
      f_equal. change b' with (m_body (mkCell rc' b')). by rewrite <- E, retained_body. }
    destruct Hra as [rca' Hra].
    replace (Z.of_nat (length pre) + 1) with (Z.of_nat (length (pre ++ [x])))
      by (rewrite length_app; simpl; lia).
    rewrite (IH (pre ++ [x]) (retain x hbase) _ rca').
    + rewrite upd_heap_upd_heap. unfold upd_heap. simpl.
      rewrite length_app. simpl length.
      replace (Z.to_nat s + (length pre + 1))%nat
        with (S (Z.to_nat s + length pre)) by lia.
      by rewrite <- !app_assoc.
    + done.
    + rewrite retain_lookup, Hr. by destruct (decide _).
    + exact Hra.
    + done.
    + rewrite length_app. simpl. lia.
    + rewrite length_app. simpl length.
      replace (Z.to_nat s + (length pre + 1))%nat
        with (S (Z.to_nat s + length pre)) by lia.
      eapply Forall_impl; [exact Hval|]. intros y. apply retain_valid.
Qed.

Lemma l_Array_extract_run st a rc sz cap data start stop :
  heap st !! a = Some (mkCell rc (LeanArray sz cap data)) →
  0 ≤ sz ≤ Z.of_nat (length data) → 0 ≤ start → 0 ≤ stop →
  let s := Z.min start sz in
  let e := Z.min stop sz in
  let r := fresh_addr (heap st) in
  let xs := take (Z.to_nat (e - s)) (drop (Z.to_nat s) data) in
  Forall (valid_ref (heap st)) xs →
  l_Array_extract___redArg (lean_ptr a) (lean_box start) (lean_box stop) st =
    Ok (lean_ptr r,
        upd_heap (fun h => <[r := mkCell 1 (LeanArray (Z.max 0 (e - s)) (Z.max 0 (e - s)) xs)]>
                             (retain_all xs h)) st).
Proof.
  intros Ha Hsz Hs He s e r xs Hval.
  assert (Hr : heap st !! r = None) by apply fresh_addr_fresh.
  unfold l_Array_extract___redArg.
  run_with ltac:(by eapply lean_to_array_run). cbv beta iota zeta delta [lean_unbox].
  replace (if sz <? start then sz else start) with s
    by (subst s; destruct (Z.ltb_spec sz start); lia).
  replace (if sz <? stop then sz else stop) with e
    by (subst e; destruct (Z.ltb_spec sz stop); lia).
  destruct (Z.leb_spec e s) as [Hle|Hlt].
  - unfold lean_alloc_array, lean_alloc_object. fold r. subst xs.
    replace (Z.max 0 (e - s)) with 0 by lia.
    replace (Z.to_nat (e - s)) with 0%nat by lia. done.
  - run_with ltac:(reflexivity). fold r.
    run_with ltac:(eapply lean_to_array_run; simpl; apply lookup_insert_eq).
    run_with ltac:(eapply set_body_run; simpl; apply lookup_insert_eq).
    rewrite upd_heap_upd_heap.
    change (for_loop (Z.to_nat (e - s)) 0 _)
      with (for_loop (Z.to_nat (e - s)) (Z.of_nat (length (@nil lean_obj)))
              (extract_body (lean_ptr a) (lean_ptr r) s)).
    run_with ltac:(eapply (extract_loop a r s (e - s) sz cap data _ [] (heap st) _ rc)).
    + unfold ret. rewrite upd_heap_upd_heap. unfold upd_heap. simpl.
      rewrite Nat.add_0_r. fold xs.
      by replace (Z.max 0 (e - s)) with (e - s) by lia.
    + simpl. by rewrite insert_insert_eq.
    + done.
    + done.
    + lia.
    + simpl. lia.
    + simpl. by rewrite Nat.add_0_r.
Qed.

Lemma sub_range_lookup {A} (data : list A) s n k :
  (k < length (take n (drop s data)))%nat →
  take n (drop s data) !! k = data !! (s + k)%nat.
Proof.
  rewrite length_take. intros Hk.
  rewrite lookup_take_lt by lia. apply lookup_drop.
Qed.

Lemma sub_range_length {A} (data : list A) sz s e :
  0 ≤ sz ≤ Z.of_nat (length data) → 0 ≤ s ≤ sz → 0 ≤ e ≤ sz →
  Z.of_nat (length (take (Z.to_nat (e - s)) (drop (Z.to_nat s) data))) = Z.max 0 (e - s).
Proof. intros. rewrite length_take, length_drop. lia. Qed.

(** C3 (as the code has it).  [extract] clamps both bounds to the length
    [n].  The result is always a freshly allocated container with reference
    count 1 — also when the clamped range is empty, where it has length and
    capacity 0 and is not the canonical immortal empty object.  Its length is
    [max 0 (min stop n − min start n)], its element [k] is the element
    [min start n + k] of the source, and for an object array every live,
    non-immortal object gains one reference per occurrence in the range. *)
Theorem extract_clamped_range :
  (∀ st a rc sz cap (data : list Z) start stop,
     heap st !! a = Some (mkCell rc (LeanScalarArray sz cap data)) →
     0 ≤ sz ≤ Z.of_nat (length data) → 0 ≤ start → 0 ≤ stop →
     ∃ r st' bytes,
       l_ByteArray_extract (lean_ptr a) (lean_box start) (lean_box stop) st
         = Ok (lean_ptr r, st') ∧
       heap st !! r = None ∧
       l_ByteArray_empty st' = l_ByteArray_empty st ∧
       heap st' = <[r := mkCell 1 (LeanScalarArray (Z.of_nat (length bytes))
                                      (Z.of_nat (length bytes)) bytes)]> (heap st) ∧
       Z.of_nat (length bytes) = Z.max 0 (Z.min stop sz - Z.min start sz) ∧
       (∀ k, (k < length bytes)%nat →
             bytes !! k = data !! (Z.to_nat (Z.min start sz) + k)%nat))
  ∧
  (∀ st a rc sz cap (data : list lean_obj) start stop,
     heap st !! a = Some (mkCell rc (LeanArray sz cap data)) →
     0 ≤ sz ≤ Z.of_nat (length data) → 0 ≤ start → 0 ≤ stop →
     Forall (valid_ref (heap st)) (take (Z.to_nat sz) data) →
     ∃ r st' xs,
       l_Array_extract___redArg (lean_ptr a) (lean_box start) (lean_box stop) st
         = Ok (lean_ptr r, st') ∧
       heap st !! r = None ∧
       l_Array_empty st' = l_Array_empty st ∧
       heap st' !! r = Some (mkCell 1 (LeanArray (Z.of_nat (length xs))
                                         (Z.of_nat (length xs)) xs)) ∧
       Z.of_nat (length xs) = Z.max 0 (Z.min stop sz - Z.min start sz) ∧
       (∀ k, (k < length xs)%nat →
             xs !! k = data !! (Z.to_nat (Z.min start sz) + k)%nat) ∧
       (∀ p, p ≠ r →
             heap st' !! p = retained (occurrences p xs) <$> heap st !! p)).
Proof.
  split.
  - intros st a rc sz cap data start stop Ha Hsz Hs He.
    set (s := Z.min start sz). set (e := Z.min stop sz).
    exists (fresh_addr (heap st)). eexists.
    exists (take (Z.to_nat (e - s)) (drop (Z.to_nat s) data)).
    assert (Hlen := sub_range_length data sz s e Hsz ltac:(lia) ltac:(lia)).
    split_and!.
    + rewrite (l_ByteArray_extract_run st a rc sz cap data) by done.
      fold s e. by rewrite <- Hlen.
    + apply fresh_addr_fresh.
    + done.
    + done.
    + done.
    + intros k Hk. by apply sub_range_lookup.
  - intros st a rc sz cap data start stop Ha Hsz Hs He Hval.
    set (s := Z.min start sz). set (e := Z.min stop sz).
    set (xs := take (Z.to_nat (e - s)) (drop (Z.to_nat s) data)).
    assert (Hlen := sub_range_length data sz s e Hsz ltac:(lia) ltac:(lia)).
    assert (Hr := fresh_addr_fresh (heap st)).
    exists (fresh_addr (heap st)). eexists. exists xs.
    split_and!.
    + rewrite (l_Array_extract_run st a rc sz cap data start stop Ha Hsz Hs He).
      * fold s e xs. fold xs in Hlen. rewrite <- Hlen. reflexivity.
      * fold s e xs. apply Forall_forall. intros x Hx.
        rewrite Forall_forall in Hval. apply Hval.
        apply list_elem_of_lookup in Hx as [k Hk].
        apply lookup_take_Some in Hk as [Hk Hkn].
        rewrite lookup_drop in Hk.
        apply list_elem_of_lookup. exists (Z.to_nat s + k)%nat.
        apply lookup_take_Some. split; [done|]. lia.
    + done.
    + done.
    + simpl. apply lookup_insert_eq.
    + done.
    + intros k Hk. by apply sub_range_lookup.
    + intros p Hp. simpl. rewrite lookup_insert_ne by done.
      apply retain_all_lookup.
Qed.

(** [extract] of bytes 1..3 of a three-byte array, and of elements 0..9
    (clamped to 0..3) of an array that holds the same record twice. *)
Lemma extract_clamped_range_witness :
  (∃ r st' bytes,
     l_ByteArray_extract (lean_ptr 4) (lean_box 1) (lean_box 3) st_bytes
       = Ok (lean_ptr r, st') ∧
     Z.of_nat (length bytes) = 2 ∧
     heap st' !! r = Some (mkCell 1 (LeanScalarArray (Z.of_nat (length bytes))
                                       (Z.of_nat (length bytes)) bytes)) ∧
     bytes !! 0%nat = Some 65)
  ∧
  (∃ r st' xs,
     l_Array_extract___redArg (lean_ptr 3) (lean_box 0) (lean_box 9) st_array
       = Ok (lean_ptr r, st') ∧
     Z.of_nat (length xs) = 3 ∧
     heap st' !! 1%positive = Some (mkCell (1 + Z.of_nat (occurrences 1 xs)) (LeanCtor 0 []))).
Proof.
  split.
  - destruct (proj1 extract_clamped_range st_bytes 4%positive 1 3 3 [65; 65; 65] 1 3)
      as (r & st' & bytes & Hrun & Hr & _ & Hheap & Hlen & Helem).
    + reflexivity.
    + simpl. lia.
    + lia.
    + lia.
    + exists r, st', bytes. split_and!.
      * exact Hrun.
      * rewrite Hlen. reflexivity.
      * rewrite Hheap. apply lookup_insert_eq.
      * rewrite Helem by lia. reflexivity.
  - destruct (proj2 extract_clamped_range st_array 3%positive 1 3 4
                [lean_ptr 1; lean_box 7; lean_ptr 1; NULL] 0 9)
      as (r & st' & xs & Hrun & Hr & _ & Hcell & Hlen & Helem & Hrc).
    + reflexivity.
    + simpl. lia.
    + lia.
    + lia.
    + simpl. repeat constructor; simpl; eexists; (split; [reflexivity|simpl; lia]).
    + exists r, st', xs. split_and!.
      * exact Hrun.
      * rewrite Hlen. reflexivity.
      * rewrite Hrc by (intros <-; discriminate Hr). reflexivity.
Defined.

(** C3 (as stated) fails on the empty range.  After start-up, extracting the
    range [2, 1) of a three-byte array, or [5, 3) of a one-element array,
    returns a newly allocated object, not the canonical empty byte array or
    empty array that [init_wasm_globals] created. *)
Lemma extract_empty_not_canonical :
  (∃ r st',
     (a <- three_bytes ;; l_ByteArray_extract a (lean_box 2) (lean_box 1)) initial_state
       = Ok (r, st') ∧
     l_ByteArray_empty st' = lean_ptr 3 ∧ r = lean_ptr 5 ∧
     r ≠ l_ByteArray_empty st')
  ∧
  (∃ r st',
     (a <- one_array ;; l_Array_extract___redArg a (lean_box 5) (lean_box 3)) initial_state
       = Ok (r, st') ∧
     l_Array_empty st' = lean_ptr 2 ∧ r = lean_ptr 5 ∧
     r ≠ l_Array_empty st').
Proof.
  split; eexists _, _; (split; [vm_compute; reflexivity|]); by split_and!.
Qed.

(** *** Releasing a cell without children *)

Lemma lean_dec_childless st a c :
  heap st !! a = Some c → childless (m_body c) →
  ∃ st', lean_dec (lean_ptr a) st = Ok (tt, st') ∧
         (∀ p, p ≠ a → heap st' !! p = heap st !! p) ∧
         heap st' !! a =
           (if 1 <? m_rc c then Some (set_rc (m_rc c - 1) c)
            else if m_rc c =? 1 then None else Some c) ∧
         uninit st' = uninit st ∧
         l_Array_empty st' = l_Array_empty st ∧
         l_ByteArray_empty st' = l_ByteArray_empty st.
Proof.
  intros Ha Hleaf. unfold lean_dec. simpl. unfold lean_dec_ref_with.
  unfold bind at 1, load at 1. rewrite Ha.
  destruct (Z.ltb_spec 1 (m_rc c)) as [Hgt|Hle].
  { unfold store. rewrite Ha. eexists. split; [done|]. simpl.
    split_and!; try done.
    - intros p Hp. by rewrite lookup_insert_ne.
    - apply lookup_insert_eq. }
  destruct (Z.eqb_spec (m_rc c) 0) as [H0|Hn0].
  { eexists. split; [done|]. split_and!; try done.
    rewrite Ha. destruct (Z.eqb_spec (m_rc c) 1); [lia|done]. }
  unfold bind at 1, enter_frame. unfold bind at 1, load at 1. simpl heap. rewrite Ha.
  destruct (Z.eqb_spec (m_rc c) 1) as [H1|Hn1].
  - assert (Hbody : ∀ (f : lean_obj → M unit) st0,
      match m_body c with
      | LeanCtor _ m_objs | LeanClosure _ _ m_objs => for_each f m_objs
      | LeanArray m_size _ m_data => children <- slots m_size m_data;; for_each f children
      | LeanRef m_value => match m_value with NULL => ret tt | _ => f m_value end
      | _ => ret tt
      end st0 = Ok (tt, st0)).
    { intros f st0. by destruct (m_body c). }
    unfold bind at 1. unfold bind at 1. rewrite Hbody.
    unfold lean_free_object. simpl heap. rewrite Ha.
    unfold leave_frame. eexists. split; [done|]. simpl.
    split_and!; try done.
    + intros p Hp. by rewrite lookup_delete_ne.
    + apply lookup_delete_eq.
  - unfold bind at 1, ret, leave_frame. eexists. split; [done|]. simpl.
    by split_and!.
Qed.

(** *** Writing into a buffer *)

Lemma write_bytes_splice st data off src :
  0 ≤ off → off + Z.of_nat (length src) ≤ Z.of_nat (length data) →
  write_bytes data off src st = Ok (splice data (Z.to_nat off) src, st).
Proof. intros. by rewrite write_bytes_run. Qed.

Lemma length_splice data off src :
  (off + length src ≤ length data)%nat → length (splice data off src) = length data.
Proof.
  intros. unfold splice. rewrite !length_app, length_take, length_drop. lia.
Qed.

Lemma take_splice data off src :
  (off ≤ length data)%nat →
  take (off + length src) (splice data off src) = take off data ++ src.
Proof.
  intros. unfold splice. rewrite app_assoc.
  rewrite take_app_length'; [done|].
  rewrite length_app, length_take. lia.
Qed.



Lemma size_t_small x : 0 ≤ x < 2 ^ 32 → size_t x = x.
Proof. intros. unfold size_t. by apply Z.mod_small. Qed.

(** *** Pushing a codepoint *)


(** *** String literals *)

Lemma strlen_ascii s : Forall (fun b => 0 < b < 128) s → strlen s = Z.of_nat (length s).
Proof.
  induction 1 as [|b s Hb _ IH]; simpl strlen; [done|].
  destruct (Z.eqb_spec b 0); [lia|]. rewrite IH. simpl length. lia.
Qed.

Lemma lean_utf8_strlen_ascii s : ∀ fuel st,
  Forall (fun b => 0 < b < 128) s → (length s < fuel)%nat →
  Z.of_nat (length s) < 2 ^ 32 →
  lean_utf8_strlen_loop fuel s st = Ok (Z.of_nat (length s), st).
Proof.
  induction s as [|b s IH]; intros fuel st Hs Hfuel Hlen;
    (destruct fuel as [|fuel]; [simpl in Hfuel; lia|]); [done|].
  apply Forall_cons in Hs as [Hb Hs]. simpl lean_utf8_strlen_loop.
  destruct (Z.eqb_spec b 0); [lia|].
  destruct (Z.ltb_spec b 128); [|lia].
  simpl length.
  destruct (Z.leb_spec 1 (Z.of_nat (S (length s)))); [|lia].
  change (drop (Z.to_nat 1) (b :: s)) with s.
  rewrite (bind_ok _ _ _ _ _ (IH fuel st Hs ltac:(simpl in Hfuel; lia)
                                ltac:(simpl length in Hlen; lia))).
  unfold ret. rewrite size_t_small by (simpl length in Hlen; lia).
  do 3 f_equal. lia.
Qed.

Lemma lean_alloc_object_from_run malloc st body a :
  malloc (heap st) = Some a →
  lean_alloc_object_from malloc body st =
    Ok (lean_ptr a, upd_heap <[a := mkCell 1 body]> st).
Proof. intros H. unfold lean_alloc_object_from. by rewrite H. Qed.

Lemma lean_alloc_object_from_oom malloc st body :
  malloc (heap st) = None →
  lean_alloc_object_from malloc body st = Abort "out of memory".
Proof. intros H. unfold lean_alloc_object_from. by rewrite H. Qed.

Lemma lean_mk_string_from_ascii malloc st s a :
  Forall (fun b => 0 < b < 128) s → Z.of_nat (length s) + 1 < 2 ^ 32 →
  malloc (heap st) = Some a →
  lean_mk_string_from malloc s st =
    Ok (lean_ptr a,
        upd_heap <[a := mkCell 1 (LeanString (Z.of_nat (length s) + 1)
                                             (Z.of_nat (length s) + 1)
                                             (Z.of_nat (length s)) (s ++ [0]))]> st).
Proof.
  intros Hs Hlen Hmem. unfold lean_mk_string_from, lean_utf8_strlen.
  run_with ltac:(apply lean_utf8_strlen_ascii; [done|lia|lia]).
  rewrite strlen_ascii by done.
  set (L := Z.of_nat (length s)) in *.
  unfold lean_mk_string_unchecked_from. rewrite size_t_small by lia.
  run_with ltac:(reflexivity).
  run_with ltac:(by apply lean_alloc_object_from_run).
  set (fresh := map (uninit st) (seq 0 (Z.to_nat (L + 1)))).
  assert (Hfl : length fresh = Z.to_nat (L + 1)) by apply length_uninit.
  run_with ltac:(apply bytes_at_run; lia).
  run_with ltac:(apply write_bytes_splice; [lia|]).
  2:{ rewrite length_take, length_drop. lia. }
  run_with ltac:(apply write_bytes_splice; [lia|]).
  2:{ rewrite length_splice; [simpl; lia|]. rewrite length_take, length_drop. lia. }
  run_with ltac:(eapply set_body_run; simpl; apply lookup_insert_eq).
  unfold ret. rewrite upd_heap_upd_heap. unfold upd_heap. simpl.
  rewrite insert_insert_eq. do 6 f_equal.
  change (drop (Z.to_nat 0) s) with s.
  rewrite (take_ge s) by lia.
  unfold splice. change (Z.to_nat 0) with 0%nat. simpl take. simpl app at 1.
  replace (Z.to_nat L) with (length s) by lia.
  rewrite take_app_length. f_equal.
  rewrite drop_ge; [done|].
  rewrite length_app, length_drop. simpl. lia.
Qed.

Lemma lean_mk_string_from_oom malloc st s :
  Forall (fun b => 0 < b < 128) s → Z.of_nat (length s) + 1 < 2 ^ 32 →
  malloc (heap st) = None →
  lean_mk_string_from malloc s st = Abort "out of memory".
Proof.
  intros Hs Hlen Hmem. unfold lean_mk_string_from, lean_utf8_strlen.
  run_with ltac:(apply lean_utf8_strlen_ascii; [done|lia|lia]).
  unfold lean_mk_string_unchecked_from.
  run_with ltac:(reflexivity).
  unfold bind. by rewrite lean_alloc_object_from_oom.
Qed.




(** *** UTF-8 validation *)

Lemma validate_utf8_loop_bool p :
  validate_utf8_loop p = 0 ∨ validate_utf8_loop p = 1.
Proof.
  remember (length p) as n eqn:Hn.
  revert p Hn. induction n as [n IH] using lt_wf_ind. intros p Hn.
  destruct p as [|b0 p1]; [by right|]. simpl.
  assert (Hrec : ∀ q, (length q < n)%nat →
                 validate_utf8_loop q = 0 ∨ validate_utf8_loop q = 1)
    by (intros q Hq; by apply (IH (length q))).
  simpl in Hn.
  destruct (b0 <? 128); [apply Hrec; lia|].
  destruct (b0 <? 194); [by left|].
  destruct (b0 <? 224).
  { destruct p1 as [|b1 p2]; [by left|].
    destruct (not_cont b1); [by left|]. apply Hrec. simpl in Hn. lia. }
  destruct (b0 <? 240).
  { destruct p1 as [|b1 [|b2 p3]]; [by left|by left|].
    destruct (not_cont b1 || not_cont b2); [by left|].
    apply Hrec. simpl in Hn. lia. }
  destruct (b0 <? 245); [|by left].
  destruct p1 as [|b1 [|b2 [|b3 p4]]]; [by left|by left|by left|].
  destruct (not_cont b1 || not_cont b2 || not_cont b3); [by left|].
  apply Hrec. simpl in Hn. lia.
Qed.

(** Scanning resumes after a prefix that is valid on its own. *)
Lemma validate_utf8_loop_app pre rest :
  validate_utf8_loop pre = 1 →
  validate_utf8_loop (pre ++ rest) = validate_utf8_loop rest.
Proof.
  remember (length pre) as n eqn:Hn.
  revert pre Hn. induction n as [n IH] using lt_wf_ind. intros pre Hn Hpre.
  destruct pre as [|b0 p1]; [done|]. simpl in Hpre |- *.
  assert (Hrec : ∀ q, (length q < n)%nat → validate_utf8_loop q = 1 →
                 validate_utf8_loop (q ++ rest) = validate_utf8_loop rest)
    by (intros q Hq; by apply (IH (length q))).
  simpl in Hn.
  destruct (b0 <? 128); [apply Hrec; [lia|done]|].
  destruct (b0 <? 194); [done|].
  destruct (b0 <? 224).
  { destruct p1 as [|b1 p2]; [done|]. simpl.
    destruct (not_cont b1); [done|]. apply Hrec; [simpl in Hn; lia|done]. }
  destruct (b0 <? 240).
  { destruct p1 as [|b1 [|b2 p3]]; [done|done|]. simpl.
    destruct (not_cont b1 || not_cont b2); [done|].
    apply Hrec; [simpl in Hn; lia|done]. }
  destruct (b0 <? 245); [|done].
  destruct p1 as [|b1 [|b2 [|b3 p4]]]; [done|done|done|]. simpl.
  destruct (not_cont b1 || not_cont b2 || not_cont b3); [done|].
  apply Hrec; [simpl in Hn; lia|done].
Qed.

Lemma validate_bad_leader b rest :
  128 ≤ b < 194 ∨ 245 ≤ b → validate_utf8_loop (b :: rest) = 0.
Proof.
  intros Hb. simpl.
  destruct (Z.ltb_spec b 128); [lia|].
  destruct (Z.ltb_spec b 194); [done|].
  destruct (Z.ltb_spec b 224); [lia|].
  destruct (Z.ltb_spec b 240); [lia|].
  destruct (Z.ltb_spec b 245); [lia|done].
Qed.

Lemma validate_missing_continuation b tail i :
  194 ≤ b < 245 → (i < continuation_count b)%nat →
  match tail !! i with
  | Some x => Z.land x 0xC0 ≠ 0x80
  | None => True
  end →
  validate_utf8_loop (b :: tail) = 0.
Proof.
  intros Hb Hi Hbad. simpl. unfold continuation_count in Hi.
  assert (Hnc : ∀ x, Z.land x 192 ≠ 128 → not_cont x = true).
  { intros x Hx. unfold not_cont. by destruct (Z.eqb_spec (Z.land x 192) 128). }
  destruct (Z.ltb_spec b 128); [lia|].
  destruct (Z.ltb_spec b 194); [lia|].
  destruct (Z.ltb_spec b 224).
  { destruct tail as [|b1 p2]; [done|].
    destruct i as [|i]; [|lia]. simpl in Hbad. by rewrite Hnc by assumption. }
  destruct (Z.ltb_spec b 240).
  { destruct tail as [|b1 [|b2 p3]]; [done|done|].
    destruct i as [|[|i]]; [| |lia]; simpl in Hbad; rewrite (Hnc _ Hbad);
      [done|by rewrite orb_true_r]. }
  destruct (Z.ltb_spec b 245); [|lia].
  destruct tail as [|b1 [|b2 [|b3 p4]]]; [done|done|done|].
  destruct i as [|[|[|i]]]; [| | |lia]; simpl in Hbad; rewrite (Hnc _ Hbad);
    [done|by rewrite orb_true_r|by rewrite !orb_true_r].
Qed.

Lemma lean_string_validate_utf8_run st a rc sz cap len data :
  heap st !! a = Some (mkCell rc (LeanString sz cap len data)) →
  1 ≤ sz ≤ Z.of_nat (length data) →
  lean_string_validate_utf8 (lean_ptr a) st =
    Ok (validate_utf8_loop (take (Z.to_nat (sz - 1)) data), st).
Proof.
  intros Ha Hsz. unfold lean_string_validate_utf8.
  run_with ltac:(by eapply lean_to_string_run).
  run_with ltac:(apply bytes_at_run; lia). done.
Qed.

(** C5.  [lean_string_validate_utf8] returns 0 or 1 and leaves the heap as it
    was.  After any prefix that is valid on its own — that is, at every
    position where the scan expects a leading byte — it returns 0 for a
    continuation byte ([0x80..0xBF]), for any other non-ASCII byte below
    [0xC2], for a byte at or above [0xF5], and for a leading byte one of whose
    continuation bytes is missing or is not of the form [10xxxxxx].  The
    single byte [0xC2] is invalid and [0xC2 0xA9] is valid. *)
Theorem lean_string_validate_utf8_rejects :
  (∀ st a rc sz cap len data,
     heap st !! a = Some (mkCell rc (LeanString sz cap len data)) →
     1 ≤ sz ≤ Z.of_nat (length data) →
     ∃ v, lean_string_validate_utf8 (lean_ptr a) st = Ok (v, st) ∧
          v = validate_utf8_loop (take (Z.to_nat (sz - 1)) data) ∧
          (v = 0 ∨ v = 1))
  ∧ (∀ pre b rest, validate_utf8_loop pre = 1 → 0x80 ≤ b < 0xC0 →
       validate_utf8_loop (pre ++ b :: rest) = 0)
  ∧ (∀ pre b tail i, validate_utf8_loop pre = 1 → 0xC2 ≤ b < 0xF5 →
       (i < continuation_count b)%nat →
       match tail !! i with
       | Some x => Z.land x 0xC0 ≠ 0x80
       | None => True
       end →
       validate_utf8_loop (pre ++ b :: tail) = 0)
  ∧ (∀ pre b rest, validate_utf8_loop pre = 1 → 0x80 ≤ b < 0xC2 →
       validate_utf8_loop (pre ++ b :: rest) = 0)
  ∧ (∀ pre b rest, validate_utf8_loop pre = 1 → 0xF5 ≤ b →
       validate_utf8_loop (pre ++ b :: rest) = 0)
  ∧ validate_utf8_loop [0xC2] = 0
  ∧ validate_utf8_loop [0xC2; 0xA9] = 1.
Proof.
  split_and!.
  - intros st a rc sz cap len data Ha Hsz. eexists. split_and!.
    + by eapply lean_string_validate_utf8_run.
    + done.
    + apply validate_utf8_loop_bool.
  - intros pre b rest Hpre Hb. rewrite validate_utf8_loop_app by done.
    apply validate_bad_leader. lia.
  - intros pre b tail i Hpre Hb Hi Hbad. rewrite validate_utf8_loop_app by done.
    by eapply validate_missing_continuation.
  - intros pre b rest Hpre Hb. rewrite validate_utf8_loop_app by done.
    apply validate_bad_leader. lia.
  - intros pre b rest Hpre Hb. rewrite validate_utf8_loop_app by done.
    apply validate_bad_leader. lia.
  - reflexivity.
  - reflexivity.
Qed.

(** The string "A" followed by a lone [0x80]; "A" followed by [0xE2 0x82]
    with the third byte of the sequence missing. *)
Lemma lean_string_validate_utf8_rejects_witness :
  (∃ v, lean_string_validate_utf8 (lean_ptr 1)
          (mkState (<[1%positive := mkCell 1 (LeanString 3 3 2 [0xC2; 0xA9; 0])]> ∅)
                   (fun _ => 170) NULL NULL 0 0)
        = Ok (v, mkState (<[1%positive := mkCell 1 (LeanString 3 3 2 [0xC2; 0xA9; 0])]> ∅)
                         (fun _ => 170) NULL NULL 0 0) ∧ v = 1)
  ∧ validate_utf8_loop ([0x41] ++ 0x80 :: [0x41]) = 0
  ∧ validate_utf8_loop ([0x41] ++ 0xE2 :: [0x82]) = 0
  ∧ validate_utf8_loop ([0x41] ++ 0xC1 :: [0x80]) = 0
  ∧ validate_utf8_loop ([0x41] ++ 0xF5 :: [0x80; 0x80; 0x80]) = 0.
Proof.
  destruct lean_string_validate_utf8_rejects
    as (Hrun & Hlone & Hmiss & Hlow & Hhigh & _ & _).
  split_and!.
  - destruct (Hrun (mkState (<[1%positive := mkCell 1 (LeanString 3 3 2 [0xC2; 0xA9; 0])]> ∅)
                            (fun _ => 170) NULL NULL 0 0)
                1%positive 1 3 3 2 [0xC2; 0xA9; 0])
      as (v & Hv & Hval & _).
    + reflexivity.
    + simpl. lia.
    + exists v. split; [exact Hv|]. rewrite Hval. reflexivity.
  - apply Hlone; [reflexivity|lia].
  - apply (Hmiss [0x41] 0xE2 [0x82] 1%nat); [reflexivity|lia|vm_compute; lia|exact I].
  - apply Hlow; [reflexivity|lia].
  - apply Hhigh; [reflexivity|lia].
Defined.

(** *** Results of IO operations *)

Lemma lean_alloc_ctor_run st tag n :
  lean_alloc_ctor tag n 0 st =
    Ok (lean_ptr (fresh_addr (heap st)),
        upd_heap <[fresh_addr (heap st) :=
                     mkCell 1 (LeanCtor tag (replicate (Z.to_nat n) NULL))]> st).
Proof. done. Qed.

Lemma lean_ctor_set_run st a rc tag objs i v :
  heap st !! a = Some (mkCell rc (LeanCtor tag objs)) →
  0 ≤ i < Z.of_nat (length objs) →
  lean_ctor_set (lean_ptr a) i v st =
    Ok (tt, upd_heap <[a := mkCell rc (LeanCtor tag (<[Z.to_nat i := v]> objs))]> st).
Proof.
  intros Ha Hi. unfold lean_ctor_set, bind, load, store. rewrite Ha. simpl.
  destruct (Z.leb_spec 0 i); [|lia].
  destruct (Z.ltb_spec i (Z.of_nat (length objs))); [|lia].
  simpl. by rewrite Ha.
Qed.

Lemma lean_io_result_mk_ok_run st v :
  lean_io_result_mk_ok v st =
    Ok (lean_ptr (fresh_addr (heap st)),
        upd_heap <[fresh_addr (heap st) := mkCell 1 (LeanCtor 0 [v])]> st).
Proof.
  unfold lean_io_result_mk_ok.
  run_with ltac:(apply lean_alloc_ctor_run).
  run_with ltac:(eapply lean_ctor_set_run; simpl; [apply lookup_insert_eq|simpl; lia]).
  simpl.
  unfold ret. rewrite upd_heap_upd_heap. unfold upd_heap. simpl.
  by rewrite insert_insert_eq.
Qed.

Lemma memset_sarray_run st a rc sz cap data v n :
  heap st !! a = Some (mkCell rc (LeanScalarArray sz cap data)) →
  0 ≤ n ≤ Z.of_nat (length data) →
  memset_sarray (lean_ptr a) v n st =
    Ok (tt, upd_heap <[a := mkCell rc (LeanScalarArray sz cap
                             (replicate (Z.to_nat n) (char v) ++
                              drop (Z.to_nat n) data))]> st).
Proof.
  intros Ha Hn. unfold memset_sarray.
  run_with ltac:(by eapply lean_to_sarray_run).
  run_with ltac:(apply write_bytes_run; [lia|rewrite length_replicate; lia]).
  rewrite (set_body_run _ _ _ _ Ha). simpl. by rewrite length_replicate.
Qed.

(** C10.  [lean_secure_zero arr w] overwrites the [m_size] bytes of [arr]
    with zero exactly when the reference count of [arr] is 1; for any other
    count the array is left as it was.  In both cases it returns a fresh
    success result whose value is [arr]. *)
Theorem lean_secure_zero_exclusive_only (st : state) (arr : positive)
    (rc sz cap : Z) (data : list Z) (w : lean_obj) :
  heap st !! arr = Some (mkCell rc (LeanScalarArray sz cap data)) →
  0 ≤ sz ≤ Z.of_nat (length data) →
  ∃ r st',
    lean_secure_zero (lean_ptr arr) w st = Ok (lean_ptr r, st') ∧
    heap st !! r = None ∧
    heap st' !! r = Some (mkCell 1 (LeanCtor 0 [lean_ptr arr])) ∧
    heap st' !! arr =
      Some (mkCell rc (LeanScalarArray sz cap
              (if rc =? 1
               then replicate (Z.to_nat sz) 0 ++ drop (Z.to_nat sz) data
               else data))) ∧
    (∀ p, p ≠ r → p ≠ arr → heap st' !! p = heap st !! p).
Proof.
  intros Ha Hsz.
  set (data' := if rc =? 1
                then replicate (Z.to_nat sz) 0 ++ drop (Z.to_nat sz) data
                else data).
  assert (Hpre : ∃ st1,
    (if rc =? 1 then
       o <- lean_to_sarray (lean_ptr arr) ;;
       let '(m_size, _, _) := o in memset_sarray (lean_ptr arr) 0 m_size
     else ret tt) st = Ok (tt, st1) ∧
    heap st1 !! arr = Some (mkCell rc (LeanScalarArray sz cap data')) ∧
    (∀ p, p ≠ arr → heap st1 !! p = heap st !! p)).
  { subst data'. destruct (Z.eqb_spec rc 1) as [->|Hrc].
    - eexists. split.
      + run_with ltac:(by eapply lean_to_sarray_run).
        by apply memset_sarray_run.
      + simpl. split; [apply lookup_insert_eq|].
        intros p Hp. by rewrite lookup_insert_ne.
    - by exists st. }
  destruct Hpre as (st1 & Hrun & Harr & Hother).
  set (r := fresh_addr (heap st1)).
  assert (Hr : heap st1 !! r = None) by apply fresh_addr_fresh.
  assert (Hne : r ≠ arr) by (intros Heq; rewrite Heq in Hr; congruence).
  exists r. eexists. split_and!.
  - unfold lean_secure_zero.
    run_with ltac:(unfold lean_is_exclusive, bind, load; by rewrite Ha).
    change (m_rc _ =? 1) with (rc =? 1).
    rewrite (bind_ok _ _ _ _ _ Hrun).
    apply lean_io_result_mk_ok_run.
  - by rewrite <- Hother.
  - simpl. apply lookup_insert_eq.
  - simpl. by rewrite lookup_insert_ne.
  - intros p Hpr Hpa. simpl. rewrite lookup_insert_ne by done. by apply Hother.
Qed.

(** An exclusively owned array is zeroed over its three bytes; the slot past
    [m_size] keeps its content. *)
Lemma lean_secure_zero_exclusive_only_witness :
  ∃ r st',
    lean_secure_zero (lean_ptr 1) (lean_box 0) (st_secret 1) = Ok (lean_ptr r, st') ∧
    heap st' !! 1%positive = Some (mkCell 1 (LeanScalarArray 3 4 [0; 0; 0; 9])).
Proof.
  destruct (lean_secure_zero_exclusive_only (st_secret 1) 1%positive 1 3 4
              [1; 2; 3; 9] (lean_box 0))
    as (r & st' & Hrun & _ & _ & Harr & _).
  - reflexivity.
  - simpl. lia.
  - exists r, st'. split; [exact Hrun|exact Harr].
Defined.

(** C9.  [lean_string_utf8_set s i c] returns [s] itself and changes
    nothing: whatever the position and the codepoint, the bytes, the byte
    length and the codepoint count of the string stay what they were. *)
Theorem lean_string_utf8_set_unchanged (st : state) (s i : lean_obj) (c : Z) :
  lean_string_utf8_set s i c st = Ok (s, st) ∧
  ∀ a cell, s = lean_ptr a → heap st !! a = Some cell →
    ∃ st', lean_string_utf8_set s i c st = Ok (lean_ptr a, st') ∧
           heap st' !! a = Some cell.
Proof.
  split; [done|]. intros a cell -> Ha. by exists st.
Qed.

(** Setting a character in the string [/tmp] of [st_args]: the same pointer
    comes back and the cell is as before. *)
Lemma lean_string_utf8_set_unchanged_witness :
  ∃ st',
    lean_string_utf8_set (lean_ptr 2) (lean_box 0) 0x78 st_args = Ok (lean_ptr 2, st') ∧
    heap st' !! 2%positive =
      Some (mkCell 1 (LeanString 5 5 4 (c_str "/tmp" ++ [0]))).
Proof.
  apply (proj2 (lean_string_utf8_set_unchanged st_args (lean_ptr 2) (lean_box 0) 0x78)
           2%positive).
  - reflexivity.
  - reflexivity.
Defined.

(** *** Random bytes *)

Lemma random_bytes_run (st : state) (n : Z) :
  0 ≤ n →
  ∃ ba r st',
    (ba <- lean_alloc_sarray 1 n n ;; memset_sarray ba 0 n ;; lean_io_result_mk_ok ba) st
      = Ok (lean_ptr r, st') ∧
    heap st !! ba = None ∧ heap st !! r = None ∧ ba ≠ r ∧
    heap st' = <[r := mkCell 1 (LeanCtor 0 [lean_ptr ba])]>
                 (<[ba := mkCell 1 (LeanScalarArray n n (replicate (Z.to_nat n) 0))]>
                    (heap st)).
Proof.
  intros Hn.
  set (ba := fresh_addr (heap st)).
  assert (Hba : heap st !! ba = None) by apply fresh_addr_fresh.
  set (fresh := map (uninit st) (seq 0 (Z.to_nat (1 * n)))).
  set (st1 := upd_heap <[ba := mkCell 1 (LeanScalarArray n n fresh)]> st).
  set (h2 := <[ba := mkCell 1 (LeanScalarArray n n (replicate (Z.to_nat n) 0))]> (heap st)).
  set (r := fresh_addr h2).
  assert (Hr : h2 !! r = None) by apply fresh_addr_fresh.
  assert (Hne : ba ≠ r).
  { intros Heq. rewrite <- Heq in Hr. unfold h2 in Hr.
    by rewrite lookup_insert_eq in Hr. }
  assert (Hh2 : <[ba := mkCell 1 (LeanScalarArray n n
                   (replicate (Z.to_nat n) (char 0) ++ drop (Z.to_nat n) fresh))]>
                  (<[ba := mkCell 1 (LeanScalarArray n n fresh)]> (heap st)) = h2).
  { rewrite insert_insert_eq. unfold h2. do 3 f_equal.
    rewrite drop_ge; [by rewrite app_nil_r|].
    subst fresh. rewrite length_uninit. lia. }
  exists ba, r. eexists. split_and!.
  - run_with ltac:(reflexivity). fold ba fresh st1.
    run_with ltac:(eapply memset_sarray_run; simpl; [apply lookup_insert_eq|]).
    2:{ subst fresh. rewrite length_uninit. lia. }
    unfold st1. rewrite upd_heap_upd_heap.
    rewrite lean_io_result_mk_ok_run. simpl.
    rewrite Hh2. fold r. reflexivity.
  - done.
  - unfold h2 in Hr. by rewrite lookup_insert_ne in Hr.
  - done.
  - simpl. unfold compose. by rewrite Hh2.
Qed.

(** C7.  For every length [n], [lean_io_get_random_bytes] and
    [lean_crypto_random_bytes] return a success result (constructor 0, never
    the error constructor) whose value is a fresh byte array of size and
    capacity [n] in which every byte is zero, whatever the memory held
    before; so any two calls with the same [n] return the same contents. *)
Theorem random_bytes_are_zero (n : Z) (w : lean_obj) :
  0 ≤ n →
  (∀ st, ∃ ba r st',
     lean_io_get_random_bytes (lean_box n) w st = Ok (lean_ptr r, st') ∧
     heap st' !! r = Some (mkCell 1 (LeanCtor 0 [lean_ptr ba])) ∧
     heap st' !! ba = Some (mkCell 1 (LeanScalarArray n n (replicate (Z.to_nat n) 0))) ∧
     heap st !! ba = None ∧ heap st !! r = None)
  ∧
  (∀ st, ∃ ba r st',
     lean_crypto_random_bytes (lean_box n) w st = Ok (lean_ptr r, st') ∧
     heap st' !! r = Some (mkCell 1 (LeanCtor 0 [lean_ptr ba])) ∧
     heap st' !! ba = Some (mkCell 1 (LeanScalarArray n n (replicate (Z.to_nat n) 0))) ∧
     heap st !! ba = None ∧ heap st !! r = None)
  ∧
  (∀ st w', ∃ ba1 r1 ba2 r2 st1 st2 bytes,
     lean_io_get_random_bytes (lean_box n) w st = Ok (lean_ptr r1, st1) ∧
     lean_io_get_random_bytes (lean_box n) w' st1 = Ok (lean_ptr r2, st2) ∧
     heap st2 !! r1 = Some (mkCell 1 (LeanCtor 0 [lean_ptr ba1])) ∧
     heap st2 !! r2 = Some (mkCell 1 (LeanCtor 0 [lean_ptr ba2])) ∧
     heap st2 !! ba1 = Some (mkCell 1 (LeanScalarArray n n bytes)) ∧
     heap st2 !! ba2 = Some (mkCell 1 (LeanScalarArray n n bytes)) ∧
     ba1 ≠ ba2).
Proof.
  intros Hn.
  assert (Hone : ∀ st, ∃ ba r st',
     lean_io_get_random_bytes (lean_box n) w st = Ok (lean_ptr r, st') ∧
     heap st' !! r = Some (mkCell 1 (LeanCtor 0 [lean_ptr ba])) ∧
     heap st' !! ba = Some (mkCell 1 (LeanScalarArray n n (replicate (Z.to_nat n) 0))) ∧
     heap st !! ba = None ∧ heap st !! r = None).
  { intros st. destruct (random_bytes_run st n Hn)
      as (ba & r & st' & Hrun & Hba & Hr & Hne & Hheap).
    exists ba, r, st'. rewrite Hheap. split_and!; try done.
    - apply lookup_insert_eq.
    - rewrite lookup_insert_ne by done. apply lookup_insert_eq. }
  split_and!.
  - exact Hone.
  - intros st. destruct (random_bytes_run st n Hn)
      as (ba & r & st' & Hrun & Hba & Hr & Hne & Hheap).
    exists ba, r, st'. rewrite Hheap. split_and!; try done.
    + apply lookup_insert_eq.
    + rewrite lookup_insert_ne by done. apply lookup_insert_eq.
  - intros st w'.
    destruct (random_bytes_run st n Hn)
      as (ba1 & r1 & st1 & Hrun1 & Hba1 & Hr1 & Hne1 & Hheap1).
    destruct (random_bytes_run st1 n Hn)
      as (ba2 & r2 & st2 & Hrun2 & Hba2 & Hr2 & Hne2 & Hheap2).
    assert (Hl1 : heap st1 !! r1 = Some (mkCell 1 (LeanCtor 0 [lean_ptr ba1])))
      by (rewrite Hheap1; apply lookup_insert_eq).
    assert (Hl2 : heap st1 !! ba1 =
              Some (mkCell 1 (LeanScalarArray n n (replicate (Z.to_nat n) 0)))).
    { rewrite Hheap1, lookup_insert_ne by done. apply lookup_insert_eq. }
    assert (r1 ≠ r2) by (intros ->; congruence).
    assert (r1 ≠ ba2) by (intros ->; congruence).
    assert (ba1 ≠ r2) by (intros ->; congruence).
    assert (ba1 ≠ ba2) by (intros ->; congruence).
    exists ba1, r1, ba2, r2, st1, st2, (replicate (Z.to_nat n) 0).
    rewrite Hheap2. split_and!; try done.
    + by rewrite !lookup_insert_ne.
    + apply lookup_insert_eq.
    + by rewrite !lookup_insert_ne.
    + rewrite lookup_insert_ne by done. apply lookup_insert_eq.
Qed.

(** Sixteen bytes, asked for in a memory full of [0xAA]. *)
Lemma random_bytes_are_zero_witness :
  ∃ ba r st',
    lean_crypto_random_bytes (lean_box 16) (lean_box 0) initial_state
      = Ok (lean_ptr r, st') ∧
    heap st' !! ba = Some (mkCell 1 (LeanScalarArray 16 16 (replicate 16 0))).
Proof.
  destruct (random_bytes_are_zero 16 (lean_box 0)) as (_ & Hcrypto & _); [lia|].
  destruct (Hcrypto initial_state) as (ba & r & st' & Hrun & _ & Hba & _).
  exists ba, r, st'. split; [exact Hrun|exact Hba].
Defined.

(** *** Operations that never abort *)

Create HintDb no_abort.

Lemma never_aborts_ret {A} (a : A) : never_aborts (ret a).
Proof. intros st msg. discriminate. Qed.

Lemma never_aborts_fault {A} : never_aborts (@fault A).
Proof. intros st msg. discriminate. Qed.

Lemma never_aborts_timeout {A} : never_aborts (@timeout A).
Proof. intros st msg. discriminate. Qed.

Lemma never_aborts_bind {A B} (m : M A) (k : A → M B) :
  never_aborts m → (∀ a, never_aborts (k a)) → never_aborts (x <- m ;; k x).
Proof.
  intros Hm Hk st msg. unfold bind.
  destruct (m st) as [[a st']|msg'| |] eqn:E; try discriminate.
  - apply Hk.
  - by destruct (Hm st msg').
Qed.

Lemma never_aborts_if {A} (b : bool) (m1 m2 : M A) :
  never_aborts m1 → never_aborts m2 → never_aborts (if b then m1 else m2).
Proof. by destruct b. Qed.

Lemma never_aborts_load a : never_aborts (load a).
Proof. intros st msg. unfold load. by destruct (heap st !! a). Qed.

Lemma never_aborts_store a c : never_aborts (store a c).
Proof. intros st msg. unfold store. by destruct (heap st !! a). Qed.

Lemma never_aborts_free a : never_aborts (lean_free_object a).
Proof. intros st msg. unfold lean_free_object. by destruct (heap st !! a). Qed.

Lemma never_aborts_enter : never_aborts enter_frame.
Proof. intros st msg. discriminate. Qed.

Lemma never_aborts_leave : never_aborts leave_frame.
Proof. intros st msg. discriminate. Qed.

Lemma never_aborts_for_each {A} (f : A → M unit) l :
  (∀ x, never_aborts (f x)) → never_aborts (for_each f l).
Proof.
  intros Hf. induction l as [|x l IH]; simpl.
  - apply never_aborts_ret.
  - apply never_aborts_bind; auto.
Qed.

Lemma never_aborts_slots {A} n (l : list A) : never_aborts (slots n l).
Proof.
  unfold slots. apply never_aborts_if;
    [apply never_aborts_ret|apply never_aborts_fault].
Qed.

#[local] Hint Resolve never_aborts_ret never_aborts_fault never_aborts_timeout
  never_aborts_load never_aborts_store never_aborts_free
  never_aborts_enter never_aborts_leave never_aborts_slots
  : no_abort.
#[local] Hint Extern 2 (never_aborts (bind _ _)) =>
  apply never_aborts_bind; [|intros ?] : no_abort.
#[local] Hint Extern 2 (never_aborts (if _ then _ else _)) =>
  apply never_aborts_if : no_abort.
#[local] Hint Extern 3 (never_aborts (match ?x with _ => _ end)) =>
  destruct x : no_abort.

Lemma never_aborts_dec_with cold o :
  (∀ a, never_aborts (cold a)) → never_aborts (lean_dec_with cold o).
Proof.
  intros Hcold. destruct o; simpl; auto with no_abort.
  unfold lean_dec_ref_with. auto 10 with no_abort.
Qed.

Lemma never_aborts_dec_ref_cold fuel : ∀ a, never_aborts (lean_dec_ref_cold fuel a).
Proof.
  induction fuel as [|fuel IH]; intros a; simpl; [auto with no_abort|].
  pose proof (never_aborts_dec_with (lean_dec_ref_cold fuel)) as Hdec.
  apply never_aborts_bind; [auto with no_abort|intros _].
  apply never_aborts_bind; [auto with no_abort|intros c].
  apply never_aborts_bind; [|auto with no_abort].
  apply never_aborts_if; [|auto with no_abort].
  apply never_aborts_bind; [|auto with no_abort].
  destruct (m_body c) as [tag objs|f ar objs|sz cap data|sz cap data|sz cap len data|v];
    auto using never_aborts_for_each with no_abort.
Qed.

Lemma never_aborts_lean_dec o : never_aborts (lean_dec o).
Proof.
  intros st msg. unfold lean_dec.
  apply never_aborts_dec_with. apply never_aborts_dec_ref_cold.
Qed.

#[local] Hint Resolve never_aborts_lean_dec : no_abort.

(** *** The error result *)

Lemma length_c_str msg : length (c_str msg) = String.length msg.
Proof.
  unfold c_str. rewrite length_map.
  induction msg as [|ch msg IH]; simpl; [done|]. by rewrite IH.
Qed.

Lemma upd_heap_insert_insert st a c1 c2 :
  upd_heap <[a := c2]> (upd_heap <[a := c1]> st) = upd_heap <[a := c2]> st.
Proof. unfold upd_heap. simpl. by rewrite insert_insert_eq. Qed.

Lemma lean_alloc_ctor_from_run malloc st tag n a :
  malloc (heap st) = Some a →
  lean_alloc_ctor_from malloc tag n 0 st =
    Ok (lean_ptr a,
        upd_heap <[a := mkCell 1 (LeanCtor tag (replicate (Z.to_nat n) NULL))]> st).
Proof. intros H. by apply lean_alloc_object_from_run. Qed.

(** The three allocations of the error result succeed one after the other,
    or the first that fails ends in the out-of-memory panic. *)
Lemma mk_io_error_run malloc st msg :
  sound malloc →
  Forall (fun b => 0 < b < 128) (c_str msg) →
  Z.of_nat (String.length msg) + 1 < 2 ^ 32 →
  (∃ r st', mk_io_error malloc msg st = Ok (r, st') ∧
            is_io_error (heap st') r msg ∧
            ∀ p, is_Some (heap st !! p) → heap st' !! p = heap st !! p)
  ∨ (mk_io_error malloc msg st = Abort "out of memory" ∧ ∃ h, malloc h = None).
Proof.
  intros Hsound Hascii Hlen. rewrite <- length_c_str in Hlen.
  set (cs := mkCell 1 (LeanString (Z.of_nat (length (c_str msg)) + 1)
                                  (Z.of_nat (length (c_str msg)) + 1)
                                  (Z.of_nat (length (c_str msg))) (c_str msg ++ [0]))).
  unfold mk_io_error.
  destruct (malloc (heap st)) as [ps|] eqn:Hps.
  2:{ right. split; [|eauto]. unfold bind at 1.
      by rewrite lean_mk_string_from_oom. }
  run_with ltac:(by apply lean_mk_string_from_ascii). fold cs.
  set (h1 := <[ps := cs]> (heap st)).
  destruct (malloc h1) as [pe|] eqn:Hpe.
  2:{ right. split; [|eauto]. unfold bind at 1, lean_alloc_ctor_from.
      by rewrite lean_alloc_object_from_oom. }
  run_with ltac:(by apply lean_alloc_ctor_from_run). simpl heap. fold h1.
  run_with ltac:(eapply lean_ctor_set_run; simpl; [apply lookup_insert_eq|simpl; lia]).
  rewrite upd_heap_insert_insert.
  change (<[Z.to_nat 0:=lean_ptr ps]> (replicate (Z.to_nat 1) NULL)) with [lean_ptr ps].
  set (h2 := <[pe := mkCell 1 (LeanCtor 2 [lean_ptr ps])]> h1).
  destruct (malloc h2) as [pr|] eqn:Hpr.
  2:{ right. split; [|eauto]. unfold bind at 1, lean_alloc_ctor_from.
      rewrite lean_alloc_object_from_oom; [done|exact Hpr]. }
  run_with ltac:(apply lean_alloc_ctor_from_run; exact Hpr).
  simpl heap.
  run_with ltac:(eapply lean_ctor_set_run; simpl; [apply lookup_insert_eq|simpl; lia]).
  rewrite upd_heap_insert_insert.
  change (<[Z.to_nat 0:=lean_ptr pe]> (replicate (Z.to_nat 1) NULL)) with [lean_ptr pe].
  set (h3 := <[pr := mkCell 1 (LeanCtor 1 [lean_ptr pe])]> h2).
  apply Hsound in Hps, Hpe, Hpr.
  assert (Hes : pe ≠ ps).
  { intros Heq. rewrite Heq in Hpe. unfold h1 in Hpe.
    by rewrite lookup_insert_eq in Hpe. }
  assert (Hre : pr ≠ pe).
  { intros Heq. rewrite Heq in Hpr. unfold h2 in Hpr.
    by rewrite lookup_insert_eq in Hpr. }
  assert (Hrs : pr ≠ ps).
  { intros Heq. rewrite Heq in Hpr. unfold h2, h1 in Hpr.
    rewrite lookup_insert_ne in Hpr by done. by rewrite lookup_insert_eq in Hpr. }
  left. exists (lean_ptr pr), (upd_heap (fun _ => h3) st). split_and!.
  - reflexivity.
  - exists pr, pe, ps. rewrite <- length_c_str. simpl. unfold h3, h2, h1.
    split_and!; [done| | |].
    + apply lookup_insert_eq.
    + rewrite lookup_insert_ne by done. apply lookup_insert_eq.
    + rewrite !lookup_insert_ne by done. apply lookup_insert_eq.
  - intros p [c Hp]. simpl. unfold h3.
    assert (Hpe0 : heap st !! pe = None).
    { unfold h1 in Hpe. by rewrite lookup_insert_ne in Hpe. }
    assert (Hpr0 : heap st !! pr = None).
    { unfold h2, h1 in Hpr. by rewrite !lookup_insert_ne in Hpr. }
    unfold h2, h1.
    rewrite !lookup_insert_ne; [done| | |]; intros <-; congruence.
Qed.

Lemma bind_assoc {A B C} (m : M A) (k : A → M B) (j : B → M C) st :
  (y <- (x <- m ;; k x) ;; j y) st = (x <- m ;; y <- k x ;; j y) st.
Proof. unfold bind. by destruct (m st) as [[a st']| | |]. Qed.

Lemma unavailable_stub (op : allocator → M lean_obj) release msg :
  (∀ malloc st, op malloc st = (release ;; mk_io_error malloc msg) st) →
  never_aborts release →
  Forall (fun b => 0 < b < 128) (c_str msg) →
  Z.of_nat (String.length msg) + 1 < 2 ^ 32 →
  unavailable op release msg.
Proof.
  intros Hop Hrel Hascii Hlen malloc st Hsound. rewrite Hop. split_and!.
  - intros m. unfold bind.
    destruct (release st) as [[[] st1]|m'| |] eqn:E; try discriminate.
    + destruct (mk_io_error_run malloc st1 msg Hsound Hascii Hlen)
        as [(r & st' & Hmk & _)|[Hmk _]]; rewrite Hmk; [discriminate|].
      by intros [= <-].
    + by destruct (Hrel st m').
  - intros r st'. unfold bind.
    destruct (release st) as [[[] st1]| | |] eqn:E; try discriminate.
    destruct (mk_io_error_run malloc st1 msg Hsound Hascii Hlen)
      as [(r' & st'' & Hmk & Herr & _)|[Hmk _]]; rewrite Hmk; [|discriminate].
    by intros [= <- <-].
  - intros st1 Hst1. rewrite (bind_ok _ _ _ _ _ Hst1). split_and!.
    + destruct (mk_io_error_run malloc st1 msg Hsound Hascii Hlen)
        as [(r & st' & Hmk & Herr & Hkeep)|[Hmk _]]; [left|right; done].
      by exists r, st'.
    + intros Hfull.
      destruct (mk_io_error_run malloc st1 msg Hsound Hascii Hlen)
        as [(r & st' & Hmk & Herr & Hkeep)|[_ [h Hh]]].
      * by exists r, st'.
      * destruct (Hfull h) as [a Ha]. congruence.
    + intros Hnone. unfold mk_io_error. unfold bind at 1.
      rewrite lean_mk_string_from_oom; [done|done| |done].
      by rewrite length_c_str.
Qed.

Ltac ascii_message := vm_compute; repeat constructor.

Ltac stub_unavailable :=
  apply unavailable_stub;
  [ intros malloc st; try reflexivity;
    cbv delta [lean_crypto_hmac_sha256 lean_crypto_aes128_gcm_encrypt
               lean_crypto_aes128_gcm_decrypt lean_crypto_x25519 bind];
    cbv beta;
    repeat (match goal with
            | |- context [lean_dec ?x ?s] =>
                destruct (lean_dec x s) as [[[] ?]| | |]; try reflexivity
            end)
  | auto 10 with no_abort
  | ascii_message
  | vm_compute; reflexivity ].

(** C6.  Directory listing, file reading, the six cryptographic FFI entry
    points and promise creation, under every allocator that hands out only
    blocks that are not live: the only abort they can end in is the
    out-of-memory panic of [lean_alloc_object]; whenever they return, the
    result is the error constructor around a user error that carries the
    message string; once their arguments have been released they return
    that result, leaving the live cells as they are, when the allocator does
    not fail, and abort when it has no block for the message string.
    [l_System_FilePath_pathExists] never aborts and gives no error result:
    once the path has been released it answers 0. *)
Theorem capability_unavailable_is_error :
  (∀ path w, unavailable (fun malloc => lean_io_read_dir malloc path w)
               (lean_dec path) "filesystem not available in WASM")
  ∧ (∀ path, unavailable (fun malloc => l_IO_FS_readFile malloc path)
               (lean_dec path) "filesystem not available in WASM")
  ∧ (∀ path, unavailable (fun malloc => l_IO_FS_readBinFile malloc path)
               (lean_dec path) "filesystem not available in WASM")
  ∧ (∀ data w, unavailable (fun malloc => lean_crypto_sha256 malloc data w)
               (lean_dec data) "crypto FFI not available in WASM")
  ∧ (∀ key data w, unavailable (fun malloc => lean_crypto_hmac_sha256 malloc key data w)
               (lean_dec key ;; lean_dec data)
               "crypto FFI not available in WASM")
  ∧ (∀ key iv aad pt w,
       unavailable (fun malloc => lean_crypto_aes128_gcm_encrypt malloc key iv aad pt w)
               (lean_dec key ;; lean_dec iv ;; lean_dec aad ;; lean_dec pt)
               "crypto FFI not available in WASM")
  ∧ (∀ key iv aad ct w,
       unavailable (fun malloc => lean_crypto_aes128_gcm_decrypt malloc key iv aad ct w)
               (lean_dec key ;; lean_dec iv ;; lean_dec aad ;; lean_dec ct)
               "crypto FFI not available in WASM")
  ∧ (∀ privkey w, unavailable (fun malloc => lean_crypto_x25519_base malloc privkey w)
               (lean_dec privkey) "crypto FFI not available in WASM")
  ∧ (∀ scalar point w,
       unavailable (fun malloc => lean_crypto_x25519 malloc scalar point w)
               (lean_dec scalar ;; lean_dec point)
               "crypto FFI not available in WASM")
  ∧ (∀ w, unavailable (fun malloc => lean_io_promise_new malloc w) (ret tt)
               "promises not available in WASM")
  ∧ (∀ path,
       never_aborts (l_System_FilePath_pathExists path) ∧
       ∀ st st1, lean_dec path st = Ok (tt, st1) →
                 l_System_FilePath_pathExists path st = Ok (0, st1)).
Proof.
  split_and!; intros.
  - stub_unavailable.
  - stub_unavailable.
  - stub_unavailable.
  - stub_unavailable.
  - stub_unavailable.
  - stub_unavailable.
  - stub_unavailable.
  - stub_unavailable.
  - stub_unavailable.
  - stub_unavailable.
  - unfold l_System_FilePath_pathExists. split; [auto 10 with no_abort|].
    intros st st1 Hdec. by rewrite (bind_ok _ _ _ _ _ Hdec).
Qed.

(** [lean_crypto_sha256] on a byte array that two owners share.  With memory
    to spare one reference is given back and the error result is returned;
    with none left the call aborts. *)
Lemma capability_unavailable_is_error_witness :
  (∃ r st',
     lean_crypto_sha256 unlimited (lean_ptr 1) (lean_box 0) st_args = Ok (r, st') ∧
     is_io_error (heap st') r "crypto FFI not available in WASM" ∧
     heap st' !! 1%positive = Some (mkCell 1 (LeanScalarArray 2 2 [0xDE; 0xAD]))) ∧
  lean_crypto_sha256 (fun _ => None) (lean_ptr 1) (lean_box 0) st_args =
    Abort "out of memory".
Proof.
  destruct capability_unavailable_is_error as (_ & _ & _ & Hsha & _).
  split.
  - destruct (Hsha (lean_ptr 1) (lean_box 0) unlimited st_args) as (_ & _ & Hret).
    { intros h a [= <-]. apply fresh_addr_fresh. }
    edestruct Hret as (_ & Hfull & _).
    + vm_compute. reflexivity.
    + destruct Hfull as (r & st' & Hrun & Herr & Hkeep).
      { intros h. by eexists. }
      exists r, st'. split_and!; [exact Hrun|exact Herr|].
      rewrite Hkeep; [reflexivity|]. eexists. reflexivity.
  - destruct (Hsha (lean_ptr 1) (lean_box 0) (fun _ => None) st_args) as (_ & _ & Hret).
    { intros h a. discriminate. }
    edestruct Hret as (_ & _ & Hoom).
    + vm_compute. reflexivity.
    + apply Hoom. reflexivity.
Defined.

(** C6 (as stated) fails.  With no memory left, promise creation and
    directory listing end in the out-of-memory panic instead of returning an
    error result.  And [l_System_FilePath_pathExists], a filesystem
    operation the host lacks as well, returns no error: it frees the path
    string, allocates nothing and answers 0. *)
Lemma capability_unavailable_not_always_error :
  lean_io_promise_new (fun _ => None) (lean_box 0) initial_state =
    Abort "out of memory"
  ∧ lean_io_read_dir (fun _ => None) (lean_ptr 2) (lean_box 0) st_args =
      Abort "out of memory"
  ∧ ∃ st', l_System_FilePath_pathExists (lean_ptr 2) st_args = Ok (0, st') ∧
           heap st' = delete 2%positive (heap st_args).
Proof.
  split_and!.
  - vm_compute. reflexivity.
  - vm_compute. reflexivity.
  - eexists. split; [vm_compute; reflexivity|]. vm_compute. reflexivity.
Qed.

(** *** Closure application *)

Section ClosureFacts.
Import Closure.
Variable call : Z → list value → result value.








Lemma lean_call_with_args_in_range fn arity a :
  1 ≤ arity ≤ 16 →
  lean_call_with_args call fn arity a =
    call fn (map (arg a) (seq 0 (Z.to_nat arity))).
Proof.
  intros H.
  assert (arity = 1 ∨ arity = 2 ∨ arity = 3 ∨ arity = 4 ∨ arity = 5 ∨ arity = 6 ∨
          arity = 7 ∨ arity = 8 ∨ arity = 9 ∨ arity = 10 ∨ arity = 11 ∨
          arity = 12 ∨ arity = 13 ∨ arity = 14 ∨ arity = 15 ∨ arity = 16)
    as Hcases by lia.
  repeat (destruct Hcases as [->|Hcases]; [reflexivity|]). by subst.
Qed.

Lemma lean_call_with_args_out_of_range fn arity a :
  ¬ (1 ≤ arity ≤ 16) →
  lean_call_with_args call fn arity a = Abort "lean_call_with_args: arity > 16".
Proof.
  intros H. destruct arity as [|p|p]; [done| |done].
  do 5 (destruct p as [p|p|]; try reflexivity; try lia).
Qed.

Lemma args_in_order (a : list value) k :
  (k ≤ length a)%nat → map (arg a) (seq 0 k) = take k a.
Proof.
  intros Hk. apply list_eq. intros i.
  rewrite list_lookup_fmap, lookup_take.
  destruct (decide (i < k)%nat) as [Hi|Hi].
  - rewrite lookup_seq_lt by done. simpl. unfold arg.
    destruct (lookup_lt_is_Some_2 a i ltac:(lia)) as [x Hx].
    rewrite Hx. f_equal. by apply nth_lookup_Some with (d := Scalar 0) in Hx.
  - by rewrite lookup_seq_ge by lia.
Qed.


End ClosureFacts.

Section ClosureConverse.
Import Closure.
Variable call : Z → list value → result value.



End ClosureConverse.



(** C8.  [lean_call_with_args] with an arity outside 1..16 ends in the
    panic "lean_call_with_args: arity > 16" and the native function is not
    called; with an arity [k] in 1..16 it calls the native function on
    [a[0], ..., a[k-1]], which are the first [k] entries of the argument array
    in order. *)
Theorem lean_call_with_args_arity (call : Z → list Closure.value → result Closure.value)
    (fn arity : Z) (a : list Closure.value) :
  (¬ (1 ≤ arity ≤ 16) →
     Closure.lean_call_with_args call fn arity a =
       Abort "lean_call_with_args: arity > 16")
  ∧
  (1 ≤ arity ≤ 16 →
     Closure.lean_call_with_args call fn arity a =
       call fn (map (Closure.arg a) (seq 0 (Z.to_nat arity))) ∧
     length (map (Closure.arg a) (seq 0 (Z.to_nat arity))) = Z.to_nat arity ∧
     (Z.of_nat (length a) = arity →
        Closure.lean_call_with_args call fn arity a = call fn a) ∧
     (arity ≤ Z.of_nat (length a) →
        Closure.lean_call_with_args call fn arity a =
          call fn (take (Z.to_nat arity) a))).
Proof.
  split.
  - apply lean_call_with_args_out_of_range.
  - intros Har. rewrite lean_call_with_args_in_range by done. split_and!.
    + done.
    + by rewrite length_map, length_seq.
    + intros Hlen. rewrite args_in_order by lia.
      rewrite take_ge by lia. done.
    + intros Hlen. by rewrite args_in_order by lia.
Qed.

(** Arity 17 panics; arity 2 passes the two arguments in order. *)
Lemma lean_call_with_args_arity_witness :
  Closure.lean_call_with_args Closure.sample_call 0 17
      (replicate 16 (Closure.Scalar 0)) =
    Abort "lean_call_with_args: arity > 16"
  ∧ Closure.lean_call_with_args Closure.sample_call 0 2
      [Closure.Scalar 7; Closure.Scalar 8] =
    Ok (Closure.Data 0 [Closure.Scalar 7; Closure.Scalar 8]).
Proof.
  split.
  - apply (proj1 (lean_call_with_args_arity Closure.sample_call 0 17
                    (replicate 16 (Closure.Scalar 0)))). lia.
  - destruct (proj2 (lean_call_with_args_arity Closure.sample_call 0 2
                       [Closure.Scalar 7; Closure.Scalar 8]) ltac:(lia))
      as (_ & _ & Hexact & _).
    rewrite Hexact; reflexivity.
Defined.

(* ################################################################## *)
(** * Further properties *)
(* ################################################################## *)

(** *** Small naturals *)

Lemma lean_box_sz_small n : 0 ≤ n < 2 ^ 31 → lean_box_sz n = lean_box n.
Proof. intros. unfold lean_box_sz. by rewrite Z.mod_small. Qed.

(** X1.  [lean_nat_shiftl] on two scalars returns [v * 2 ^ s] exactly when
    the shift count is below 32 and the product is at most
    [LEAN_MAX_SMALL_NAT]; in every other case, a zero shifted by 32 or more
    included, it aborts with the overflow diagnostic. *)
Theorem lean_nat_shiftl_exact_or_abort (st : state) (v s : Z) :
  0 ≤ v < 2 ^ 31 → 0 ≤ s < 2 ^ 31 →
  lean_nat_shiftl (lean_box v) (lean_box s) st =
    if (s <? 32) && (v * 2 ^ s <=? LEAN_MAX_SMALL_NAT)
    then Ok (lean_box (v * 2 ^ s), st)
    else Abort "WASM: big nat operation not supported: lean_nat_shiftl (overflow)".
Proof.
  intros Hv Hs. unfold lean_nat_shiftl, LEAN_MAX_SMALL_NAT.
  cbn [lean_is_scalar lean_unbox andb].
  rewrite (size_t_small v), (size_t_small s) by lia.
  destruct (Z.ltb_spec s 32) as [Hs32|Hs32]; [|done]. simpl andb.
  rewrite Z.shiftl_mul_pow2 by lia.
  assert (Hp : 0 < 2 ^ s) by (apply Z.pow_pos_nonneg; lia).
  assert (Hpq : 2 ^ s * 2 ^ (32 - s) = 2 ^ 32).
  { rewrite <- Z.pow_add_r by lia. f_equal. lia. }
  assert (Hq : 0 < 2 ^ (32 - s)) by (apply Z.pow_pos_nonneg; lia).
  destruct (Z.lt_ge_cases (v * 2 ^ s) (2 ^ 32)) as [Hfit|Hover].
  - rewrite size_t_small by lia.
    rewrite Z.shiftr_div_pow2 by lia. rewrite Z.div_mul by lia.
    rewrite Z.eqb_refl, orb_true_r, andb_true_r.
    destruct (Z.leb_spec (v * 2 ^ s) (2 ^ 31 - 1)); [|done].
    unfold ret. by rewrite lean_box_sz_small by lia.
  - destruct (Z.leb_spec (v * 2 ^ s) (2 ^ 31 - 1)); [lia|].
    assert (Hr : 0 ≤ size_t (v * 2 ^ s) < 2 ^ 32) by (apply Z.mod_pos_bound; lia).
    destruct (Z.eqb_spec s 0) as [->|Hs0]; [simpl in Hover; lia|].
    rewrite Z.shiftr_div_pow2 by lia.
    assert (size_t (v * 2 ^ s) / 2 ^ s < 2 ^ (32 - s)).
    { apply Z.div_lt_upper_bound; lia. }
    assert (2 ^ (32 - s) ≤ v) by nia.
    destruct (Z.eqb_spec (size_t (v * 2 ^ s) / 2 ^ s) v); [lia|].
    by rewrite andb_false_r.
Qed.

(** 3 shifted by 4 is 48; 1 shifted by 31 does not fit. *)
Lemma lean_nat_shiftl_exact_or_abort_witness :
  lean_nat_shiftl (lean_box 3) (lean_box 4) initial_state =
    Ok (lean_box 48, initial_state) ∧
  lean_nat_shiftl (lean_box 1) (lean_box 31) initial_state =
    Abort "WASM: big nat operation not supported: lean_nat_shiftl (overflow)".
Proof.
  split.
  - apply (lean_nat_shiftl_exact_or_abort initial_state 3 4); lia.
  - apply (lean_nat_shiftl_exact_or_abort initial_state 1 31); lia.
Defined.

Lemma lean_nat_pow_loop_result n : ∀ base acc st,
  0 ≤ base → 0 ≤ acc ≤ LEAN_MAX_SMALL_NAT →
  (∃ r, lean_nat_pow_loop n base acc st = Ok (r, st) ∧
        0 ≤ r ≤ LEAN_MAX_SMALL_NAT ∧
        r = (acc * base ^ Z.of_nat n) mod 2 ^ 32) ∨
  lean_nat_pow_loop n base acc st =
    Abort "WASM: big nat operation not supported: lean_nat_pow (overflow)".
Proof.
  unfold LEAN_MAX_SMALL_NAT.
  induction n as [|n IH]; intros base acc st Hb Hacc.
  - left. exists acc. split; [done|]. split; [done|].
    change (base ^ Z.of_nat 0) with 1. rewrite Z.mul_1_r, Z.mod_small; lia.
  - cbn [lean_nat_pow_loop]. unfold LEAN_MAX_SMALL_NAT.
    assert (Hr : 0 ≤ size_t (acc * base) < 2 ^ 32) by (apply Z.mod_pos_bound; lia).
    destruct (Z.ltb_spec (2 ^ 31 - 1) (size_t (acc * base))) as [Hbig|Hsmall];
      [by right|].
    destruct (IH base (size_t (acc * base)) st Hb ltac:(lia))
      as [(r & Hrun & Hrr & Hr')|Habort]; [left|by right].
    exists r. split; [done|]. split; [done|].
    rewrite Hr'. unfold size_t.
    rewrite Nat2Z.inj_succ, Z.pow_succ_r by lia.
    rewrite Z.mul_mod_idemp_l by lia. f_equal. lia.
Qed.

Lemma lean_nat_pow_loop_small n : ∀ base acc st,
  0 ≤ base → 0 ≤ acc →
  acc * base ^ Z.of_nat n ≤ LEAN_MAX_SMALL_NAT →
  lean_nat_pow_loop n base acc st = Ok (acc * base ^ Z.of_nat n, st).
Proof.
  unfold LEAN_MAX_SMALL_NAT.
  induction n as [|n IH]; intros base acc st Hb Hacc Hfit.
  - change (base ^ Z.of_nat 0) with 1. by rewrite Z.mul_1_r.
  - cbn [lean_nat_pow_loop]. unfold LEAN_MAX_SMALL_NAT.
    rewrite Nat2Z.inj_succ, Z.pow_succ_r in * by lia.
    assert (Hpow : 0 ≤ base ^ Z.of_nat n) by (apply Z.pow_nonneg; lia).
    assert (Hstep : acc * base ≤ 2 ^ 31 - 1).
    { destruct (Z.eq_dec base 0) as [->|Hb0]; [lia|].
      assert (0 < base ^ Z.of_nat n) by (apply Z.pow_pos_nonneg; lia).
      nia. }
    rewrite size_t_small by nia.
    destruct (Z.ltb_spec (2 ^ 31 - 1) (acc * base)); [lia|].
    rewrite IH; [|lia|nia|lia]. do 2 f_equal. lia.
Qed.

(** X2.  [lean_nat_pow] on two scalars returns [base ^ exp] whenever that
    is at most [LEAN_MAX_SMALL_NAT].  Otherwise it aborts with the overflow
    diagnostic or returns a scalar congruent to the power modulo [2 ^ 32]:
    the product is reduced to 32 bits before the overflow test sees it, and
    [65536 ^ 2] comes back as 0. *)
Theorem lean_nat_pow_small_or_wrapped (st : state) (b e : Z) :
  0 ≤ b < 2 ^ 31 → 0 ≤ e < 2 ^ 31 →
  (b ^ e ≤ LEAN_MAX_SMALL_NAT →
   lean_nat_pow (lean_box b) (lean_box e) st = Ok (lean_box (b ^ e), st)) ∧
  ((∃ r, lean_nat_pow (lean_box b) (lean_box e) st = Ok (lean_box r, st) ∧
         0 ≤ r ≤ LEAN_MAX_SMALL_NAT ∧ r = (b ^ e) mod 2 ^ 32) ∨
   lean_nat_pow (lean_box b) (lean_box e) st =
     Abort "WASM: big nat operation not supported: lean_nat_pow (overflow)") ∧
  lean_nat_pow (lean_box 65536) (lean_box 2) st = Ok (lean_box 0, st).
Proof.
  intros Hb He. unfold lean_nat_pow. cbn [lean_is_scalar lean_unbox andb].
  rewrite (size_t_small b), (size_t_small e) by lia.
  split_and!.
  - intros Hfit.
    pose proof (lean_nat_pow_loop_small (Z.to_nat e) b 1 st) as Hrun.
    rewrite Z2Nat.id, Z.mul_1_l in Hrun by lia.
    rewrite (bind_ok _ _ _ _ _ (Hrun ltac:(lia) ltac:(lia) Hfit)).
    unfold ret. rewrite lean_box_sz_small; [done|].
    unfold LEAN_MAX_SMALL_NAT in Hfit.
    assert (0 ≤ b ^ e) by (apply Z.pow_nonneg; lia). lia.
  - destruct (lean_nat_pow_loop_result (Z.to_nat e) b 1 st)
      as [(r & Hrun & Hr & Hr')|Habort]; [lia|unfold LEAN_MAX_SMALL_NAT; lia| |].
    + left. exists r. rewrite (bind_ok _ _ _ _ _ Hrun). unfold ret.
      rewrite Z2Nat.id, Z.mul_1_l in Hr' by lia.
      rewrite lean_box_sz_small by (unfold LEAN_MAX_SMALL_NAT in Hr; lia). done.
    + right. unfold bind. by rewrite Habort.
  - reflexivity.
Qed.

(** 3 to the 4th is 81; 2 to the 31st is reported as an overflow. *)
Lemma lean_nat_pow_small_or_wrapped_witness :
  lean_nat_pow (lean_box 3) (lean_box 4) initial_state =
    Ok (lean_box 81, initial_state).
Proof.
  apply (proj1 (lean_nat_pow_small_or_wrapped initial_state 3 4
                  ltac:(lia) ltac:(lia))).
  vm_compute. discriminate.
Defined.

Lemma lean_nat_log2_loop_run fuel : ∀ v r st,
  1 ≤ v → (Z.to_nat v ≤ fuel)%nat → 0 ≤ r → r + Z.log2 v < 2 ^ 32 →
  lean_nat_log2_loop fuel v r st = Ok (r + Z.log2 v, st).
Proof.
  induction fuel as [|fuel IH]; intros v r st Hv Hfuel Hr Hfit; [lia|].
  cbn [lean_nat_log2_loop].
  destruct (Z.ltb_spec 1 v) as [Hgt|Hle].
  - assert (Hhalf : v ≫ 1 = v / 2) by (by rewrite Z.shiftr_div_pow2).
    assert (Hl1 : 1 ≤ Z.log2 v) by (apply (Z.log2_le_mono 2 v); lia).
    assert (Hlog : Z.log2 (v ≫ 1) = Z.log2 v - 1).
    { rewrite Z.log2_shiftr by lia. lia. }
    rewrite size_t_small by lia.
    rewrite IH; [do 2 f_equal; lia| | | |].
    + rewrite Hhalf. apply Z.div_le_lower_bound; lia.
    + rewrite Hhalf. assert (v / 2 < v) by (apply Z.div_lt; lia). lia.
    + lia.
    + lia.
  - replace v with 1 by lia. unfold ret. do 2 f_equal. simpl. lia.
Qed.

(** X3.  [lean_nat_log2] of a scalar [v] is the position of its highest set
    bit: [2 ^ r <= v < 2 ^ (r + 1)] for the result [r] when [v] is positive,
    and 0 for [v = 0].  An argument that is not a scalar aborts. *)
Theorem lean_nat_log2_floor (st : state) (v : Z) :
  0 ≤ v < 2 ^ 31 →
  ∃ r, lean_nat_log2 (lean_box v) st = Ok (lean_box r, st) ∧
       r = Z.log2 v ∧
       (0 < v → 2 ^ r ≤ v < 2 ^ (r + 1)) ∧
       (v = 0 → r = 0) ∧
       ∀ a, lean_nat_log2 (lean_ptr a) st =
              Abort "WASM: big nat operation not supported: lean_nat_log2 (big)".
Proof.
  intros Hv. exists (Z.log2 v). split_and!; try done.
  - unfold lean_nat_log2. cbn [lean_is_scalar lean_unbox].
    rewrite size_t_small by lia.
    destruct (Z.eqb_spec v 0) as [->|Hv0]; [done|].
    assert (Hlog : Z.log2 v < 31) by (apply Z.log2_lt_pow2; lia).
    pose proof (Z.log2_nonneg v).
    rewrite (bind_ok _ _ _ _ _ (lean_nat_log2_loop_run (Z.to_nat v) v 0 st
              ltac:(lia) ltac:(lia) ltac:(lia) ltac:(lia))).
    unfold ret. rewrite lean_box_sz_small by lia. done.
  - intros Hpos. pose proof (Z.log2_spec v Hpos) as Hspec.
    by rewrite <- Z.add_1_r in Hspec.
  - by intros ->.
Qed.

Lemma lean_nat_log2_floor_witness :
  ∃ r, lean_nat_log2 (lean_box 1000) initial_state = Ok (lean_box r, initial_state) ∧
       r = 9.
Proof.
  destruct (lean_nat_log2_floor initial_state 1000 ltac:(lia))
    as (r & Hrun & Hr & _).
  exists r. split; [exact Hrun|]. rewrite Hr. reflexivity.
Defined.

Lemma lean_nat_gcd_loop_run fuel : ∀ x y st,
  0 ≤ x → 0 ≤ y → (Z.to_nat y < fuel)%nat →
  lean_nat_gcd_loop fuel x y st = Ok (Z.gcd x y, st).
Proof.
  induction fuel as [|fuel IH]; intros x y st Hx Hy Hfuel; [lia|].
  cbn [lean_nat_gcd_loop].
  destruct (Z.eqb_spec y 0) as [->|Hy0].
  - unfold ret. by rewrite Z.gcd_0_r, Z.abs_eq.
  - assert (Hm : 0 ≤ x mod y < y) by (apply Z.mod_pos_bound; lia).
    rewrite IH by lia. do 2 f_equal.
    rewrite (Z.gcd_comm y), Z.gcd_mod by lia. apply Z.gcd_comm.
Qed.

(** X4.  [lean_nat_gcd] on two scalars returns their greatest common
    divisor, with [gcd x 0 = x]; when an argument is not a scalar it
    aborts. *)
Theorem lean_nat_gcd_is_gcd (st : state) (x y : Z) :
  0 ≤ x < 2 ^ 31 → 0 ≤ y < 2 ^ 31 →
  lean_nat_gcd (lean_box x) (lean_box y) st = Ok (lean_box (Z.gcd x y), st) ∧
  lean_nat_gcd (lean_box x) (lean_box 0) st = Ok (lean_box x, st) ∧
  ∀ a, lean_nat_gcd (lean_ptr a) (lean_box y) st =
         Abort "WASM: big nat operation not supported: lean_nat_gcd (big)" ∧
       lean_nat_gcd (lean_box x) (lean_ptr a) st =
         Abort "WASM: big nat operation not supported: lean_nat_gcd (big)".
Proof.
  intros Hx Hy.
  assert (Hrun : ∀ y', 0 ≤ y' < 2 ^ 31 →
    lean_nat_gcd (lean_box x) (lean_box y') st = Ok (lean_box (Z.gcd x y'), st)).
  { intros y' Hy'. unfold lean_nat_gcd. cbn [lean_is_scalar lean_unbox andb].
    rewrite (size_t_small x), (size_t_small y') by lia.
    rewrite (bind_ok _ _ _ _ _ (lean_nat_gcd_loop_run (S (Z.to_nat y')) x y' st
              ltac:(lia) ltac:(lia) ltac:(lia))).
    unfold ret. rewrite lean_box_sz_small; [done|].
    pose proof (Z.gcd_nonneg x y').
    destruct (Z.eq_dec x 0) as [->|Hx0].
    - rewrite Z.gcd_0_l, Z.abs_eq; lia.
    - assert (Z.gcd x y' ≤ x); [|lia].
      apply Z.divide_pos_le; [lia|apply Z.gcd_divide_l]. }
  split_and!.
  - by apply Hrun.
  - rewrite Hrun by lia. by rewrite Z.gcd_0_r, Z.abs_eq by lia.
  - done.
Qed.

Lemma lean_nat_gcd_is_gcd_witness :
  lean_nat_gcd (lean_box 12) (lean_box 18) initial_state =
    Ok (lean_box 6, initial_state).
Proof.
  apply (proj1 (lean_nat_gcd_is_gcd initial_state 12 18 ltac:(lia) ltac:(lia))).
Defined.

Lemma decimal_foldl_mod ds : ∀ a b,
  a mod 2 ^ 32 = b mod 2 ^ 32 →
  foldl (fun v d => v * 10 + d) a ds mod 2 ^ 32 =
    foldl (fun v d => v * 10 + d) b ds mod 2 ^ 32.
Proof.
  induction ds as [|d ds IH]; intros a b Hab; [done|].
  cbn [foldl]. apply IH.
  rewrite <- (Z.add_mod_idemp_l (a * 10)), <- (Z.mul_mod_idemp_l a) by lia.
  rewrite Hab.
  by rewrite Z.mul_mod_idemp_l, Z.add_mod_idemp_l by lia.
Qed.

Lemma lean_cstr_to_nat_loop_digits ds : ∀ rest val,
  Forall (fun d => 0 ≤ d ≤ 9) ds →
  (rest = [] ∨ ∃ c rest', rest = c :: rest' ∧ 0 ≤ c < 256 ∧ not_digit c) →
  0 ≤ val < 2 ^ 32 →
  lean_cstr_to_nat_loop (digit_chars ds ++ rest) val =
    foldl (fun v d => v * 10 + d) val ds mod 2 ^ 32.
Proof.
  induction ds as [|d ds IH]; intros rest val Hds Hrest Hval.
  - cbn [digit_chars map app foldl]. rewrite Z.mod_small by lia.
    destruct Hrest as [->|(c & rest' & -> & Hc & Hnd)]; [done|].
    cbn [lean_cstr_to_nat_loop]. unfold char_to_int, not_digit in *.
    destruct (Z.ltb_spec c 128);
      destruct (Z.leb_spec 48 c); destruct (Z.leb_spec c 57);
      destruct (Z.leb_spec 48 (c - 256)); destruct (Z.leb_spec (c - 256) 57);
      simpl; try done; lia.
  - apply Forall_cons in Hds as [Hd Hds].
    cbn [digit_chars map app lean_cstr_to_nat_loop foldl].
    fold (digit_chars ds).
    unfold char_to_int. destruct (Z.ltb_spec (d + 48) 128); [|lia].
    destruct (Z.leb_spec 48 (d + 48)); [|lia].
    destruct (Z.leb_spec (d + 48) 57); [|lia]. cbn [andb].
    replace (d + 48 - 48) with d by lia. rewrite (size_t_small d) by lia.
    rewrite IH; [|done|done|apply Z.mod_pos_bound; lia].
    apply decimal_foldl_mod. unfold size_t. by rewrite Z.mod_mod.
Qed.

(** X5.  [lean_cstr_to_nat] reads the decimal digits at the start of the
    string and stops at the first byte that is not a digit or at the
    terminator.  The value is accumulated in 32 bits and boxed in 31: the
    result is the number the digits denote modulo [2 ^ 31], hence that
    number itself when it is below [2 ^ 31]; a string that does not start
    with a digit gives 0. *)
Theorem lean_cstr_to_nat_decimal (ds rest : list Z) :
  Forall (fun d => 0 ≤ d ≤ 9) ds →
  (rest = [] ∨ ∃ c rest', rest = c :: rest' ∧ 0 ≤ c < 256 ∧ not_digit c) →
  lean_cstr_to_nat (digit_chars ds ++ rest) = lean_box (decimal ds mod 2 ^ 31) ∧
  (decimal ds < 2 ^ 31 →
   lean_cstr_to_nat (digit_chars ds ++ rest) = lean_box (decimal ds)) ∧
  lean_cstr_to_nat rest = lean_box 0.
Proof.
  intros Hds Hrest.
  assert (Hnn : 0 ≤ decimal ds).
  { unfold decimal.
    assert (∀ a, 0 ≤ a → 0 ≤ foldl (fun v d => v * 10 + d) a ds) as Hfold;
      [|by apply Hfold].
    clear Hrest. induction Hds as [|d ds Hd _ IH]; intros a Ha; [done|].
    cbn [foldl]. apply IH. lia. }
  assert (Hgen : lean_cstr_to_nat (digit_chars ds ++ rest) =
                 lean_box (decimal ds mod 2 ^ 31)).
  { unfold lean_cstr_to_nat, lean_box_sz.
    rewrite lean_cstr_to_nat_loop_digits by (done || lia).
    fold (decimal ds). f_equal.
    change (2 ^ 32) with (2 ^ 31 * 2). rewrite Z.rem_mul_r by lia.
    rewrite Z.mul_comm, Z.mod_add by lia. apply Z.mod_mod. lia. }
  split_and!.
  - done.
  - intros Hsmall. rewrite Hgen. by rewrite Z.mod_small by lia.
  - pose proof (lean_cstr_to_nat_loop_digits [] rest 0 ltac:(constructor) Hrest
                  ltac:(lia)) as H0.
    unfold lean_cstr_to_nat. cbn [digit_chars map app foldl] in H0. by rewrite H0.
Qed.

(** The string "4096;": the digits are read up to the semicolon. *)
Lemma lean_cstr_to_nat_decimal_witness :
  lean_cstr_to_nat (c_str "4096;") = lean_box 4096.
Proof.
  apply (proj1 (proj2 (lean_cstr_to_nat_decimal [4; 0; 9; 6] (c_str ";")
    ltac:(repeat constructor; lia)
    ltac:(right; exists 59, []; unfold not_digit; split_and!; [done|lia|lia|lia])))).
  vm_compute. reflexivity.
Defined.

(** *** Characters *)

(** X6.  [l_Char_ofNat] always returns a Unicode scalar value: at most
    [0x10FFFF] and outside the surrogate range.  It is the identity on such
    values and gives [0xFFFD] for every other number. *)
Theorem l_Char_ofNat_scalar_value (v : Z) :
  0 ≤ v < 2 ^ 31 →
  let c := l_Char_ofNat (lean_box v) in
  0 ≤ c ≤ 0x10FFFF ∧ ¬ (0xD800 ≤ c ≤ 0xDFFF) ∧
  (v ≤ 0x10FFFF → ¬ (0xD800 ≤ v ≤ 0xDFFF) → c = v) ∧
  (0x10FFFF < v ∨ 0xD800 ≤ v ≤ 0xDFFF → c = 0xFFFD).
Proof.
  intros Hv. unfold l_Char_ofNat, uint32_t. cbn [lean_unbox].
  rewrite size_t_small by lia.
  destruct (Z.ltb_spec 0x10FFFF v); destruct (Z.leb_spec 0xD800 v);
    destruct (Z.leb_spec v 0xDFFF); cbn [orb andb];
    rewrite ?Z.mod_small by lia; lia.
Qed.

Lemma l_Char_ofNat_scalar_value_witness :
  l_Char_ofNat (lean_box 0xD800) = 0xFFFD ∧ l_Char_ofNat (lean_box 0x41) = 0x41.
Proof.
  split.
  - apply (l_Char_ofNat_scalar_value 0xD800 ltac:(lia)). lia.
  - apply (l_Char_ofNat_scalar_value 0x41 ltac:(lia)); lia.
Defined.

(** *** Bytes of an encoded codepoint *)













(** *** A string after a push *)














(** *** Making strings from bytes *)

Lemma lean_mk_string_unchecked_run st s sz len :
  0 ≤ sz ≤ Z.of_nat (length s) → sz + 1 < 2 ^ 32 →
  lean_mk_string_unchecked s sz len st =
    Ok (lean_ptr (fresh_addr (heap st)),
        upd_heap <[fresh_addr (heap st) :=
                     mkCell 1 (LeanString (sz + 1) (sz + 1) len
                                          (take (Z.to_nat sz) s ++ [0]))]> st).
Proof.
  intros Hsz Hbig. unfold lean_mk_string_unchecked, lean_mk_string_unchecked_from.
  rewrite size_t_small by lia.
  run_with ltac:(reflexivity). run_with ltac:(reflexivity).
  set (fresh := map (uninit st) (seq 0 (Z.to_nat (sz + 1)))).
  assert (Hfl : length fresh = Z.to_nat (sz + 1)) by apply length_uninit.
  run_with ltac:(apply bytes_at_run; lia).
  change (drop (Z.to_nat 0) s) with s.
  assert (Hsrc : length (take (Z.to_nat sz) s) = Z.to_nat sz)
    by (rewrite length_take; lia).
  run_with ltac:(apply write_bytes_splice; lia).
  run_with ltac:(apply write_bytes_splice; [lia|]).
  2:{ rewrite length_splice; simpl; lia. }
  run_with ltac:(eapply set_body_run; simpl; apply lookup_insert_eq).
  unfold ret. rewrite upd_heap_upd_heap. unfold upd_heap. simpl.
  rewrite insert_insert_eq. do 6 f_equal.
  unfold splice. change (Z.to_nat 0) with 0%nat. simpl take at 1.
  rewrite app_nil_l. rewrite Nat.add_0_l.
  rewrite <- Hsrc at 1. rewrite take_app_length.
  f_equal. rewrite drop_ge; [by rewrite app_nil_r|].
  rewrite length_app, length_drop. simpl. lia.
Qed.

(** X11.  [lean_string_utf8_extract s b e] clamps both offsets to the byte
    length of [s] and returns a new string, owned once, that holds the bytes
    from the clamped [b] up to the clamped [e] and a terminator; when the
    range is empty it holds the terminator alone.  Its codepoint count is
    recomputed from those bytes, and [s] is left as it was. *)
Theorem lean_string_utf8_extract_clamped (st : state) (a : positive)
    (rc sz cap len : Z) (data : list Z) (b e : Z) :
  heap st !! a = Some (mkCell rc (LeanString sz cap len data)) →
  1 ≤ sz ≤ Z.of_nat (length data) → sz < 2 ^ 31 →
  0 ≤ b < 2 ^ 31 → 0 ≤ e < 2 ^ 31 →
  let b' := Z.min b (sz - 1) in
  let e' := Z.min e (sz - 1) in
  let n := Z.max 0 (e' - b') in
  let text := take (Z.to_nat n) (drop (Z.to_nat b') data) in
  ∃ r,
    heap st !! r = None ∧
    Z.of_nat (length text) = n ∧
    lean_string_utf8_extract (lean_ptr a) (lean_box b) (lean_box e) st =
      Ok (lean_ptr r,
          upd_heap <[r := mkCell 1 (LeanString (n + 1) (n + 1)
                                      (lean_utf8_n_strlen text) (text ++ [0]))]> st).
Proof.
  intros Ha Hsz Hbig Hb He b' e' n text.
  exists (fresh_addr (heap st)). split; [apply fresh_addr_fresh|].
  assert (Hlen : Z.of_nat (length text) = n).
  { subst text. rewrite length_take, length_drop. lia. }
  split; [done|].
  unfold lean_string_utf8_extract.
  run_with ltac:(by eapply lean_to_string_run).
  cbn [lean_unbox]. rewrite !size_t_small by lia.
  replace (if sz - 1 <? b then sz - 1 else b) with b'
    by (subst b'; destruct (Z.ltb_spec (sz - 1) b); lia).
  replace (if sz - 1 <? e then sz - 1 else e) with e'
    by (subst e'; destruct (Z.ltb_spec (sz - 1) e); lia).
  destruct (Z.leb_spec e' b') as [Hle|Hlt].
  - rewrite lean_mk_string_unchecked_run by (simpl; lia).
    assert (n = 0) as Hn0 by lia. subst text. rewrite Hn0. done.
  - assert (Hn : n = e' - b') by lia. rewrite size_t_small by lia.
    unfold lean_mk_string_from_bytes.
    run_with ltac:(apply bytes_at_run; [lia|lia|rewrite length_drop; lia]).
    rewrite lean_mk_string_unchecked_run by (rewrite ?length_drop; lia).
    change (drop (Z.to_nat 0) (drop (Z.to_nat b') data)) with (drop (Z.to_nat b') data).
    rewrite <- Hn. done.
Qed.

(** The string "hello": the bytes from offset 1 up to offset 3 are "el";
    an end offset past the string is clamped to its length. *)
Lemma lean_string_utf8_extract_clamped_witness :
  ∃ r,
    lean_string_utf8_extract (lean_ptr 1) (lean_box 1) (lean_box 3)
      (mkState (<[1%positive := mkCell 1 (LeanString 6 6 5 (c_str "hello" ++ [0]))]> ∅)
               (fun _ => 170) NULL NULL 0 0) =
    Ok (lean_ptr r,
        upd_heap <[r := mkCell 1 (LeanString 3 3 2 (c_str "el" ++ [0]))]>
          (mkState (<[1%positive := mkCell 1 (LeanString 6 6 5 (c_str "hello" ++ [0]))]> ∅)
                   (fun _ => 170) NULL NULL 0 0)).
Proof.
  destruct (lean_string_utf8_extract_clamped
    (mkState (<[1%positive := mkCell 1 (LeanString 6 6 5 (c_str "hello" ++ [0]))]> ∅)
             (fun _ => 170) NULL NULL 0 0)
    1%positive 1 6 6 5 (c_str "hello" ++ [0]) 1 3)
    as (r & _ & _ & Hrun).
  - reflexivity.
  - simpl. lia.
  - lia.
  - lia.
  - lia.
  - exists r. rewrite Hrun. reflexivity.
Defined.

(** *** Moving through a string *)

Lemma lean_string_utf8_prev_loop_bound data st : ∀ j,
  (j < length data)%nat →
  ∃ r, lean_string_utf8_prev_loop j data st = Ok (r, st) ∧ 0 ≤ r ≤ Z.of_nat j.
Proof.
  induction j as [|j IH]; intros Hj.
  - exists 0. split; [done|lia].
  - cbn [lean_string_utf8_prev_loop].
    destruct (lookup_lt_is_Some_2 data (S j) Hj) as [c Hc].
    run_with ltac:(apply index_run; [lia|by rewrite Nat2Z.id]).
    destruct (Z.land (char_to_int c) 192 =? 128).
    + destruct (IH ltac:(lia)) as (r & Hr & Hb). exists r. split; [done|lia].
    + exists (Z.of_nat (S j)). split; [done|lia].
Qed.

(** X12.  [lean_string_utf8_next] and [lean_string_utf8_prev] make
    progress and stay inside the text: from an offset before the end,
    [next] returns a larger offset that is at most the byte length, and from
    the end or beyond it returns the byte length; from an offset in the text
    other than 0, [prev] returns a smaller one, and from 0 it returns 0.
    Neither changes the heap. *)
Theorem utf8_next_prev_in_bounds (st : state) (a : positive)
    (rc sz cap len : Z) (data : list Z) (pos : Z) :
  heap st !! a = Some (mkCell rc (LeanString sz cap len data)) →
  1 ≤ sz ≤ Z.of_nat (length data) → sz < 2 ^ 31 → 0 ≤ pos < 2 ^ 31 →
  (∃ r, lean_string_utf8_next (lean_ptr a) (lean_box pos) st = Ok (lean_box r, st) ∧
        (pos < sz - 1 → pos < r ≤ sz - 1) ∧
        (sz - 1 ≤ pos → r = sz - 1)) ∧
  (pos ≤ sz - 1 →
   ∃ r, lean_string_utf8_prev (lean_ptr a) (lean_box pos) st = Ok (lean_box r, st) ∧
        (0 < pos → 0 ≤ r < pos) ∧
        (pos = 0 → r = 0)).
Proof.
  intros Ha Hsz Hbig Hpos. split.
  - unfold lean_string_utf8_next.
    run_with ltac:(by eapply lean_to_string_run).
    cbn [lean_unbox]. rewrite !size_t_small by lia.
    destruct (Z.leb_spec (sz - 1) pos) as [Hend|Hin].
    + exists (sz - 1). unfold ret. rewrite lean_box_sz_small by lia.
      split; [done|]. split; lia.
    + destruct (lookup_lt_is_Some_2 data (Z.to_nat pos) ltac:(lia)) as [c Hc].
      rewrite (bind_ok _ _ _ _ _ (index_run st data pos c ltac:(lia) Hc)).
      set (step := if 128 <=? c then _ else 1).
      assert (Hstep : 1 ≤ step ≤ 4).
      { subst step. destruct (128 <=? c); [|lia].
        destruct (c <? 224); [lia|]. destruct (c <? 240); lia. }
      rewrite size_t_small by lia.
      destruct (Z.ltb_spec (sz - 1) (pos + step)).
      * exists (sz - 1). unfold ret. rewrite lean_box_sz_small by lia.
        split; [done|]. split; lia.
      * exists (pos + step). unfold ret. rewrite lean_box_sz_small by lia.
        split; [done|]. split; lia.
  - intros Hle. unfold lean_string_utf8_prev.
    run_with ltac:(by eapply lean_to_string_run).
    cbn [lean_unbox]. rewrite size_t_small by lia.
    destruct (Z.eqb_spec pos 0) as [->|Hne].
    + exists 0. split; [done|]. split; lia.
    + destruct (lean_string_utf8_prev_loop_bound data st (Z.to_nat (pos - 1)))
        as (r & Hr & Hb); [lia|].
      rewrite (bind_ok _ _ _ _ _ Hr).
      exists r. unfold ret. rewrite lean_box_sz_small by lia.
      split; [done|]. split; lia.
Qed.

(** In the string "aé" (bytes 61 C3 A9), [next] from offset 1 steps over
    the two bytes of "é" and reaches the end, offset 3. *)
Lemma utf8_next_prev_in_bounds_witness :
  ∃ r,
    lean_string_utf8_next (lean_ptr 1) (lean_box 1)
      (mkState (<[1%positive := mkCell 1 (LeanString 4 4 2 [0x61; 0xC3; 0xA9; 0])]> ∅)
               (fun _ => 170) NULL NULL 0 0) =
    Ok (lean_box r,
        mkState (<[1%positive := mkCell 1 (LeanString 4 4 2 [0x61; 0xC3; 0xA9; 0])]> ∅)
                (fun _ => 170) NULL NULL 0 0) ∧
    1 < r ≤ 3.
Proof.
  destruct (utf8_next_prev_in_bounds
    (mkState (<[1%positive := mkCell 1 (LeanString 4 4 2 [0x61; 0xC3; 0xA9; 0])]> ∅)
             (fun _ => 170) NULL NULL 0 0)
    1%positive 1 4 4 2 [0x61; 0xC3; 0xA9; 0] 1)
    as [(r & Hrun & Hin & _) _].
  - reflexivity.
  - simpl. lia.
  - lia.
  - lia.
  - exists r. split; [exact Hrun|]. apply Hin. lia.
Defined.

(** *** Comparing strings *)

Lemma memcmp_sign p : ∀ q,
  length p = length q →
  (memcmp p q =? 0) = bool_decide (p = q) ∧
  (memcmp p q <? 0) = bytes_lt p q.
Proof.
  induction p as [|x p IH]; intros [|y q] Hlen; try done.
  cbn [memcmp bytes_lt]. simpl in Hlen.
  destruct (IH q ltac:(lia)) as [IHe IHl].
  destruct (Z.ltb_spec x y); [|destruct (Z.ltb_spec y x)].
  - split; [|done]. rewrite bool_decide_eq_false_2; [done|]. intros [= ? ?]. lia.
  - destruct (Z.eqb_spec x y); [lia|]. split; [|done].
    rewrite bool_decide_eq_false_2; [done|]. intros [= ? ?]. lia.
  - assert (x = y) as -> by lia. rewrite Z.eqb_refl. cbn [orb andb].
    split; [|done]. rewrite IHe. apply bool_decide_ext. split; [by intros ->|].
    by intros [= ->].
Qed.

Lemma bytes_lt_app_prefix p : ∀ q,
  (length p ≤ length q)%nat →
  bytes_lt p q =
    bytes_lt p (take (length p) q) ||
    (bool_decide (p = take (length p) q) && bool_decide (length p < length q)%nat).
Proof.
  induction p as [|x p IH]; intros [|y q] Hlen; simpl in Hlen; try done; try lia.
  cbn [length take bytes_lt]. rewrite IH by lia.
  destruct (Z.ltb_spec x y); [done|]. cbn [orb].
  destruct (Z.eqb_spec x y) as [->|Hne]; cbn [andb].
  - f_equal. f_equal; apply bool_decide_ext; [|lia].
    split; [congruence|by intros [= ?]].
  - rewrite (bool_decide_eq_false_2 (x :: p = _)); [done|]. by intros [= ? ?].
Qed.

Lemma bytes_lt_longer p : ∀ q,
  (length q < length p)%nat →
  bytes_lt p q = bytes_lt (take (length q) p) q.
Proof.
  induction p as [|x p IH]; intros [|y q] Hlen; simpl in Hlen; try done; try lia.
  cbn [length take bytes_lt]. by rewrite IH by lia.
Qed.

Lemma bytes_lt_trichotomy p : ∀ q,
  (p = q ∧ bytes_lt p q = false ∧ bytes_lt q p = false) ∨
  (p ≠ q ∧ bytes_lt p q = true ∧ bytes_lt q p = false) ∨
  (p ≠ q ∧ bytes_lt p q = false ∧ bytes_lt q p = true).
Proof.
  induction p as [|x p IH]; intros [|y q]; cbn [bytes_lt].
  - by left.
  - right; left. done.
  - right; right. done.
  - destruct (Z.ltb_spec x y); [|destruct (Z.ltb_spec y x)].
    + right; left. destruct (Z.ltb_spec y x); [lia|].
      destruct (Z.eqb_spec y x); [lia|]. split_and!; [|done|done].
      intros [= ? ?]. lia.
    + right; right. destruct (Z.eqb_spec x y); [lia|]. split_and!; [|done|done].
      intros [= ? ?]. lia.
    + assert (x = y) as -> by lia. rewrite Z.eqb_refl. cbn [orb andb].
      destruct (IH q) as [(-> & ? & ?)|[(? & ? & ?)|(? & ? & ?)]].
      * by left.
      * right; left. split_and!; [|done|done]. by intros [= ->].
      * right; right. split_and!; [|done|done]. by intros [= ->].
Qed.

(** X13.  [lean_string_eq_cold] and [lean_string_lt] order strings by
    their bytes: [eq] holds exactly when both have the same bytes, [lt] is
    the lexicographic order of the bytes with a proper prefix first, and of
    [s1 = s2], [s1 < s2] and [s2 < s1] exactly one holds. *)
Theorem string_order_trichotomy (st : state) (a1 a2 : positive)
    (rc1 sz1 cap1 len1 rc2 sz2 cap2 len2 : Z) (data1 data2 : list Z) :
  heap st !! a1 = Some (mkCell rc1 (LeanString sz1 cap1 len1 data1)) →
  heap st !! a2 = Some (mkCell rc2 (LeanString sz2 cap2 len2 data2)) →
  1 ≤ sz1 ≤ Z.of_nat (length data1) → 1 ≤ sz2 ≤ Z.of_nat (length data2) →
  let t1 := take (Z.to_nat sz1) data1 in
  let t2 := take (Z.to_nat sz2) data2 in
  ∃ e l g,
    lean_string_eq_cold (lean_ptr a1) (lean_ptr a2) st = Ok (e, st) ∧
    lean_string_lt (lean_ptr a1) (lean_ptr a2) st = Ok (l, st) ∧
    lean_string_lt (lean_ptr a2) (lean_ptr a1) st = Ok (g, st) ∧
    (e = true ↔ t1 = t2) ∧ l = bytes_lt t1 t2 ∧ g = bytes_lt t2 t1 ∧
    ((e = true ∧ l = false ∧ g = false) ∨
     (e = false ∧ l = true ∧ g = false) ∨
     (e = false ∧ l = false ∧ g = true)).
Proof.
  intros Ha1 Ha2 Hsz1 Hsz2 t1 t2.
  assert (Hl1 : length t1 = Z.to_nat sz1) by (subst t1; rewrite length_take; lia).
  assert (Hl2 : length t2 = Z.to_nat sz2) by (subst t2; rewrite length_take; lia).
  assert (Hlt : ∀ b1 b2 r1 r2 s1 s2 c1 c2 n1 n2 (d1 d2 : list Z),
    heap st !! b1 = Some (mkCell r1 (LeanString s1 c1 n1 d1)) →
    heap st !! b2 = Some (mkCell r2 (LeanString s2 c2 n2 d2)) →
    1 ≤ s1 ≤ Z.of_nat (length d1) → 1 ≤ s2 ≤ Z.of_nat (length d2) →
    lean_string_lt (lean_ptr b1) (lean_ptr b2) st =
      Ok (bytes_lt (take (Z.to_nat s1) d1) (take (Z.to_nat s2) d2), st)).
  { intros b1 b2 r1 r2 s1 s2 c1 c2 n1 n2 d1 d2 Hb1 Hb2 Hs1 Hs2.
    unfold lean_string_lt.
    run_with ltac:(by eapply lean_to_string_run).
    run_with ltac:(by eapply lean_to_string_run).
    set (m := if s1 <? s2 then s1 else s2).
    assert (Hm : m = Z.min s1 s2) by (subst m; destruct (Z.ltb_spec s1 s2); lia).
    run_with ltac:(apply bytes_at_run; lia).
    run_with ltac:(apply bytes_at_run; lia).
    change (drop (Z.to_nat 0) d1) with d1. change (drop (Z.to_nat 0) d2) with d2.
    unfold ret. do 2 f_equal.
    set (p := take (Z.to_nat m) d1). set (q := take (Z.to_nat m) d2).
    assert (Hp : length p = Z.to_nat m) by (subst p; rewrite length_take; lia).
    assert (Hq : length q = Z.to_nat m) by (subst q; rewrite length_take; lia).
    destruct (memcmp_sign p q ltac:(lia)) as [He Hl]. rewrite He, Hl.
    set (u1 := take (Z.to_nat s1) d1). set (u2 := take (Z.to_nat s2) d2).
    assert (Hu1 : length u1 = Z.to_nat s1) by (subst u1; rewrite length_take; lia).
    assert (Hu2 : length u2 = Z.to_nat s2) by (subst u2; rewrite length_take; lia).
    destruct (Z.ltb_spec s1 s2) as [Hlt|Hge].
    - assert (p = u1) as -> by (subst p u1; f_equal; lia).
      assert (q = take (length u1) u2) as ->.
      { subst q u2. rewrite take_take. f_equal. lia. }
      rewrite (bytes_lt_app_prefix u1 u2) by lia.
      rewrite andb_true_r. f_equal.
      rewrite (bool_decide_eq_true_2 (length u1 < length u2)%nat) by lia.
      by rewrite andb_true_r.
    - rewrite andb_false_r, orb_false_r.
      assert (q = u2) as -> by (subst q u2; f_equal; lia).
      destruct (decide (s1 = s2)) as [Heq|Hne].
      + f_equal. subst p u1. f_equal. lia.
      + assert (p = take (length u2) u1) as ->.
        { subst p u1. rewrite take_take. f_equal. lia. }
        by rewrite (bytes_lt_longer u1 u2) by lia. }
  exists (bool_decide (t1 = t2)), (bytes_lt t1 t2), (bytes_lt t2 t1).
  split_and!; try done.
  - unfold lean_string_eq_cold.
    run_with ltac:(by eapply lean_to_string_run).
    run_with ltac:(by eapply lean_to_string_run).
    destruct (Z.eqb_spec sz1 sz2) as [->|Hne]; cbn [negb].
    + run_with ltac:(apply bytes_at_run; lia).
      run_with ltac:(apply bytes_at_run; lia).
      unfold ret. do 2 f_equal.
      change (drop (Z.to_nat 0) data1) with data1.
      change (drop (Z.to_nat 0) data2) with data2.
      apply memcmp_sign. lia.
    + unfold ret. do 2 f_equal. symmetry. apply bool_decide_eq_false_2.
      intros Heq. rewrite Heq in Hl1. lia.
  - by eapply Hlt.
  - by eapply Hlt.
  - apply bool_decide_eq_true.
  - destruct (bytes_lt_trichotomy t1 t2) as [(-> & -> & _)|[(? & -> & ->)|(? & -> & ->)]].
    + left. by rewrite bool_decide_eq_true_2.
    + right; left. by rewrite bool_decide_eq_false_2.
    + right; right. by rewrite bool_decide_eq_false_2.
Qed.

(** "ab" comes before "abc". *)
Lemma string_order_trichotomy_witness :
  lean_string_lt (lean_ptr 1) (lean_ptr 2)
    (mkState (<[2%positive := mkCell 1 (LeanString 4 4 3 (c_str "abc" ++ [0]))]>
               (<[1%positive := mkCell 1 (LeanString 3 3 2 (c_str "ab" ++ [0]))]> ∅))
             (fun _ => 170) NULL NULL 0 0) =
  Ok (true,
      mkState (<[2%positive := mkCell 1 (LeanString 4 4 3 (c_str "abc" ++ [0]))]>
                (<[1%positive := mkCell 1 (LeanString 3 3 2 (c_str "ab" ++ [0]))]> ∅))
              (fun _ => 170) NULL NULL 0 0).
Proof.
  destruct (string_order_trichotomy
    (mkState (<[2%positive := mkCell 1 (LeanString 4 4 3 (c_str "abc" ++ [0]))]>
               (<[1%positive := mkCell 1 (LeanString 3 3 2 (c_str "ab" ++ [0]))]> ∅))
             (fun _ => 170) NULL NULL 0 0)
    1%positive 2%positive 1 3 3 2 1 4 4 3 (c_str "ab" ++ [0]) (c_str "abc" ++ [0]))
    as (e & l & g & _ & Hlt & _ & _ & Hl & _).
  - reflexivity.
  - reflexivity.
  - simpl. lia.
  - simpl. lia.
  - rewrite Hlt, Hl. reflexivity.
Defined.

(** *** Strings and their bytes *)

Lemma lean_string_to_utf8_run st a rc sz cap len data :
  heap st !! a = Some (mkCell rc (LeanString sz cap len data)) →
  1 ≤ sz ≤ Z.of_nat (length data) → sz < 2 ^ 32 →
  ∃ ba st',
    lean_string_to_utf8 (lean_ptr a) st = Ok (lean_ptr ba, st') ∧
    heap st !! ba = None ∧
    heap st' !! ba =
      Some (mkCell 1 (LeanScalarArray (sz - 1) (sz - 1) (take (Z.to_nat (sz - 1)) data))) ∧
    (∀ p, p ≠ a → p ≠ ba → heap st' !! p = heap st !! p) ∧
    heap st' !! a =
      (if 1 <? rc then Some (mkCell (rc - 1) (LeanString sz cap len data))
       else if rc =? 1 then None
       else Some (mkCell rc (LeanString sz cap len data))).
Proof.
  intros Ha Hsz Hbig.
  set (ba := fresh_addr (heap st)).
  assert (Hba : heap st !! ba = None) by apply fresh_addr_fresh.
  assert (Hne : ba ≠ a) by (intros ->; congruence).
  set (text := take (Z.to_nat (sz - 1)) data).
  assert (Htl : length text = Z.to_nat (sz - 1)) by (subst text; rewrite length_take; lia).
  set (cell := mkCell 1 (LeanScalarArray (sz - 1) (sz - 1) text)).
  set (st2 := upd_heap <[ba := cell]> st).
  destruct (lean_dec_childless st2 a (mkCell rc (LeanString sz cap len data)))
    as (st' & Hdec & Hother & Hself & _).
  { simpl. by rewrite lookup_insert_ne. }
  { done. }
  exists ba, st'. split_and!.
  - unfold lean_string_to_utf8.
    run_with ltac:(by eapply lean_to_string_run).
    rewrite size_t_small by lia.
    run_with ltac:(reflexivity). fold ba.
    run_with ltac:(apply bytes_at_run; lia).
    change (drop (Z.to_nat 0) data) with data. fold text.
    run_with ltac:(eapply lean_to_sarray_run; simpl; apply lookup_insert_eq).
    run_with ltac:(apply write_bytes_splice; [lia|]).
    2:{ rewrite length_uninit. lia. }
    run_with ltac:(eapply set_body_run; simpl; apply lookup_insert_eq).
    rewrite upd_heap_upd_heap.
    replace (upd_heap _ st) with st2.
    2:{ unfold st2, upd_heap, cell. simpl. rewrite insert_insert_eq.
        do 4 f_equal. unfold splice. change (Z.to_nat 0) with 0%nat.
        simpl take. rewrite app_nil_l, Nat.add_0_l.
        rewrite drop_ge; [by rewrite app_nil_r|].
        rewrite length_uninit. lia. }
    run_with ltac:(exact Hdec). reflexivity.
  - done.
  - rewrite Hother by done. simpl. apply lookup_insert_eq.
  - intros p Hpa Hpb. rewrite Hother by done. simpl. by rewrite lookup_insert_ne.
  - rewrite Hself. simpl. done.
Qed.

Lemma lean_string_hash_run st a rc sz cap len data :
  heap st !! a = Some (mkCell rc (LeanString sz cap len data)) →
  1 ≤ sz ≤ Z.of_nat (length data) → sz < 2 ^ 32 →
  lean_string_hash (lean_ptr a) st = Ok (hash_bytes (take (Z.to_nat (sz - 1)) data), st).
Proof.
  intros Ha Hsz Hbig. unfold lean_string_hash.
  run_with ltac:(by eapply lean_to_string_run).
  rewrite size_t_small by lia.
  run_with ltac:(apply bytes_at_run; lia). done.
Qed.

(** X14.  A string and its UTF-8 bytes hash alike: [lean_byte_array_hash]
    of the byte array [lean_string_to_utf8] makes from [s] is
    [lean_string_hash s], and [lean_slice_hash] is the same function. *)
Theorem string_hash_is_hash_of_utf8 (st : state) (a : positive)
    (rc sz cap len : Z) (data : list Z) :
  heap st !! a = Some (mkCell rc (LeanString sz cap len data)) →
  1 ≤ sz ≤ Z.of_nat (length data) → sz < 2 ^ 32 →
  ∃ h ba st',
    lean_string_hash (lean_ptr a) st = Ok (h, st) ∧
    lean_slice_hash (lean_ptr a) st = Ok (h, st) ∧
    lean_string_to_utf8 (lean_ptr a) st = Ok (ba, st') ∧
    lean_byte_array_hash ba st' = Ok (h, st').
Proof.
  intros Ha Hsz Hbig.
  destruct (lean_string_to_utf8_run st a rc sz cap len data Ha Hsz Hbig)
    as (ba & st' & Hrun & _ & Hcell & _).
  exists (hash_bytes (take (Z.to_nat (sz - 1)) data)), (lean_ptr ba), st'.
  split_and!; try done.
  - by eapply lean_string_hash_run.
  - by eapply lean_string_hash_run.
  - unfold lean_byte_array_hash.
    run_with ltac:(by eapply lean_to_sarray_run).
    run_with ltac:(apply bytes_at_run; [lia|lia|rewrite length_take; lia]).
    change (drop (Z.to_nat 0) ?l) with l. rewrite take_take.
    by replace (Z.to_nat (sz - 1) `min` Z.to_nat (sz - 1))%nat
      with (Z.to_nat (sz - 1)) by lia.
Qed.

Lemma string_hash_is_hash_of_utf8_witness :
  ∃ h ba st',
    lean_string_hash (lean_ptr 2) st_args = Ok (h, st_args) ∧
    lean_string_to_utf8 (lean_ptr 2) st_args = Ok (ba, st') ∧
    lean_byte_array_hash ba st' = Ok (h, st').
Proof.
  destruct (string_hash_is_hash_of_utf8 st_args 2%positive 1 5 5 4 (c_str "/tmp" ++ [0]))
    as (h & ba & st' & Hh & _ & Hrun & Hbh).
  - reflexivity.
  - simpl. lia.
  - lia.
  - by exists h, ba, st'.
Defined.

(** X15.  From a string to its bytes and back: [lean_string_to_utf8]
    yields a byte array with the text of [s] without its terminator, and
    [lean_string_from_utf8_unchecked] makes of it a new string, owned once,
    with the same text and terminator, its capacity equal to its size and
    its codepoint count recomputed from the bytes.  The byte array in
    between is freed again. *)
Theorem utf8_bytes_round_trip (st : state) (a : positive)
    (rc sz cap len : Z) (data : list Z) :
  heap st !! a = Some (mkCell rc (LeanString sz cap len data)) →
  1 ≤ sz ≤ Z.of_nat (length data) → sz < 2 ^ 31 →
  let text := take (Z.to_nat (sz - 1)) data in
  ∃ ba r st1 st2,
    lean_string_to_utf8 (lean_ptr a) st = Ok (lean_ptr ba, st1) ∧
    heap st1 !! ba = Some (mkCell 1 (LeanScalarArray (sz - 1) (sz - 1) text)) ∧
    lean_string_from_utf8_unchecked (lean_ptr ba) st1 = Ok (lean_ptr r, st2) ∧
    heap st2 !! r =
      Some (mkCell 1 (LeanString sz sz (lean_utf8_n_strlen text) (text ++ [0]))) ∧
    heap st2 !! ba = None.
Proof.
  intros Ha Hsz Hbig text.
  destruct (lean_string_to_utf8_run st a rc sz cap len data Ha Hsz ltac:(lia))
    as (ba & st1 & Hrun & _ & Hcell & _).
  fold text in Hcell.
  assert (Htl : length text = Z.to_nat (sz - 1)) by (subst text; rewrite length_take; lia).
  set (r := fresh_addr (heap st1)).
  assert (Hr : heap st1 !! r = None) by apply fresh_addr_fresh.
  assert (Hne : r ≠ ba) by (intros ->; congruence).
  set (scell := mkCell 1 (LeanString sz sz (lean_utf8_n_strlen text) (text ++ [0]))).
  set (st1' := upd_heap <[r := scell]> st1).
  destruct (lean_dec_childless st1' ba
              (mkCell 1 (LeanScalarArray (sz - 1) (sz - 1) text)))
    as (st2 & Hdec & Hother & Hself & _).
  { simpl. by rewrite lookup_insert_ne. }
  { done. }
  exists ba, r, st1, st2. split_and!; try done.
  - unfold lean_string_from_utf8_unchecked.
    run_with ltac:(by eapply lean_to_sarray_run).
    unfold lean_mk_string_from_bytes.
    rewrite (bind_assoc (bytes_at text 0 (sz - 1))).
    run_with ltac:(apply bytes_at_run; lia).
    change (drop (Z.to_nat 0) text) with text.
    rewrite (take_ge text) by lia.
    rewrite (bind_ok _ _ _ _ _
      (lean_mk_string_unchecked_run st1 text (sz - 1) _ ltac:(lia) ltac:(lia))).
    fold r. rewrite (take_ge text) by lia.
    replace (sz - 1 + 1) with sz by lia. fold scell st1'.
    run_with ltac:(exact Hdec). reflexivity.
  - rewrite Hother by done. simpl. apply lookup_insert_eq.
Qed.

Lemma utf8_bytes_round_trip_witness :
  ∃ ba r st1 st2,
    lean_string_to_utf8 (lean_ptr 2) st_args = Ok (lean_ptr ba, st1) ∧
    lean_string_from_utf8_unchecked (lean_ptr ba) st1 = Ok (lean_ptr r, st2) ∧
    heap st2 !! r = Some (mkCell 1 (LeanString 5 5 4 (c_str "/tmp" ++ [0]))).
Proof.
  destruct (utf8_bytes_round_trip st_args 2%positive 1 5 5 4 (c_str "/tmp" ++ [0]))
    as (ba & r & st1 & st2 & Hto & _ & Hfrom & Hcell & _).
  - reflexivity.
  - simpl. lia.
  - lia.
  - by exists ba, r, st1, st2.
Defined.

(** X16.  [lean_string_append s1 s2], for two different string objects,
    returns a string, owned once, whose text is the text of [s1] followed by
    the text of [s2] and its terminator; the byte size is the sum of the two
    sizes less one terminator and the codepoint count is the sum of the
    counts.  It is [s1] itself, updated in place, exactly when [s1] is
    exclusively owned and its buffer has room; otherwise it is a new object
    at an address that was not live, and [s1] is released: its count is one
    lower when others own it too, it is freed when the caller was its only
    owner, and it is left alone when it is immortal.  [s2] and every other
    cell are left as they were. *)
Theorem lean_string_append_concat (st : state) (a1 a2 : positive)
    (rc1 sz1 cap1 len1 rc2 sz2 cap2 len2 : Z) (data1 data2 : list Z) :
  heap st !! a1 = Some (mkCell rc1 (LeanString sz1 cap1 len1 data1)) →
  heap st !! a2 = Some (mkCell rc2 (LeanString sz2 cap2 len2 data2)) →
  a1 ≠ a2 →
  1 ≤ sz1 ≤ cap1 → cap1 = Z.of_nat (length data1) →
  1 ≤ sz2 ≤ Z.of_nat (length data2) →
  sz1 + sz2 < 2 ^ 30 → 0 ≤ len1 → 0 ≤ len2 → len1 + len2 < 2 ^ 32 →
  ∃ r st' cap' data',
    lean_string_append (lean_ptr a1) (lean_ptr a2) st = Ok (lean_ptr r, st') ∧
    heap st' !! r =
      Some (mkCell 1 (LeanString (sz1 + sz2 - 1) cap' (len1 + len2) data')) ∧
    take (Z.to_nat (sz1 + sz2 - 1)) data' =
      take (Z.to_nat (sz1 - 1)) data1 ++ take (Z.to_nat sz2) data2 ∧
    cap' = Z.of_nat (length data') ∧
    (r = a1 ↔ rc1 = 1 ∧ sz1 + sz2 - 1 ≤ cap1) ∧
    heap st' !! a2 = heap st !! a2 ∧
    (r ≠ a1 →
       heap st !! r = None ∧
       heap st' !! a1 =
         (if 1 <? rc1
          then Some (mkCell (rc1 - 1) (LeanString sz1 cap1 len1 data1))
          else if rc1 =? 1 then None
          else Some (mkCell rc1 (LeanString sz1 cap1 len1 data1)))) ∧
    (∀ p, p ≠ r → p ≠ a1 → heap st' !! p = heap st !! p).
Proof.
  intros Ha1 Ha2 Hne Hsz1 Hcap1 Hsz2 Hbig Hlen1 Hlen2 Hlen.
  unfold lean_string_append.
  run_with ltac:(by eapply lean_to_string_run).
  run_with ltac:(by eapply lean_to_string_run).
  rewrite (size_t_small (sz1 - 1)), (size_t_small (sz2 - 1)) by lia.
  replace (sz2 - 1 + 1) with sz2 by lia.
  replace (sz1 - 1 + (sz2 - 1) + 1) with (sz1 + sz2 - 1) by lia.
  rewrite (size_t_small (sz1 + sz2 - 1)), (size_t_small sz2),
    (size_t_small (len1 + len2)) by lia.
  run_with ltac:(unfold lean_is_exclusive, bind, load; by rewrite Ha1).
  change (m_rc (mkCell rc1 (LeanString sz1 cap1 len1 data1))) with rc1.
  set (src2 := take (Z.to_nat sz2) data2).
  assert (Hs2 : length src2 = Z.to_nat sz2) by (subst src2; rewrite length_take; lia).
  destruct ((rc1 =? 1) && (sz1 + sz2 - 1 <=? cap1)) eqn:Hcond.
  - apply andb_true_iff in Hcond as [Hrc Hfit].
    apply Z.eqb_eq in Hrc. apply Z.leb_le in Hfit. subst rc1.
    exists a1. eexists. exists cap1. eexists. split.
    { run_with ltac:(apply bytes_at_run; lia).
      change (drop (Z.to_nat 0) data2) with data2. fold src2.
      rewrite decide_False by congruence.
      run_with ltac:(reflexivity).
      run_with ltac:(apply write_bytes_splice; lia).
      run_with ltac:(by eapply set_body_run).
      reflexivity. }
    simpl. split_and!.
    + by rewrite lookup_insert_eq.
    + replace (Z.to_nat (sz1 + sz2 - 1)) with (Z.to_nat (sz1 - 1) + length src2)%nat
        by lia.
      by rewrite take_splice by lia.
    + rewrite length_splice; lia.
    + split; [intros _; lia|done].
    + by rewrite lookup_insert_ne.
    + done.
    + intros p Hp _. by rewrite lookup_insert_ne.
  - set (ncap := if sz1 + sz2 - 1 <? 16 then 16 else size_t ((sz1 + sz2 - 1) * 2)).
    assert (Hncap : sz1 + sz2 - 1 ≤ ncap < 2 ^ 32).
    { subst ncap. destruct (Z.ltb_spec (sz1 + sz2 - 1) 16); [lia|].
      rewrite size_t_small; lia. }
    set (r := fresh_addr (heap st)).
    assert (Hr : heap st !! r = None) by apply fresh_addr_fresh.
    assert (Hr1 : r ≠ a1) by (intros ->; congruence).
    assert (Hr2 : r ≠ a2) by (intros ->; congruence).
    set (fresh := map (uninit st) (seq 0 (Z.to_nat ncap))).
    assert (Hfl : length fresh = Z.to_nat ncap) by apply length_uninit.
    set (src1 := take (Z.to_nat (sz1 - 1)) data1).
    assert (Hs1 : length src1 = Z.to_nat (sz1 - 1))
      by (subst src1; rewrite length_take; lia).
    set (d1 := splice fresh (Z.to_nat 0) src1).
    assert (Hd1 : length d1 = Z.to_nat ncap) by (subst d1; rewrite length_splice; lia).
    set (d2 := splice d1 (Z.to_nat (sz1 - 1)) src2).
    assert (Hd2 : length d2 = Z.to_nat ncap) by (subst d2; rewrite length_splice; lia).
    set (cell := mkCell 1 (LeanString (sz1 + sz2 - 1) ncap (len1 + len2) d2)).
    set (st2 := upd_heap <[r := cell]> st).
    destruct (lean_dec_childless st2 a1 (mkCell rc1 (LeanString sz1 cap1 len1 data1)))
      as (st' & Hdec & Hother & Hself & _).
    { simpl. by rewrite lookup_insert_ne. }
    { done. }
    exists r, st', ncap, d2. split.
    { run_with ltac:(reflexivity). run_with ltac:(reflexivity).
      fold r fresh.
      run_with ltac:(apply bytes_at_run; lia).
      change (drop (Z.to_nat 0) data1) with data1. fold src1.
      run_with ltac:(apply write_bytes_splice; lia). fold d1.
      run_with ltac:(apply bytes_at_run; lia).
      change (drop (Z.to_nat 0) data2) with data2. fold src2.
      run_with ltac:(apply write_bytes_splice; lia). fold d2.
      run_with ltac:(eapply set_body_run; simpl; apply lookup_insert_eq).
      simpl m_rc. rewrite upd_heap_upd_heap.
      replace (upd_heap _ st) with st2.
      2:{ unfold st2, upd_heap. simpl. by rewrite insert_insert_eq. }
      run_with ltac:(exact Hdec). reflexivity. }
    split_and!.
    + rewrite Hother by done. simpl. apply lookup_insert_eq.
    + subst d2.
      replace (Z.to_nat (sz1 + sz2 - 1)) with (Z.to_nat (sz1 - 1) + length src2)%nat
        by lia.
      rewrite take_splice by lia. f_equal. subst d1.
      replace (Z.to_nat (sz1 - 1)) with (Z.to_nat 0 + length src1)%nat by lia.
      rewrite take_splice by lia. done.
    + lia.
    + split; [done|]. intros [-> Hfit].
      apply andb_false_iff in Hcond as [Hc|Hc]; [done|].
      apply Z.leb_gt in Hc. lia.
    + rewrite Hother by done. simpl. by rewrite lookup_insert_ne.
    + intros _. split; [done|]. exact Hself.
    + intros p Hpr Hp1. rewrite Hother by done. simpl. by rewrite lookup_insert_ne.
Qed.

(** "ab", exclusively owned, and "cd".  In a buffer of 16 bytes the result
    is the first object, now holding "abcd"; in a buffer of 3 bytes it is a
    new object and the first one is freed. *)
Lemma lean_string_append_concat_witness :
  (∃ st' cap' data',
     lean_string_append (lean_ptr 1) (lean_ptr 2)
       (mkState (<[2%positive := mkCell 1 (LeanString 3 3 2 (c_str "cd" ++ [0]))]>
                  (<[1%positive := mkCell 1 (LeanString 3 16 2
                                     (c_str "ab" ++ [0] ++ replicate 13 170))]> ∅))
                (fun _ => 170) NULL NULL 0 0) = Ok (lean_ptr 1, st') ∧
     heap st' !! 1%positive = Some (mkCell 1 (LeanString 5 cap' 4 data')) ∧
     take 5 data' = c_str "abcd" ++ [0]) ∧
  (∃ r st' cap' data',
     lean_string_append (lean_ptr 1) (lean_ptr 2)
       (mkState (<[2%positive := mkCell 1 (LeanString 3 3 2 (c_str "cd" ++ [0]))]>
                  (<[1%positive := mkCell 1 (LeanString 3 3 2 (c_str "ab" ++ [0]))]> ∅))
                (fun _ => 170) NULL NULL 0 0) = Ok (lean_ptr r, st') ∧
     heap st' !! r = Some (mkCell 1 (LeanString 5 cap' 4 data')) ∧
     take 5 data' = c_str "abcd" ++ [0] ∧
     r ≠ 1%positive ∧ heap st' !! 1%positive = None).
Proof.
  split.
  - destruct (lean_string_append_concat
      (mkState (<[2%positive := mkCell 1 (LeanString 3 3 2 (c_str "cd" ++ [0]))]>
                 (<[1%positive := mkCell 1 (LeanString 3 16 2
                                    (c_str "ab" ++ [0] ++ replicate 13 170))]> ∅))
               (fun _ => 170) NULL NULL 0 0)
      1%positive 2%positive 1 3 16 2 1 3 3 2
      (c_str "ab" ++ [0] ++ replicate 13 170) (c_str "cd" ++ [0]))
      as (r & st' & cap' & data' & Hrun & Hcell & Htake & _ & Hsame & _).
    + reflexivity.
    + reflexivity.
    + discriminate.
    + lia.
    + reflexivity.
    + simpl. lia.
    + lia.
    + lia.
    + lia.
    + lia.
    + assert (r = 1%positive) as -> by (apply Hsame; lia).
      exists st', cap', data'. split_and!; [exact Hrun|exact Hcell|exact Htake].
  - destruct (lean_string_append_concat
      (mkState (<[2%positive := mkCell 1 (LeanString 3 3 2 (c_str "cd" ++ [0]))]>
                 (<[1%positive := mkCell 1 (LeanString 3 3 2 (c_str "ab" ++ [0]))]> ∅))
               (fun _ => 170) NULL NULL 0 0)
      1%positive 2%positive 1 3 3 2 1 3 3 2
      (c_str "ab" ++ [0]) (c_str "cd" ++ [0]))
      as (r & st' & cap' & data' & Hrun & Hcell & Htake & _ & Hsame & _ & Hcopy & _).
    + reflexivity.
    + reflexivity.
    + discriminate.
    + lia.
    + reflexivity.
    + simpl. lia.
    + lia.
    + lia.
    + lia.
    + lia.
    + assert (Hr : r ≠ 1%positive) by (intros E; apply Hsame in E; lia).
      destruct (Hcopy Hr) as [_ Hfreed].
      exists r, st', cap', data'.
      split_and!; [exact Hrun|exact Hcell|exact Htake|exact Hr|exact Hfreed].
Defined.

(** *** What release leaves alone *)

Lemma bind_inv {A B} (m : M A) (k : A → M B) st b st' :
  (x <- m ;; k x) st = Ok (b, st') →
  ∃ a st1, m st = Ok (a, st1) ∧ k a st1 = Ok (b, st').
Proof.
  unfold bind. destruct (m st) as [[a st1]| | |]; try done. eauto.
Qed.

Lemma released_refl h : released h h.
Proof. split; [|done]. intros a c Hc. exists c. split_and!; [done|done|lia|done]. Qed.

Lemma released_trans h1 h2 h3 : released h1 h2 → released h2 h3 → released h1 h3.
Proof.
  intros [H12 I12] [H23 I23]. split.
  - intros a c3 Hc3. destruct (H23 a c3 Hc3) as (c2 & Hc2 & Hb2 & Hr2 & Hp2).
    destruct (H12 a c2 Hc2) as (c1 & Hc1 & Hb1 & Hr1 & Hp1).
    exists c1. split_and!; [done|congruence|lia|auto].
  - intros a c Hc Hrc. apply I23; [|done]. by apply I12.
Qed.

Lemma only_released_refl st : only_released st st.
Proof. split; [apply released_refl|done]. Qed.

Lemma only_released_trans st1 st2 st3 :
  only_released st1 st2 → only_released st2 st3 → only_released st1 st3.
Proof.
  intros (H12 & ? & ? & ? & ?) (H23 & ? & ? & ? & ?).
  split; [by eapply released_trans|]. split_and!; congruence.
Qed.

Lemma released_decrement h a c :
  h !! a = Some c → 1 < m_rc c → released h (<[a := set_rc (m_rc c - 1) c]> h).
Proof.
  intros Ha Hrc. split.
  - intros p c' Hp. destruct (decide (p = a)) as [->|Hne].
    + rewrite lookup_insert_eq in Hp. injection Hp as <-.
      exists c. split_and!; [done|done|simpl; lia|simpl; lia].
    + rewrite lookup_insert_ne in Hp by done.
      exists c'. split_and!; [done|done|lia|done].
  - intros p c' Hp Hz. destruct (decide (p = a)) as [->|Hne].
    + assert (c' = c) by congruence. subst. lia.
    + by rewrite lookup_insert_ne.
Qed.

Lemma released_free h a c :
  h !! a = Some c → m_rc c = 1 → released h (delete a h).
Proof.
  intros Ha Hrc. split.
  - intros p c' Hp. destruct (decide (p = a)) as [->|Hne].
    + by rewrite lookup_delete_eq in Hp.
    + rewrite lookup_delete_ne in Hp by done.
      exists c'. split_and!; [done|done|lia|done].
  - intros p c' Hp Hz. destruct (decide (p = a)) as [->|Hne].
    + assert (c' = c) by congruence. subst. lia.
    + by rewrite lookup_delete_ne.
Qed.

Lemma for_each_only_released {A} (f : A → M unit) xs : ∀ st st',
  (∀ x st st', f x st = Ok (tt, st') → only_released st st') →
  for_each f xs st = Ok (tt, st') → only_released st st'.
Proof.
  induction xs as [|x xs IH]; intros st st' Hf Hrun.
  - injection Hrun as <-. apply only_released_refl.
  - cbn [for_each] in Hrun.
    apply bind_inv in Hrun as ([] & st1 & Hx & Hrest).
    eapply only_released_trans; [by eapply Hf|by eapply IH].
Qed.

Lemma lean_dec_with_only_released cold o st st' :
  (∀ a st st', cold a st = Ok (tt, st') → only_released st st') →
  lean_dec_with cold o st = Ok (tt, st') → only_released st st'.
Proof.
  intros Hcold. destruct o as [|n|a]; cbn [lean_dec_with]; [done| |].
  - intros [= <-]. apply only_released_refl.
  - unfold lean_dec_ref_with. intros Hrun.
    apply bind_inv in Hrun as (c & st1 & Hload & Hrun).
    unfold load in Hload. destruct (heap st !! a) as [c0|] eqn:Ha; [|done].
    injection Hload as <- <-.
    destruct (Z.ltb_spec 1 (m_rc c0)).
    + unfold store in Hrun. rewrite Ha in Hrun. injection Hrun as <-.
      split; [|done]. simpl. by apply released_decrement.
    + destruct (m_rc c0 =? 0); [|by eapply Hcold].
      injection Hrun as <-. apply only_released_refl.
Qed.

Lemma lean_dec_ref_cold_only_released fuel : ∀ a st st',
  lean_dec_ref_cold fuel a st = Ok (tt, st') → only_released st st'.
Proof.
  induction fuel as [|fuel IH]; intros a st st' Hrun; [done|].
  cbn [lean_dec_ref_cold] in Hrun.
  apply bind_inv in Hrun as ([] & st1 & Henter & Hrun).
  injection Henter as <-.
  apply bind_inv in Hrun as (c & st2 & Hload & Hrun).
  unfold load in Hload. simpl heap in Hload.
  destruct (heap st !! a) as [c0|] eqn:Ha; [|done].
  injection Hload as <- <-.
  apply bind_inv in Hrun as ([] & st3 & Hbody & Hleave).
  injection Hleave as <-.
  assert (Hdec : ∀ x s s', lean_dec_with (lean_dec_ref_cold fuel) x s = Ok (tt, s') →
                           only_released s s').
  { intros x s s'. apply lean_dec_with_only_released. apply IH. }
  set (st1 := mkState (heap st) (uninit st) (l_Array_empty st) (l_ByteArray_empty st)
                      (S (frames st)) (Nat.max (peak_frames st) (S (frames st)))) in *.
  assert (Hgoal : only_released st1 st3 →
    only_released st (mkState (heap st3) (uninit st3) (l_Array_empty st3)
                              (l_ByteArray_empty st3) (Nat.pred (frames st3))
                              (peak_frames st3))).
  { intros (Hrel & Hu & Hg1 & Hg2 & Hf). split; [exact Hrel|].
    simpl in *. rewrite Hf. by split_and!. }
  apply Hgoal. clear Hgoal.
  destruct (Z.eqb_spec (m_rc c0) 1) as [Hrc|Hrc].
  2:{ injection Hbody as <-. apply only_released_refl. }
  apply bind_inv in Hbody as ([] & st4 & Hchildren & Hfree).
  assert (Hst4 : only_released st1 st4).
  { destruct (m_body c0) as [tag objs|fn ar objs|sz cap data|sz cap data|sz cap len data|v].
    - by eapply for_each_only_released.
    - by eapply for_each_only_released.
    - apply bind_inv in Hchildren as (children & st5 & Hslots & Hchildren).
      unfold slots in Hslots. destruct (_ && _); [|done].
      injection Hslots as <- <-. by eapply for_each_only_released.
    - injection Hchildren as <-. apply only_released_refl.
    - injection Hchildren as <-. apply only_released_refl.
    - destruct v; [injection Hchildren as <-; apply only_released_refl| |];
        by eapply Hdec. }
  eapply only_released_trans; [exact Hst4|].
  unfold lean_free_object in Hfree.
  destruct (heap st4 !! a) as [c4|] eqn:Ha4; [|done].
  injection Hfree as <-. split; [|done]. simpl.
  destruct Hst4 as ([Hlive _] & _).
  destruct (Hlive a c4 Ha4) as (c1 & Hc1 & _ & Hle & Hpos).
  simpl in Hc1. assert (c1 = c0) by congruence. subst c1.
  apply (released_free _ _ c4); [done|lia].
Qed.

(** X17.  Release only releases.  Whatever object [lean_dec] is given,
    when it returns no cell is new, no surviving cell has another payload or
    a larger count, no positive count has dropped to zero, and the immortal
    cells (count 0) are exactly as they were; the rest of the state, the
    depth of the native stack included, is as before.  It never ends in
    [abort()]. *)
Theorem lean_dec_only_releases (o : lean_obj) (st st' : state) :
  lean_dec o st = Ok (tt, st') →
  (∀ a c', heap st' !! a = Some c' →
     ∃ c, heap st !! a = Some c ∧ m_body c' = m_body c ∧
          m_rc c' ≤ m_rc c ∧ (0 < m_rc c → 0 < m_rc c')) ∧
  (∀ a c, heap st !! a = Some c → m_rc c = 0 → heap st' !! a = Some c) ∧
  uninit st' = uninit st ∧
  l_Array_empty st' = l_Array_empty st ∧
  l_ByteArray_empty st' = l_ByteArray_empty st ∧
  frames st' = frames st ∧
  ∀ msg, lean_dec o st ≠ Abort msg.
Proof.
  intros Hrun.
  assert (Hrel : only_released st st').
  { unfold lean_dec in Hrun. eapply lean_dec_with_only_released; [|exact Hrun].
    apply lean_dec_ref_cold_only_released. }
  destruct Hrel as ([Hlive Himm] & Hu & Hg1 & Hg2 & Hf).
  split_and!; try done.
  - intros a c Ha Hrc. apply Himm; [done|lia].
  - intros msg. rewrite Hrun. done.
Qed.

(** Releasing the array of [st_nested] frees it and the record inside it,
    and leaves the immortal byte array alone. *)
Lemma lean_dec_only_releases_witness :
  ∃ st',
    lean_dec (lean_ptr 2) st_nested = Ok (tt, st') ∧
    heap st' !! 3%positive = Some (mkCell 0 (LeanScalarArray 1 1 [7])) ∧
    frames st' = 0%nat.
Proof.
  destruct (lean_dec (lean_ptr 2) st_nested) as [[[] st']| | |] eqn:Hrun;
    try (vm_compute in Hrun; discriminate).
  exists st'. split; [reflexivity|].
  destruct (lean_dec_only_releases (lean_ptr 2) st_nested st' Hrun)
    as (_ & Himm & _ & _ & _ & Hf & _).
  split; [|exact Hf].
  apply Himm; reflexivity.
Defined.

(** Retain and release cancel: [lean_inc] followed by [lean_dec] on
    a scalar, on an immortal object or on a live object leaves the whole
    state as it was. *)
Theorem lean_inc_then_dec (o : lean_obj) (st : state) :
  valid_ref (heap st) o →
  (lean_inc o ;; lean_dec o) st = Ok (tt, st).
Proof.
  intros Hv. rewrite (bind_ok _ _ _ _ _ (lean_inc_run st o Hv)).
  destruct o as [|n|a]; [done|by destruct st|].
  destruct Hv as (c & Ha & Hrc).
  unfold lean_dec. cbn [lean_dec_with]. unfold lean_dec_ref_with.
  unfold retain, upd_heap. simpl heap. rewrite Ha.
  destruct (Z.ltb_spec 0 (m_rc c)) as [Hpos|Hzero].
  - unfold bind, load, store. simpl heap. rewrite lookup_insert_eq.
    change (m_rc (set_rc (m_rc c + 1) c)) with (m_rc c + 1).
    destruct (Z.ltb_spec 1 (m_rc c + 1)); [|lia].
    simpl heap. rewrite lookup_insert_eq. unfold upd_heap. simpl.
    rewrite insert_insert_eq. unfold set_rc. simpl.
    replace (m_rc c + 1 - 1) with (m_rc c) by lia.
    destruct c as [rc body]. simpl. rewrite insert_id by done. by destruct st.
  - unfold bind, load. simpl heap. rewrite Ha.
    destruct (Z.ltb_spec 1 (m_rc c)); [lia|].
    destruct (Z.eqb_spec (m_rc c) 0); [|lia]. by destruct st.
Qed.

Lemma lean_inc_then_dec_witness :
  (lean_inc (lean_ptr 1) ;; lean_dec (lean_ptr 1)) st_nested = Ok (tt, st_nested).
Proof.
  apply (lean_inc_then_dec (lean_ptr 1) st_nested).
  exists (mkCell 1 (LeanCtor 0 [lean_box 5])). split; [reflexivity|simpl; lia].
Defined.

(** *** Mutable references *)

Lemma lean_to_ref_run st r rc v :
  heap st !! r = Some (mkCell rc (LeanRef v)) →
  lean_to_ref (lean_ptr r) st = Ok (v, st).
Proof. intros H. unfold lean_to_ref, bind, load. by rewrite H. Qed.

(** X18.  A mutable reference hands back what was put into it.
    [lean_st_mk_ref a] makes a cell, owned once, that holds [a].
    [lean_st_ref_swap r v] returns the value the cell held and leaves [v] in
    it; [lean_st_ref_take r] returns the value and leaves the scalar 0; in
    both the counts of the values are not touched, the reference moves.
    [lean_st_ref_get r] returns the value with its count raised by one and
    leaves the cell as it is.  [lean_st_ref_set r v] on a cell that holds a
    scalar — as after [take] — stores [v], and [get] then returns [v].
    Every result is wrapped in a fresh success result. *)
Theorem st_ref_round_trip (st : state) :
  (∀ a, ∃ r res,
     heap st !! r = None ∧ heap st !! res = None ∧ r ≠ res ∧
     lean_st_mk_ref a st =
       Ok (lean_ptr res,
           upd_heap (fun h => <[res := mkCell 1 (LeanCtor 0 [lean_ptr r])]>
                                (<[r := mkCell 1 (LeanRef a)]> h)) st)) ∧
  (∀ r rc old v, heap st !! r = Some (mkCell rc (LeanRef old)) →
     ∃ res,
       heap st !! res = None ∧
       lean_st_ref_swap (lean_ptr r) v st =
         Ok (lean_ptr res,
             upd_heap (fun h => <[res := mkCell 1 (LeanCtor 0 [old])]>
                                  (<[r := mkCell rc (LeanRef v)]> h)) st)) ∧
  (∀ r rc old, heap st !! r = Some (mkCell rc (LeanRef old)) →
     ∃ res,
       heap st !! res = None ∧
       lean_st_ref_take (lean_ptr r) st =
         Ok (lean_ptr res,
             upd_heap (fun h => <[res := mkCell 1 (LeanCtor 0 [old])]>
                                  (<[r := mkCell rc (LeanRef (lean_box 0))]> h)) st)) ∧
  (∀ r rc v, heap st !! r = Some (mkCell rc (LeanRef v)) →
     valid_ref (heap st) v →
     ∃ res,
       heap st !! res = None ∧
       lean_st_ref_get (lean_ptr r) st =
         Ok (lean_ptr res,
             upd_heap (fun h => <[res := mkCell 1 (LeanCtor 0 [v])]> (retain v h)) st)) ∧
  (∀ r rc n v, heap st !! r = Some (mkCell rc (LeanRef (lean_box n))) →
     valid_ref (heap st) v → v ≠ lean_ptr r →
     ∃ res1 res2 st1 st2,
       lean_st_ref_set (lean_ptr r) v st = Ok (lean_ptr res1, st1) ∧
       heap st1 !! r = Some (mkCell rc (LeanRef v)) ∧
       heap st1 !! res1 = Some (mkCell 1 (LeanCtor 0 [lean_box 0])) ∧
       lean_st_ref_get (lean_ptr r) st1 = Ok (lean_ptr res2, st2) ∧
       heap st2 !! res2 = Some (mkCell 1 (LeanCtor 0 [v]))).
Proof.
  split_and!.
  - intros a.
    set (r := fresh_addr (heap st)).
    set (h1 := <[r := mkCell 1 (LeanRef a)]> (heap st)).
    exists r, (fresh_addr h1).
    assert (Hr : heap st !! r = None) by apply fresh_addr_fresh.
    assert (Hres : h1 !! fresh_addr h1 = None) by apply fresh_addr_fresh.
    assert (Hne : r ≠ fresh_addr h1).
    { intros Heq. rewrite <- Heq in Hres. unfold h1 in Hres.
      by rewrite lookup_insert_eq in Hres. }
    split_and!; try done.
    { unfold h1 in Hres. by rewrite lookup_insert_ne in Hres. }
    unfold lean_st_mk_ref.
    run_with ltac:(reflexivity). fold r.
    run_with ltac:(eapply set_body_run; simpl; apply lookup_insert_eq).
    rewrite upd_heap_upd_heap. rewrite lean_io_result_mk_ok_run.
    unfold upd_heap. simpl. rewrite insert_insert_eq. done.
  - intros r rc old v Hr.
    set (h1 := <[r := mkCell rc (LeanRef v)]> (heap st)).
    exists (fresh_addr h1). split.
    { pose proof (fresh_addr_fresh h1) as Hf. unfold h1 in Hf.
      destruct (decide (fresh_addr h1 = r)) as [Heq|Hne].
      - fold h1 in Hf. rewrite Heq in Hf. unfold h1 in Hf.
        by rewrite lookup_insert_eq in Hf.
      - by rewrite lookup_insert_ne in Hf. }
    unfold lean_st_ref_swap.
    run_with ltac:(by eapply lean_to_ref_run).
    run_with ltac:(by eapply set_body_run).
    rewrite lean_io_result_mk_ok_run. done.
  - intros r rc old Hr.
    set (h1 := <[r := mkCell rc (LeanRef (lean_box 0))]> (heap st)).
    exists (fresh_addr h1). split.
    { pose proof (fresh_addr_fresh h1) as Hf. unfold h1 in Hf.
      destruct (decide (fresh_addr h1 = r)) as [Heq|Hne].
      - fold h1 in Hf. rewrite Heq in Hf. unfold h1 in Hf.
        by rewrite lookup_insert_eq in Hf.
      - by rewrite lookup_insert_ne in Hf. }
    unfold lean_st_ref_take.
    run_with ltac:(by eapply lean_to_ref_run).
    run_with ltac:(by eapply set_body_run).
    rewrite lean_io_result_mk_ok_run. done.
  - intros r rc v Hr Hv.
    set (h1 := retain v (heap st)).
    exists (fresh_addr h1). split.
    { pose proof (fresh_addr_fresh h1) as Hf. unfold h1 in Hf.
      rewrite retain_lookup in Hf.
      destruct (decide _); [|done]. fold h1 in Hf.
      by destruct (heap st !! fresh_addr h1). }
    unfold lean_st_ref_get.
    run_with ltac:(by eapply lean_to_ref_run).
    run_with ltac:(by apply lean_inc_run).
    rewrite lean_io_result_mk_ok_run. done.
  - intros r rc n v Hr Hv Hvr.
    set (st0 := upd_heap <[r := mkCell rc (LeanRef v)]> st).
    set (res1 := fresh_addr (heap st0)).
    set (st1 := upd_heap <[res1 := mkCell 1 (LeanCtor 0 [lean_box 0])]> st0).
    assert (Hres1 : heap st0 !! res1 = None) by apply fresh_addr_fresh.
    assert (Hne1 : res1 ≠ r).
    { intros Heq. rewrite Heq in Hres1. unfold st0 in Hres1. simpl in Hres1.
      by rewrite lookup_insert_eq in Hres1. }
    assert (Hr1 : heap st1 !! r = Some (mkCell rc (LeanRef v))).
    { simpl. rewrite lookup_insert_ne by done. apply lookup_insert_eq. }
    assert (Hv1 : valid_ref (heap st1) v).
    { simpl. apply valid_ref_insert_fresh; [|done].
      destruct v as [|m|p]; [done|done|].
      destruct Hv as (c & Hc & Hrc). exists c. split; [|done].
      rewrite lookup_insert_ne by congruence. done. }
    set (h2 := retain v (heap st1)).
    exists res1, (fresh_addr h2), st1,
      (upd_heap (fun h => <[fresh_addr h2 := mkCell 1 (LeanCtor 0 [v])]> (retain v h)) st1).
    split_and!.
    + unfold lean_st_ref_set.
      run_with ltac:(by eapply lean_to_ref_run).
      run_with ltac:(by eapply set_body_run).
      fold st0. run_with ltac:(reflexivity).
      rewrite lean_io_result_mk_ok_run. done.
    + done.
    + simpl. apply lookup_insert_eq.
    + unfold lean_st_ref_get.
      run_with ltac:(by eapply lean_to_ref_run).
      run_with ltac:(by apply lean_inc_run).
      rewrite lean_io_result_mk_ok_run. done.
    + simpl. apply lookup_insert_eq.
Qed.

(** A cell that holds the scalar 7: after [swap] with the scalar 9 the
    result carries 7 and the cell holds 9. *)
Lemma st_ref_round_trip_witness :
  ∃ res st',
    lean_st_ref_swap (lean_ptr 1) (lean_box 9)
      (mkState (<[1%positive := mkCell 1 (LeanRef (lean_box 7))]> ∅)
               (fun _ => 170) NULL NULL 0 0) = Ok (lean_ptr res, st') ∧
    heap st' !! res = Some (mkCell 1 (LeanCtor 0 [lean_box 7])) ∧
    heap st' !! 1%positive = Some (mkCell 1 (LeanRef (lean_box 9))).
Proof.
  destruct (proj1 (proj2 (st_ref_round_trip
    (mkState (<[1%positive := mkCell 1 (LeanRef (lean_box 7))]> ∅)
             (fun _ => 170) NULL NULL 0 0)))
    1%positive 1 (lean_box 7) (lean_box 9)) as (res & Hfresh & Hrun).
  - reflexivity.
  - eexists res, _. split; [exact Hrun|]. simpl. split.
    + apply lookup_insert_eq.
    + rewrite lookup_insert_ne; [reflexivity|].
      intros ->. simpl in Hfresh. by rewrite lookup_insert_eq in Hfresh.
Defined.

(** *** Byte arrays *)

Lemma memcpy_sarray_run st a rc sz cap data off src :
  heap st !! a = Some (mkCell rc (LeanScalarArray sz cap data)) →
  0 ≤ off → off + Z.of_nat (length src) ≤ Z.of_nat (length data) →
  memcpy_sarray (lean_ptr a) off src st =
    Ok (tt, upd_heap <[a := mkCell rc (LeanScalarArray sz cap
                                        (splice data (Z.to_nat off) src))]> st).
Proof.
  intros Ha Hoff Hfit. unfold memcpy_sarray.
  run_with ltac:(by eapply lean_to_sarray_run).
  run_with ltac:(by apply write_bytes_splice).
  by rewrite (set_body_run _ _ _ _ Ha).
Qed.

Lemma lean_alloc_sarray_run st sz cap :
  lean_alloc_sarray 1 sz cap st =
    Ok (lean_ptr (fresh_addr (heap st)),
        upd_heap <[fresh_addr (heap st) :=
                     mkCell 1 (LeanScalarArray sz cap
                                 (map (uninit st) (seq 0 (Z.to_nat cap))))]> st).
Proof.
  unfold lean_alloc_sarray, bind, uninit_bytes, lean_alloc_object.
  by replace (1 * cap) with cap by lia.
Qed.

(** X19.  [lean_byte_array_push a b] returns a byte array, owned once,
    that holds the bytes of [a] followed by [b]; its size is one more.  It
    is [a] itself, written in place, exactly when [a] is exclusively owned
    and has spare capacity; otherwise it is a new array of capacity 8 (for
    fewer than 4 bytes) or twice the old size, at an address that was not
    live, and [a] is released: its count is one lower when others own it
    too, it is freed when the caller was its only owner, and it is left
    alone when it is immortal.  No other cell changes. *)
Theorem lean_byte_array_push_appends (st : state) (a : positive)
    (rc sz cap : Z) (data : list Z) (b : Z) :
  heap st !! a = Some (mkCell rc (LeanScalarArray sz cap data)) →
  0 ≤ sz ≤ cap → cap = Z.of_nat (length data) → sz < 2 ^ 30 → 0 ≤ b < 256 →
  ∃ r st' cap' data',
    lean_byte_array_push (lean_ptr a) b st = Ok (lean_ptr r, st') ∧
    heap st' !! r = Some (mkCell 1 (LeanScalarArray (sz + 1) cap' data')) ∧
    take (Z.to_nat (sz + 1)) data' = take (Z.to_nat sz) data ++ [b] ∧
    cap' = Z.of_nat (length data') ∧
    (r = a ↔ rc = 1 ∧ sz < cap) ∧
    (r ≠ a → cap' = if sz <? 4 then 8 else sz * 2) ∧
    (r ≠ a →
       heap st !! r = None ∧
       heap st' !! a =
         (if 1 <? rc then Some (mkCell (rc - 1) (LeanScalarArray sz cap data))
          else if rc =? 1 then None
          else Some (mkCell rc (LeanScalarArray sz cap data)))) ∧
    (∀ p, p ≠ r → p ≠ a → heap st' !! p = heap st !! p).
Proof.
  intros Ha Hsz Hcap Hbig Hb.
  unfold lean_byte_array_push.
  run_with ltac:(by eapply lean_to_sarray_run).
  run_with ltac:(unfold lean_is_exclusive, bind, load; by rewrite Ha).
  change (m_rc (mkCell rc (LeanScalarArray sz cap data))) with rc.
  unfold uint8_t. rewrite (Z.mod_small b) by lia.
  rewrite (size_t_small (sz + 1)) by lia.
  destruct ((rc =? 1) && (sz <? cap)) eqn:Hcond.
  - apply andb_true_iff in Hcond as [Hrc Hfit].
    apply Z.eqb_eq in Hrc. apply Z.ltb_lt in Hfit. subst rc.
    exists a. eexists. exists cap. eexists. split.
    { run_with ltac:(apply write_bytes_splice; simpl; lia).
      run_with ltac:(by eapply set_body_run).
      reflexivity. }
    simpl. split_and!.
    + by rewrite lookup_insert_eq.
    + replace (Z.to_nat (sz + 1)) with (Z.to_nat sz + length [b])%nat by (simpl; lia).
      by rewrite take_splice by lia.
    + rewrite length_splice; simpl; lia.
    + tauto.
    + done.
    + done.
    + intros p Hp _. by rewrite lookup_insert_ne.
  - set (ncap := if sz <? 4 then 8 else size_t (sz * 2)).
    assert (Hncap : ncap = if sz <? 4 then 8 else sz * 2).
    { subst ncap. destruct (sz <? 4); [done|]. rewrite size_t_small; lia. }
    assert (Hnc : sz + 1 ≤ ncap < 2 ^ 32).
    { rewrite Hncap. destruct (Z.ltb_spec sz 4); lia. }
    set (r := fresh_addr (heap st)).
    assert (Hr : heap st !! r = None) by apply fresh_addr_fresh.
    assert (Hra : r ≠ a) by (intros ->; congruence).
    set (fresh := map (uninit st) (seq 0 (Z.to_nat ncap))).
    assert (Hfl : length fresh = Z.to_nat ncap) by apply length_uninit.
    set (old := take (Z.to_nat sz) data).
    assert (Hol : length old = Z.to_nat sz) by (subst old; rewrite length_take; lia).
    set (d1 := splice fresh (Z.to_nat 0) old).
    assert (Hd1 : length d1 = Z.to_nat ncap) by (subst d1; rewrite length_splice; lia).
    set (d2 := splice d1 (Z.to_nat sz) [b]).
    assert (Hd2 : length d2 = Z.to_nat ncap)
      by (subst d2; rewrite length_splice; simpl; lia).
    set (cell := mkCell 1 (LeanScalarArray (sz + 1) ncap d2)).
    set (st2 := upd_heap <[r := cell]> st).
    destruct (lean_dec_childless st2 a (mkCell rc (LeanScalarArray sz cap data)))
      as (st' & Hdec & Hother & Hself & _).
    { simpl. by rewrite lookup_insert_ne. }
    { done. }
    exists r, st', ncap, d2. split.
    { run_with ltac:(apply lean_alloc_sarray_run). fold r fresh.
      run_with ltac:(apply bytes_at_run; lia).
      change (drop (Z.to_nat 0) data) with data. fold old.
      run_with ltac:(eapply memcpy_sarray_run;
                     [simpl; apply lookup_insert_eq|lia|lia]).
      fold d1. rewrite upd_heap_upd_heap.
      run_with ltac:(eapply memcpy_sarray_run;
                     [simpl; apply lookup_insert_eq|lia|simpl; lia]).
      fold d2. rewrite upd_heap_upd_heap.
      replace (upd_heap _ st) with st2.
      2:{ unfold st2, upd_heap. simpl. by rewrite !insert_insert_eq. }
      run_with ltac:(exact Hdec). reflexivity. }
    split_and!.
    + rewrite Hother by done. simpl. apply lookup_insert_eq.
    + subst d2.
      replace (Z.to_nat (sz + 1)) with (Z.to_nat sz + length [b])%nat by (simpl; lia).
      rewrite take_splice by lia. f_equal. subst d1.
      replace (Z.to_nat sz) with (Z.to_nat 0 + length old)%nat by lia.
      by rewrite take_splice by lia.
    + lia.
    + split; [done|]. intros [-> Hfit].
      apply andb_false_iff in Hcond as [Hc|Hc]; [done|].
      apply Z.ltb_ge in Hc. lia.
    + done.
    + intros _. split; [done|]. exact Hself.
    + intros p Hpr Hpa. rewrite Hother by done. simpl. by rewrite lookup_insert_ne.
Qed.

(** The array [1 2 3] with one spare byte, exclusively owned: 4 is written
    in place.  Shared by two owners, it is copied. *)
Lemma lean_byte_array_push_appends_witness :
  (∃ st' cap' data',
     lean_byte_array_push (lean_ptr 1) 4 (st_two_arrays 1) = Ok (lean_ptr 1, st') ∧
     heap st' !! 1%positive = Some (mkCell 1 (LeanScalarArray 4 cap' data')) ∧
     take 4 data' = [1; 2; 3; 4]) ∧
  (∃ r st' cap' data',
     lean_byte_array_push (lean_ptr 1) 4 (st_two_arrays 2) = Ok (lean_ptr r, st') ∧
     r ≠ 1%positive ∧
     heap st' !! r = Some (mkCell 1 (LeanScalarArray 4 cap' data')) ∧
     take 4 data' = [1; 2; 3; 4]).
Proof.
  split.
  - destruct (lean_byte_array_push_appends (st_two_arrays 1) 1%positive 1 3 4
                [1; 2; 3; 170] 4)
      as (r & st' & cap' & data' & Hrun & Hcell & Htake & _ & Hsame & _).
    + reflexivity.
    + lia.
    + reflexivity.
    + lia.
    + lia.
    + assert (r = 1%positive) as -> by (apply Hsame; lia).
      by exists st', cap', data'.
  - destruct (lean_byte_array_push_appends (st_two_arrays 2) 1%positive 2 3 4
                [1; 2; 3; 170] 4)
      as (r & st' & cap' & data' & Hrun & Hcell & Htake & _ & Hsame & _).
    + reflexivity.
    + lia.
    + reflexivity.
    + lia.
    + lia.
    + exists r, st', cap', data'. split_and!; try done.
      intros Heq. apply Hsame in Heq. lia.
Defined.

(** X20.  [lean_byte_array_copy_slice src srcOff dst dstOff len exact]
    clamps the source range to the source and the target offset to the
    target, and returns a byte array, owned once, that holds the first
    [dstOff] bytes of [dst], then the source range, then what [dst] had
    beyond it; its size is the larger of the old size and the end of the
    copy.  It is [dst] itself exactly when [dst] is exclusively owned and its
    capacity suffices; otherwise it is a new array — of exactly the new size
    when [exact] is set — at an address that was not live, and [dst] is
    released: its count is one lower when others own it too, it is freed
    when the caller was its only owner, and it is left alone when it is
    immortal.  No other cell changes. *)
Theorem lean_byte_array_copy_slice_splices (st : state) (s d : positive)
    (rcs ssz scap rcd dsz dcap : Z) (sdata ddata : list Z)
    (srcOff dstOff len exact : Z) :
  heap st !! s = Some (mkCell rcs (LeanScalarArray ssz scap sdata)) →
  heap st !! d = Some (mkCell rcd (LeanScalarArray dsz dcap ddata)) →
  0 ≤ ssz ≤ Z.of_nat (length sdata) → ssz < 2 ^ 30 →
  0 ≤ dsz ≤ dcap → dcap = Z.of_nat (length ddata) → dsz < 2 ^ 30 →
  0 ≤ srcOff < 2 ^ 31 → 0 ≤ dstOff < 2 ^ 31 → 0 ≤ len < 2 ^ 31 →
  let ss := Z.min srcOff ssz in
  let n := Z.min len (ssz - ss) in
  let ds := Z.min dstOff dsz in
  let new_sz := Z.max (ds + n) dsz in
  ∃ r st' cap' data',
    lean_byte_array_copy_slice (lean_ptr s) (lean_box srcOff) (lean_ptr d)
        (lean_box dstOff) (lean_box len) exact st = Ok (lean_ptr r, st') ∧
    heap st' !! r = Some (mkCell 1 (LeanScalarArray new_sz cap' data')) ∧
    take (Z.to_nat new_sz) data' =
      take (Z.to_nat ds) ddata ++ take (Z.to_nat n) (drop (Z.to_nat ss) sdata) ++
      take (Z.to_nat (new_sz - ds - n)) (drop (Z.to_nat (ds + n)) ddata) ∧
    cap' = Z.of_nat (length data') ∧
    (r = d ↔ rcd = 1 ∧ new_sz ≤ dcap) ∧
    (r ≠ d → exact ≠ 0 → cap' = new_sz) ∧
    (r ≠ d →
       heap st !! r = None ∧
       heap st' !! d =
         (if 1 <? rcd then Some (mkCell (rcd - 1) (LeanScalarArray dsz dcap ddata))
          else if rcd =? 1 then None
          else Some (mkCell rcd (LeanScalarArray dsz dcap ddata)))) ∧
    (∀ p, p ≠ r → p ≠ d → heap st' !! p = heap st !! p).
Proof.
  intros Hs Hd Hssz Hsbig Hdsz Hdcap Hdbig Hso Hdo Hlen ss n ds new_sz.
  unfold lean_byte_array_copy_slice.
  run_with ltac:(by eapply lean_to_sarray_run).
  cbn [lean_unbox]. rewrite !(size_t_small srcOff), !(size_t_small dstOff),
    !(size_t_small len) by lia.
  replace (if ssz <? srcOff then ssz else srcOff) with ss
    by (subst ss; destruct (Z.ltb_spec ssz srcOff); lia).
  rewrite (size_t_small (ss + len)) by lia.
  rewrite (size_t_small (ssz - ss)) by lia.
  replace (if ssz <? ss + len then ssz - ss else len) with n
    by (subst n; destruct (Z.ltb_spec ssz (ss + len)); lia).
  run_with ltac:(by eapply lean_to_sarray_run).
  replace (if dsz <? dstOff then dsz else dstOff) with ds
    by (subst ds; destruct (Z.ltb_spec dsz dstOff); lia).
  rewrite !(size_t_small (ds + n)) by lia.
  replace (if ds + n <? dsz then dsz else ds + n) with new_sz
    by (subst new_sz; destruct (Z.ltb_spec (ds + n) dsz); lia).
  run_with ltac:(unfold lean_is_exclusive, bind, load; by rewrite Hd).
  change (m_rc (mkCell rcd (LeanScalarArray dsz dcap ddata))) with rcd.
  set (head := take (Z.to_nat ds) ddata).
  set (mid := take (Z.to_nat n) (drop (Z.to_nat ss) sdata)).
  set (tail := take (Z.to_nat (new_sz - ds - n)) (drop (Z.to_nat (ds + n)) ddata)).
  assert (Hhl : length head = Z.to_nat ds) by (subst head; rewrite length_take; lia).
  assert (Hml : length mid = Z.to_nat n)
    by (subst mid; rewrite length_take, length_drop; lia).
  assert (Htl : length tail = Z.to_nat (new_sz - ds - n))
    by (subst tail; rewrite length_take, length_drop; lia).
  destruct (negb (rcd =? 1) || (dcap <? new_sz)) eqn:Hcond.
  - (* copy *)
    set (ncap := if negb (exact =? 0) then new_sz
                 else if new_sz <? 8 then 8 else size_t (new_sz * 2)).
    assert (Hnc : new_sz ≤ ncap < 2 ^ 32).
    { subst ncap. destruct (negb (exact =? 0)); [lia|].
      destruct (Z.ltb_spec new_sz 8); [lia|]. rewrite size_t_small; lia. }
    set (r := fresh_addr (heap st)).
    assert (Hr : heap st !! r = None) by apply fresh_addr_fresh.
    assert (Hrd : r ≠ d) by (intros ->; congruence).
    set (fresh := map (uninit st) (seq 0 (Z.to_nat ncap))).
    assert (Hfl : length fresh = Z.to_nat ncap) by apply length_uninit.
    set (d1 := splice fresh (Z.to_nat 0) head).
    assert (Hd1 : length d1 = Z.to_nat ncap) by (subst d1; rewrite length_splice; lia).
    set (d2 := splice d1 (Z.to_nat ds) mid).
    assert (Hd2 : length d2 = Z.to_nat ncap) by (subst d2; rewrite length_splice; lia).
    set (d3 := if ds + n <? new_sz then splice d2 (Z.to_nat (ds + n)) tail else d2).
    assert (Hd3 : length d3 = Z.to_nat ncap).
    { subst d3. destruct (ds + n <? new_sz); [rewrite length_splice; lia|done]. }
    set (cell := mkCell 1 (LeanScalarArray new_sz ncap d3)).
    set (st2 := upd_heap <[r := cell]> st).
    destruct (lean_dec_childless st2 d (mkCell rcd (LeanScalarArray dsz dcap ddata)))
      as (st' & Hdec & Hother & Hself & _).
    { simpl. by rewrite lookup_insert_ne. }
    { done. }
    exists r, st', ncap, d3. split.
    { run_with ltac:(apply lean_alloc_sarray_run). fold r fresh.
      run_with ltac:(apply bytes_at_run; lia).
      change (drop (Z.to_nat 0) ddata) with ddata. fold head.
      run_with ltac:(eapply memcpy_sarray_run;
                     [simpl; apply lookup_insert_eq|lia|lia]).
      fold d1. rewrite upd_heap_upd_heap.
      run_with ltac:(apply bytes_at_run; lia). fold mid.
      run_with ltac:(eapply memcpy_sarray_run;
                     [simpl; apply lookup_insert_eq|lia|lia]).
      fold d2. rewrite upd_heap_upd_heap.
      assert (Htail : (if ds + n <? new_sz
                       then tail0 <- bytes_at ddata (ds + n) (size_t (new_sz - ds - n)) ;;
                            memcpy_sarray (lean_ptr r) (ds + n) tail0
                       else ret tt)
                (upd_heap (<[r := mkCell 1 (LeanScalarArray new_sz ncap d2)]>
                           ∘ <[r := mkCell 1 (LeanScalarArray new_sz ncap d1)]>
                           ∘ <[r := mkCell 1 (LeanScalarArray new_sz ncap fresh)]>) st)
                = Ok (tt, st2)).
      { unfold st2, cell, d3.
        destruct (Z.ltb_spec (ds + n) new_sz).
        - rewrite size_t_small by lia.
          run_with ltac:(apply bytes_at_run; lia). fold tail.
          erewrite memcpy_sarray_run;
            [|simpl; apply lookup_insert_eq|lia|lia].
          rewrite upd_heap_upd_heap. unfold upd_heap. simpl.
          by rewrite !insert_insert_eq.
        - unfold ret, upd_heap. simpl. by rewrite !insert_insert_eq. }
      run_with ltac:(exact Htail).
      run_with ltac:(exact Hdec). reflexivity. }
    split_and!.
    + rewrite Hother by done. simpl. apply lookup_insert_eq.
    + assert (Hd2t : take (Z.to_nat (ds + n)) d2 = head ++ mid).
      { subst d2. replace (Z.to_nat (ds + n)) with (Z.to_nat ds + length mid)%nat by lia.
        rewrite take_splice by lia. f_equal. subst d1.
        replace (Z.to_nat ds) with (Z.to_nat 0 + length head)%nat by lia.
        by rewrite take_splice by lia. }
      subst d3. destruct (Z.ltb_spec (ds + n) new_sz).
      * replace (Z.to_nat new_sz) with (Z.to_nat (ds + n) + length tail)%nat by lia.
        rewrite take_splice by lia. rewrite Hd2t. by rewrite <- app_assoc.
      * assert (new_sz = ds + n) as Heq by lia.
        assert (tail = []) as -> by (apply nil_length_inv; lia).
        rewrite app_nil_r. by rewrite Heq.
    + lia.
    + split; [done|]. intros [-> Hfit].
      apply orb_true_iff in Hcond as [Hc|Hc]; [done|].
      apply Z.ltb_lt in Hc. lia.
    + intros _ Hex. subst ncap. by destruct (Z.eqb_spec exact 0).
    + intros _. split; [done|]. exact Hself.
    + intros p Hpr Hpd. rewrite Hother by done. simpl. by rewrite lookup_insert_ne.
  - (* in place *)
    apply orb_false_iff in Hcond as [Hrc Hfit].
    apply negb_false_iff, Z.eqb_eq in Hrc. apply Z.ltb_ge in Hfit. subst rcd.
    exists d. eexists. exists dcap. eexists. split.
    { run_with ltac:(apply bytes_at_run; lia). fold mid.
      run_with ltac:(apply write_bytes_splice; lia).
      run_with ltac:(by eapply set_body_run).
      reflexivity. }
    simpl. split_and!.
    + by rewrite lookup_insert_eq.
    + apply list_eq. intros i.
      destruct (decide (i < Z.to_nat new_sz)%nat) as [Hi|Hi].
      2:{ rewrite lookup_take_ge by lia. symmetry. apply lookup_ge_None.
          rewrite !length_app. lia. }
      rewrite lookup_take_lt by lia. unfold splice.
      destruct (decide (i < Z.to_nat ds)%nat) as [Hi1|Hi1].
      { rewrite !lookup_app_l by (rewrite ?length_take; lia). done. }
      rewrite !(lookup_app_r (take (Z.to_nat ds) ddata)) by (rewrite length_take; lia).
      change (take (Z.to_nat ds) ddata) with head. rewrite Hhl.
      destruct (decide (i - Z.to_nat ds < Z.to_nat n)%nat) as [Hi2|Hi2].
      { rewrite !lookup_app_l by lia. done. }
      rewrite !lookup_app_r by lia. rewrite Hml.
      subst tail. rewrite lookup_take_lt by lia. rewrite !lookup_drop.
      f_equal. lia.
    + rewrite length_splice; lia.
    + split; [intros _; split; [done|lia]|done].
    + done.
    + done.
    + intros p Hp _. by rewrite lookup_insert_ne.
Qed.

(** The two bytes [9 8] copied over [1 2 3] from offset 2 on: the array
    grows to [1 2 9 8], in place, since it is exclusively owned and has a
    spare byte. *)
Lemma lean_byte_array_copy_slice_splices_witness :
  ∃ st' cap' data',
    lean_byte_array_copy_slice (lean_ptr 2) (lean_box 0) (lean_ptr 1) (lean_box 2)
      (lean_box 10) 0 (st_two_arrays 1) = Ok (lean_ptr 1, st') ∧
    heap st' !! 1%positive = Some (mkCell 1 (LeanScalarArray 4 cap' data')) ∧
    take 4 data' = [1; 2; 9; 8].
Proof.
  destruct (lean_byte_array_copy_slice_splices (st_two_arrays 1) 2%positive 1%positive
              1 2 2 1 3 4 [9; 8] [1; 2; 3; 170] 0 2 10 0)
    as (r & st' & cap' & data' & Hrun & Hcell & Htake & _ & Hsame & _).
  - reflexivity.
  - reflexivity.
  - simpl. lia.
  - lia.
  - lia.
  - reflexivity.
  - lia.
  - lia.
  - lia.
  - lia.
  - assert (r = 1%positive) as -> by (apply Hsame; simpl; lia).
    exists st', cap', data'. split_and!; [exact Hrun|exact Hcell|exact Htake].
Defined.

(** X21.  [l_ByteArray_instBEq_beq], which [l_ByteArray_instDecidableEq]
    calls, returns 1 when both arrays have the same size and the same bytes
    and 0 otherwise; it looks at no byte beyond the size and changes
    nothing. *)
Theorem byte_array_beq_is_equality (st : state) (a b : positive)
    (rca sza capa rcb szb capb : Z) (dataa datab : list Z) :
  heap st !! a = Some (mkCell rca (LeanScalarArray sza capa dataa)) →
  heap st !! b = Some (mkCell rcb (LeanScalarArray szb capb datab)) →
  0 ≤ sza ≤ Z.of_nat (length dataa) → 0 ≤ szb ≤ Z.of_nat (length datab) →
  let same := bool_decide (take (Z.to_nat sza) dataa = take (Z.to_nat szb) datab) in
  l_ByteArray_instBEq_beq (lean_ptr a) (lean_ptr b) st =
    Ok (if same then 1 else 0, st) ∧
  l_ByteArray_instDecidableEq (lean_ptr a) (lean_ptr b) st =
    Ok (if same then 1 else 0, st).
Proof.
  intros Ha Hb Hsza Hszb same.
  assert (Hrun : l_ByteArray_instBEq_beq (lean_ptr a) (lean_ptr b) st =
                 Ok (if same then 1 else 0, st)).
  { unfold l_ByteArray_instBEq_beq.
    run_with ltac:(by eapply lean_to_sarray_run).
    run_with ltac:(by eapply lean_to_sarray_run).
    destruct (Z.eqb_spec sza szb) as [->|Hne]; cbn [negb].
    - run_with ltac:(apply bytes_at_run; lia).
      run_with ltac:(apply bytes_at_run; lia).
      change (drop (Z.to_nat 0) dataa) with dataa.
      change (drop (Z.to_nat 0) datab) with datab.
      unfold ret. do 2 f_equal.
      destruct (memcmp_sign (take (Z.to_nat szb) dataa) (take (Z.to_nat szb) datab))
        as [-> _]; [rewrite !length_take; lia|]. done.
    - unfold ret. do 2 f_equal. subst same.
      rewrite bool_decide_eq_false_2; [done|].
      intros Heq. apply (f_equal length) in Heq. rewrite !length_take in Heq. lia. }
  split; [exact Hrun|exact Hrun].
Qed.

(** [1 2 3] and [9 8] differ. *)
Lemma byte_array_beq_is_equality_witness :
  l_ByteArray_instBEq_beq (lean_ptr 1) (lean_ptr 2) (st_two_arrays 1) =
    Ok (0, st_two_arrays 1).
Proof.
  apply (byte_array_beq_is_equality (st_two_arrays 1) 1%positive 2%positive
           1 3 4 1 2 2 [1; 2; 3; 170] [9; 8]).
  - reflexivity.
  - reflexivity.
  - simpl. lia.
  - simpl. lia.
Defined.

(** *** The host bridge *)

(** X22.  Across the bridge and back: [mk_byte_array] makes of [len]
    bytes of linear memory a byte array that holds exactly these bytes, and
    [export_byte_array] copies the bytes of a byte array into a buffer of
    exactly [len] bytes and reports [len]; the buffer has no length prefix.
    [export_byte_array] leaves the heap as it is: the array it was given is
    not released. *)
Theorem byte_array_bridge_round_trip (st : state) (bytes : list Z) (len : Z) :
  0 ≤ len ≤ Z.of_nat (length bytes) → len < 2 ^ 31 →
  let text := take (Z.to_nat len) bytes in
  ∃ arr st1,
    heap st !! arr = None ∧
    mk_byte_array (Some bytes) len st = Ok (lean_ptr arr, st1) ∧
    st1 = upd_heap <[arr := mkCell 1 (LeanScalarArray len len text)]> st ∧
    export_byte_array (lean_ptr arr) st1 = Ok ((text, len), st1).
Proof.
  intros Hlen Hbig text.
  set (arr := fresh_addr (heap st)).
  assert (Htl : length text = Z.to_nat len) by (subst text; rewrite length_take; lia).
  set (fresh := map (uninit st) (seq 0 (Z.to_nat len))).
  assert (Hfl : length fresh = Z.to_nat len) by apply length_uninit.
  assert (Hfull : ∀ buf : list Z, length buf = Z.to_nat len →
                  splice buf (Z.to_nat 0) text = text).
  { intros buf Hbl. unfold splice. change (Z.to_nat 0) with 0%nat.
    rewrite take_0, app_nil_l, Nat.add_0_l.
    rewrite drop_ge by lia. apply app_nil_r. }
  set (st1 := upd_heap <[arr := mkCell 1 (LeanScalarArray len len text)]> st).
  assert (Hmk : mk_byte_array (Some bytes) len st = Ok (lean_ptr arr, st1)).
  { unfold mk_byte_array.
    run_with ltac:(apply lean_alloc_sarray_run). fold arr fresh.
    destruct (Z.ltb_spec 0 len).
    - rewrite bind_assoc.
      run_with ltac:(apply bytes_at_run; lia).
      change (drop (Z.to_nat 0) bytes) with bytes. fold text.
      run_with ltac:(eapply memcpy_sarray_run;
                     [simpl; apply lookup_insert_eq|lia|lia]).
      rewrite upd_heap_upd_heap. unfold ret, st1, upd_heap. simpl.
      rewrite insert_insert_eq. by rewrite Hfull.
    - unfold bind, ret, st1. do 4 f_equal.
      assert (len = 0) as -> by lia. subst fresh text. done. }
  exists arr, st1. split_and!; [apply fresh_addr_fresh|done|done|].
  unfold export_byte_array, byte_array_data.
  rewrite bind_assoc.
  run_with ltac:(eapply lean_to_sarray_run; simpl; apply lookup_insert_eq).
  run_with ltac:(reflexivity). run_with ltac:(reflexivity).
  destruct (Z.ltb_spec 0 len).
  - rewrite bind_assoc.
    run_with ltac:(apply bytes_at_run; lia).
    change (drop (Z.to_nat 0) text) with text. rewrite (take_ge text) by lia.
    run_with ltac:(apply write_bytes_splice; [lia|rewrite length_uninit; lia]).
    unfold ret. rewrite Hfull by apply length_uninit. done.
  - unfold bind, ret. do 3 f_equal.
    assert (len = 0) as -> by lia. subst text. done.
Qed.

Lemma byte_array_bridge_round_trip_witness :
  ∃ arr st1,
    mk_byte_array (Some [0xDE; 0xAD; 0xBE; 0xEF]) 3 initial_state =
      Ok (lean_ptr arr, st1) ∧
    export_byte_array (lean_ptr arr) st1 = Ok (([0xDE; 0xAD; 0xBE], 3), st1).
Proof.
  destruct (byte_array_bridge_round_trip initial_state [0xDE; 0xAD; 0xBE; 0xEF] 3)
    as (arr & st1 & _ & Hmk & _ & Hex).
  - simpl. lia.
  - lia.
  - by exists arr, st1.
Defined.

(** *** Object arrays *)

(** X23.  [l_Array_back___redArg] on an empty array aborts with the
    message "Array.back: empty array"; on any other array it returns the
    last element with its count raised by one, and changes nothing else. *)
Theorem array_back_last_or_panic (st : state) (a : positive)
    (rc sz cap : Z) (data : list lean_obj) :
  heap st !! a = Some (mkCell rc (LeanArray sz cap data)) →
  0 ≤ sz ≤ Z.of_nat (length data) → sz < 2 ^ 32 →
  (sz = 0 → l_Array_back___redArg (lean_ptr a) st = Abort "Array.back: empty array") ∧
  (∀ v, 0 < sz → data !! Z.to_nat (sz - 1) = Some v → valid_ref (heap st) v →
        l_Array_back___redArg (lean_ptr a) st = Ok (v, upd_heap (retain v) st)).
Proof.
  intros Ha Hsz Hbig. unfold l_Array_back___redArg.
  split.
  - intros ->. by run_with ltac:(by eapply lean_to_array_run).
  - intros v Hpos Hv Hvalid.
    run_with ltac:(by eapply lean_to_array_run).
    destruct (Z.eqb_spec sz 0); [lia|].
    rewrite size_t_small by lia.
    run_with ltac:(apply index_run; [lia|exact Hv]).
    run_with ltac:(by apply lean_inc_run). done.
Qed.

Lemma array_back_last_or_panic_witness :
  l_Array_back___redArg (lean_ptr 2) (st_pair_array 1 2) =
    Ok (lean_box 7, st_pair_array 1 2) ∧
  l_Array_back___redArg (lean_ptr 1)
    (mkState (<[1%positive := mkCell 1 (LeanArray 0 0 [])]> ∅)
             (fun _ => 170) NULL NULL 0 0) = Abort "Array.back: empty array".
Proof.
  split.
  - destruct (array_back_last_or_panic (st_pair_array 1 2) 2%positive 1 2 2
                [lean_ptr 1; lean_box 7]) as [_ H].
    + reflexivity.
    + simpl. lia.
    + lia.
    + apply (H (lean_box 7)).
      * lia.
      * reflexivity.
      * exact I.
  - destruct (array_back_last_or_panic
      (mkState (<[1%positive := mkCell 1 (LeanArray 0 0 [])]> ∅)
               (fun _ => 170) NULL NULL 0 0) 1%positive 1 0 0 []) as [H _].
    + reflexivity.
    + simpl. lia.
    + lia.
    + apply H. reflexivity.
Defined.

(** *** Dropping the references an array holds *)

Lemma occurrences_cons p x xs :
  occurrences p (x :: xs) =
    ((if decide (x = lean_ptr p) then 1 else 0) + occurrences p xs)%nat.
Proof.
  unfold occurrences. simpl.
  destruct (lean_obj_eq_dec x (lean_ptr p)); by destruct (decide _).
Qed.

Lemma unretained_0 c : unretained 0 c = c.
Proof.
  unfold unretained, set_rc. destruct (0 <? m_rc c); [|done].
  destruct c; simpl. f_equal. lia.
Qed.

Lemma release1_lookup x h p :
  release1 x h !! p =
    if decide (x = lean_ptr p)
    then (fun c => if 1 <? m_rc c then set_rc (m_rc c - 1) c else c) <$> h !! p
    else h !! p.
Proof.
  destruct x as [|n|q]; simpl; try done.
  destruct (decide (lean_ptr q = lean_ptr p)) as [[= ->]|Hne].
  - destruct (h !! p) as [c|] eqn:E; simpl; [|by rewrite E].
    destruct (1 <? m_rc c); [by rewrite lookup_insert_eq|]. by rewrite E.
  - assert (q ≠ p) by congruence.
    destruct (h !! q) as [c|]; [|done].
    destruct (1 <? m_rc c); [by rewrite lookup_insert_ne|done].
Qed.

Lemma shared_beyond_tail x xs h :
  shared_beyond (x :: xs) h → shared_beyond xs (release1 x h).
Proof.
  intros [Hnn Hsh]. apply Forall_cons in Hnn as [Hx Hnn]. split; [done|].
  intros p Hp. destruct (Hsh p) as (c & Hc & Hrc).
  { rewrite occurrences_cons. lia. }
  rewrite occurrences_cons in Hrc.
  rewrite release1_lookup, Hc. simpl.
  destruct (decide (x = lean_ptr p)) as [->|Hne].
  - destruct (Z.ltb_spec 1 (m_rc c)).
    + eexists. split; [done|]. simpl. right. lia.
    + exists c. split; [done|]. lia.
  - exists c. split; [done|]. simpl in Hrc. lia.
Qed.

Lemma release_all_lookup xs : ∀ h p,
  shared_beyond xs h →
  release_all xs h !! p = unretained (occurrences p xs) <$> h !! p.
Proof.
  unfold release_all.
  induction xs as [|x xs IH]; intros h p Hsh.
  - simpl. destruct (h !! p); simpl; [by rewrite unretained_0|done].
  - cbn [foldl]. rewrite IH by (by apply shared_beyond_tail).
    rewrite release1_lookup, occurrences_cons.
    destruct (decide (x = lean_ptr p)) as [->|Hne]; [|done].
    destruct (h !! p) as [c|] eqn:Hc; [|done]. simpl. f_equal.
    destruct Hsh as [_ Hsh]. destruct (Hsh p) as (c' & Hc' & Hrc).
    { rewrite occurrences_cons. rewrite decide_True by done. lia. }
    assert (c' = c) by congruence. subst c'.
    rewrite occurrences_cons, decide_True in Hrc by done.
    unfold unretained, set_rc.
    destruct (Z.ltb_spec 1 (m_rc c)); simpl.
    + destruct (Z.ltb_spec 0 (m_rc c - 1)); [|lia].
      destruct (Z.ltb_spec 0 (m_rc c)); [|lia]. f_equal. lia.
    + destruct (Z.ltb_spec 0 (m_rc c)); [lia|done].
Qed.

Lemma for_each_dec_shared cold xs : ∀ st,
  shared_beyond xs (heap st) →
  for_each (lean_dec_with cold) xs st = Ok (tt, upd_heap (release_all xs) st).
Proof.
  induction xs as [|x xs IH]; intros st Hsh.
  - by destruct st.
  - cbn [for_each].
    assert (Hx : lean_dec_with cold x st = Ok (tt, upd_heap (release1 x) st)).
    { destruct Hsh as [Hnn Hsh]. apply Forall_cons in Hnn as [Hx _].
      destruct x as [|n|p]; [done|by destruct st|].
      destruct (Hsh p) as (c & Hc & Hrc).
      { rewrite occurrences_cons, decide_True by done. lia. }
      rewrite occurrences_cons, decide_True in Hrc by done.
      cbn [lean_dec_with]. unfold lean_dec_ref_with, bind, load, store.
      rewrite Hc. unfold upd_heap at 2. unfold release1. rewrite Hc.
      destruct (Z.ltb_spec 1 (m_rc c)); [by rewrite Hc|].
      destruct (Z.eqb_spec (m_rc c) 0); [by destruct st|lia]. }
    rewrite (bind_ok _ _ _ _ _ Hx).
    rewrite IH by (simpl; by apply shared_beyond_tail).
    by rewrite upd_heap_upd_heap.
Qed.

Lemma unretained_retained k c : 0 ≤ m_rc c → unretained k (retained k c) = c.
Proof.
  intros Hrc. unfold unretained, retained, set_rc.
  destruct (Z.ltb_spec 0 (m_rc c)); simpl.
  - destruct (Z.ltb_spec 0 (m_rc c + Z.of_nat k)); [|lia].
    destruct c as [rc b]. simpl. f_equal. lia.
  - destruct (Z.ltb_spec 0 (m_rc c)); [lia|done].
Qed.

(** The references taken for a copy can all be dropped again, and dropping
    them undoes taking them. *)
Lemma retain_all_shared_beyond xs h :
  Forall (valid_ref h) xs → shared_beyond xs (retain_all xs h).
Proof.
  intros Hval. split.
  - eapply Forall_impl; [exact Hval|]. by intros [|n|p].
  - intros p Hp.
    assert (Hin : lean_ptr p ∈ xs).
    { apply list_elem_of_In. apply (count_occ_In lean_obj_eq_dec).
      unfold occurrences in Hp. lia. }
    rewrite Forall_forall in Hval. destruct (Hval _ Hin) as (c & Hc & Hrc).
    rewrite retain_all_lookup, Hc. simpl. eexists. split; [done|].
    unfold retained, set_rc. destruct (Z.ltb_spec 0 (m_rc c)); simpl; lia.
Qed.

Lemma release_retain_all xs h :
  Forall (valid_ref h) xs → release_all xs (retain_all xs h) = h.
Proof.
  intros Hval. apply map_eq. intros p.
  rewrite release_all_lookup by (by apply retain_all_shared_beyond).
  rewrite retain_all_lookup.
  destruct (h !! p) as [c|] eqn:Hc; [|done]. simpl. f_equal.
  destruct (decide (0 < occurrences p xs)%nat) as [Hocc|Hocc].
  - apply unretained_retained.
    assert (Hin : lean_ptr p ∈ xs).
    { apply list_elem_of_In. apply (count_occ_In lean_obj_eq_dec).
      unfold occurrences in Hocc. lia. }
    rewrite Forall_forall in Hval. destruct (Hval _ Hin) as (c' & Hc' & Hrc).
    by assert (c' = c) as -> by congruence.
  - replace (occurrences p xs) with 0%nat by lia.
    by rewrite retained_0, unretained_0.
Qed.

Lemma shared_beyond_insert_other xs h r c :
  shared_beyond xs h → occurrences r xs = 0%nat → shared_beyond xs (<[r := c]> h).
Proof.
  intros [Hnn Hsh] Hr. split; [done|]. intros p Hp.
  destruct (Hsh p Hp) as (c' & Hc' & Hrc).
  exists c'. split; [|done]. rewrite lookup_insert_ne; [done|]. intros ->. lia.
Qed.

Lemma release_all_insert_other xs h r c :
  shared_beyond xs h → occurrences r xs = 0%nat →
  release_all xs (<[r := c]> h) = <[r := c]> (release_all xs h).
Proof.
  intros Hsh Hr. apply map_eq. intros p.
  rewrite release_all_lookup by (by apply shared_beyond_insert_other).
  destruct (decide (p = r)) as [->|Hne].
  - rewrite !lookup_insert_eq. simpl. by rewrite Hr, unretained_0.
  - rewrite !lookup_insert_ne by done. by rewrite release_all_lookup.
Qed.

(** Releasing an exclusively owned array whose elements all have other
    owners: the elements lose one reference each and the array is freed. *)
Lemma lean_dec_array_exclusive st a sz cap data :
  heap st !! a = Some (mkCell 1 (LeanArray sz cap data)) →
  0 ≤ sz ≤ Z.of_nat (length data) →
  shared_beyond (take (Z.to_nat sz) data) (heap st) →
  occurrences a (take (Z.to_nat sz) data) = 0%nat →
  ∃ st',
    lean_dec (lean_ptr a) st = Ok (tt, st') ∧
    heap st' = delete a (release_all (take (Z.to_nat sz) data) (heap st)) ∧
    uninit st' = uninit st ∧
    l_Array_empty st' = l_Array_empty st ∧
    l_ByteArray_empty st' = l_ByteArray_empty st ∧
    frames st' = frames st.
Proof.
  intros Ha Hsz Hsh Hocc.
  set (xs := take (Z.to_nat sz) data) in *.
  unfold lean_dec. cbn [lean_dec_with]. unfold lean_dec_ref_with.
  unfold bind at 1, load at 1. rewrite Ha. cbn [m_rc].
  change (1 <? 1) with false. change (1 =? 0) with false. cbv iota.
  cbn [lean_dec_ref_cold].
  set (st1 := mkState (heap st) (uninit st) (l_Array_empty st) (l_ByteArray_empty st)
                      (S (frames st)) (Nat.max (peak_frames st) (S (frames st)))).
  assert (Henter : enter_frame st = Ok (tt, st1)) by done.
  rewrite (bind_ok _ _ _ _ _ Henter).
  assert (Hload : load a st1 = Ok (mkCell 1 (LeanArray sz cap data), st1)).
  { unfold load. simpl heap. by rewrite Ha. }
  rewrite (bind_ok _ _ _ _ _ Hload). cbn [m_rc m_body].
  change (1 =? 1) with true. cbv iota.
  assert (Hslots : slots sz data st1 = Ok (xs, st1)).
  { unfold slots. destruct (Z.leb_spec 0 sz); [|lia].
    destruct (Z.leb_spec sz (Z.of_nat (length data))); [|lia]. done. }
  rewrite !bind_assoc.
  rewrite (bind_ok _ _ _ _ _ Hslots).
  rewrite (bind_ok _ _ _ _ _ (for_each_dec_shared _ xs st1 Hsh)).
  assert (Hlive : release_all xs (heap st) !! a = Some (mkCell 1 (LeanArray sz cap data))).
  { rewrite release_all_lookup by done. rewrite Ha, Hocc. simpl.
    by rewrite unretained_0. }
  unfold bind at 1. unfold lean_free_object at 1. simpl heap. rewrite Hlive.
  unfold leave_frame. eexists. split; [reflexivity|]. simpl. by split_and!.
Qed.

Lemma lean_dec_shared st a c :
  heap st !! a = Some c → 0 ≤ m_rc c → m_rc c ≠ 1 →
  lean_dec (lean_ptr a) st = Ok (tt, upd_heap (release1 (lean_ptr a)) st).
Proof.
  intros Ha H0 H1. unfold lean_dec. cbn [lean_dec_with].
  unfold lean_dec_ref_with, bind, load, store. rewrite Ha.
  unfold upd_heap at 2. unfold release1. rewrite Ha.
  destruct (Z.ltb_spec 1 (m_rc c)); [by rewrite Ha|].
  destruct (Z.eqb_spec (m_rc c) 0); [by destruct st|lia].
Qed.

Lemma occurrences_fresh h xs r :
  Forall (valid_ref h) xs → h !! r = None → occurrences r xs = 0%nat.
Proof.
  intros Hval Hr. unfold occurrences.
  apply (count_occ_not_In lean_obj_eq_dec). intros Hin.
  apply list_elem_of_In in Hin. rewrite Forall_forall in Hval.
  destruct (Hval _ Hin) as (c & Hc & _). congruence.
Qed.

Lemma retain_keeps_array x h a rc sz cap data :
  h !! a = Some (mkCell rc (LeanArray sz cap data)) →
  ∃ rc', retain x h !! a = Some (mkCell rc' (LeanArray sz cap data)).
Proof.
  intros Ha. rewrite retain_lookup, Ha. destruct (decide _); simpl; [|eauto].
  exists (m_rc (retained 1 (mkCell rc (LeanArray sz cap data)))).
  f_equal. destruct (retained 1 _) as [rc' b'] eqn:E. simpl.
  f_equal. change b' with (m_body (mkCell rc' b')). by rewrite <- E, retained_body.
Qed.

(** *** Copying an array *)

Lemma copy_expand_body_run a r dsz dcap sz cap data pre y rest hbase st rca x :
  heap st = <[r := mkCell 1 (LeanArray dsz dcap (pre ++ y :: rest))]> hbase →
  hbase !! r = None →
  hbase !! a = Some (mkCell rca (LeanArray sz cap data)) →
  data !! length pre = Some x →
  valid_ref hbase x →
  copy_expand_body (lean_ptr a) (lean_ptr r) (Z.of_nat (length pre)) st =
    Ok (tt, upd_heap (fun _ =>
          <[r := mkCell 1 (LeanArray dsz dcap ((pre ++ [x]) ++ rest))]>
            (retain x hbase)) st).
Proof.
  intros Hst Hr Ha Hx Hvx.
  assert (Har : a ≠ r) by (intros ->; congruence).
  unfold copy_expand_body.
  run_with ltac:(eapply lean_to_array_run; rewrite Hst, lookup_insert_ne by done; exact Ha).
  run_with ltac:(apply index_run; [lia|by rewrite Nat2Z.id]).
  run_with ltac:(apply lean_inc_run; rewrite Hst; by apply valid_ref_insert_fresh).
  assert (Hst2 : heap (upd_heap (retain x) st) =
            <[r := mkCell 1 (LeanArray dsz dcap (pre ++ y :: rest))]> (retain x hbase)).
  { simpl. rewrite Hst. by apply retain_insert_fresh. }
  destruct (retain_keeps_array x hbase a rca sz cap data Ha) as [rca' Hra].
  run_with ltac:(eapply lean_to_array_run; rewrite Hst2, lookup_insert_ne by done; exact Hra).
  run_with ltac:(apply index_run; [lia|by rewrite Nat2Z.id]).
  run_with ltac:(eapply lean_to_array_run; rewrite Hst2; apply lookup_insert_eq).
  run_with ltac:(apply index_run; [lia|]).
  2:{ rewrite Nat2Z.id, lookup_app_r by lia. by rewrite Nat.sub_diag. }
  erewrite set_body_run by (rewrite Hst2; apply lookup_insert_eq).
  simpl m_rc. rewrite upd_heap_upd_heap. unfold upd_heap. simpl.
  do 3 f_equal. rewrite Hst.
  rewrite retain_insert_fresh by done.
  rewrite insert_insert_eq. do 3 f_equal.
  rewrite Nat2Z.id.
  replace (length pre) with (length pre + 0)%nat at 1 by lia.
  rewrite insert_app_r. simpl. by rewrite <- app_assoc.
Qed.

Lemma copy_expand_loop a r dsz dcap sz cap data rest : ∀ n pre old hbase st rca,
  length old = n →
  heap st = <[r := mkCell 1 (LeanArray dsz dcap (pre ++ old ++ rest))]> hbase →
  hbase !! r = None →
  hbase !! a = Some (mkCell rca (LeanArray sz cap data)) →
  (length pre + n ≤ length data)%nat →
  Forall (valid_ref hbase) (take n (drop (length pre) data)) →
  for_loop n (Z.of_nat (length pre)) (copy_expand_body (lean_ptr a) (lean_ptr r)) st =
    Ok (tt, upd_heap (fun _ =>
          <[r := mkCell 1 (LeanArray dsz dcap
                   (pre ++ take n (drop (length pre) data) ++ rest))]>
            (retain_all (take n (drop (length pre) data)) hbase)) st).
Proof.
  induction n as [|n IH]; intros pre old hbase st rca Hold Hst Hr Ha Hlen Hval.
  - destruct old; [|done]. simpl. unfold ret. destruct st; simpl in *. by subst.
  - destruct old as [|y old]; [done|]. simpl in Hold.
    destruct (lookup_lt_is_Some_2 data (length pre)) as [x Hx]; [lia|].
    rewrite (drop_S _ _ _ Hx) in Hval |- *. simpl take in Hval |- *.
    apply Forall_cons in Hval as [Hvx Hval].
    simpl for_loop.
    run_with ltac:(by eapply copy_expand_body_run).
    destruct (retain_keeps_array x hbase a rca sz cap data Ha) as [rca' Hra].
    replace (Z.of_nat (length pre) + 1) with (Z.of_nat (length (pre ++ [x])))
      by (rewrite length_app; simpl; lia).
    rewrite (IH (pre ++ [x]) old (retain x hbase) _ rca').
    + rewrite upd_heap_upd_heap. unfold upd_heap. simpl.
      rewrite length_app. simpl length.
      replace (length pre + 1)%nat with (S (length pre)) by lia.
      by rewrite <- !app_assoc.
    + lia.
    + simpl. by rewrite <- !app_assoc.
    + rewrite retain_lookup, Hr. by destruct (decide _).
    + exact Hra.
    + rewrite length_app. simpl. lia.
    + rewrite length_app. simpl length.
      replace (length pre + 1)%nat with (S (length pre)) by lia.
      eapply Forall_impl; [exact Hval|]. intros z. apply retain_valid.
Qed.

Lemma release1_retain x h : valid_ref h x → release1 x (retain x h) = h.
Proof.
  intros Hv. apply map_eq. intros p.
  rewrite release1_lookup, retain_lookup.
  destruct (decide (x = lean_ptr p)) as [->|]; [|done].
  destruct Hv as (c & Hc & H0). rewrite Hc. simpl. f_equal.
  unfold retained, set_rc.
  destruct (Z.ltb_spec 0 (m_rc c)); simpl.
  - destruct (Z.ltb_spec 1 (m_rc c + Z.of_nat 1)); [|lia]. simpl.
    destruct c as [rc b]. simpl. f_equal. lia.
  - destruct (Z.ltb_spec 1 (m_rc c)); [lia|done].
Qed.

Lemma release1_insert_other a r c h :
  a ≠ r → release1 (lean_ptr a) (<[r := c]> h) = <[r := c]> (release1 (lean_ptr a) h).
Proof.
  intros Hne. unfold release1. rewrite lookup_insert_ne by done.
  destruct (h !! a) as [c'|]; [|done].
  destruct (1 <? m_rc c'); [|done]. by apply insert_insert_ne.
Qed.

(** The copy has the elements of the source and one more reference to each;
    the reference to the source is dropped, which frees an exclusively owned
    source and gives the elements' references back. *)
Lemma lean_copy_expand_array_run st a rc sz cap data (expand : bool) :
  heap st !! a = Some (mkCell rc (LeanArray sz cap data)) →
  0 ≤ sz ≤ Z.of_nat (length data) → sz < 2 ^ 31 → 0 ≤ rc →
  let xs := take (Z.to_nat sz) data in
  let r := fresh_addr (heap st) in
  let cap' := if expand then expanded_capacity sz else sz in
  let cr := mkCell 1 (LeanArray sz cap' (xs ++ replicate (Z.to_nat (cap' - sz)) NULL)) in
  Forall (valid_ref (heap st)) xs →
  occurrences a xs = 0%nat →
  ∃ st',
    lean_copy_expand_array (lean_ptr a) expand st = Ok (lean_ptr r, st') ∧
    heap st' = <[r := cr]> (if rc =? 1 then delete a (heap st)
                            else release1 (lean_ptr a) (retain_all xs (heap st))) ∧
    same_globals st st'.
Proof.
  intros Ha Hsz Hbig Hrc xs r cap' cr Hval Hocc.
  assert (Hr : heap st !! r = None) by apply fresh_addr_fresh.
  assert (Har : a ≠ r) by (intros ->; congruence).
  assert (Hcap : sz ≤ cap').
  { subst cap'. unfold expanded_capacity. destruct expand; [|lia].
    destruct (Z.ltb_spec sz 4); [lia|]. rewrite size_t_small by lia. lia. }
  unfold lean_copy_expand_array.
  run_with ltac:(by eapply lean_to_array_run).
  fold (expanded_capacity sz). fold cap'.
  run_with ltac:(reflexivity). fold r.
  run_with ltac:(eapply lean_to_array_run; simpl; apply lookup_insert_eq).
  run_with ltac:(eapply set_body_run; simpl; apply lookup_insert_eq).
  rewrite upd_heap_upd_heap.
  change (for_loop (Z.to_nat sz) 0 _)
    with (for_loop (Z.to_nat sz) (Z.of_nat (length (@nil lean_obj)))
            (copy_expand_body (lean_ptr a) (lean_ptr r))).
  run_with ltac:(eapply (copy_expand_loop a r sz cap' sz cap data
                   (replicate (Z.to_nat (cap' - sz)) NULL) _ []
                   (replicate (Z.to_nat sz) NULL) (heap st) _ rc)).
  2:{ by rewrite length_replicate. }
  2:{ simpl. rewrite insert_insert_eq. do 3 f_equal.
      rewrite <- replicate_add. f_equal. lia. }
  2:{ done. }
  2:{ done. }
  2:{ simpl. lia. }
  2:{ done. }
  rewrite upd_heap_upd_heap. simpl drop. fold xs. simpl app. fold cr.
  set (st2 := upd_heap _ st).
  assert (Hst2 : heap st2 = <[r := cr]> (retain_all xs (heap st))) by done.
  assert (Ha2 : heap st2 !! a = Some (mkCell rc (LeanArray sz cap data))).
  { rewrite Hst2, lookup_insert_ne by done.
    rewrite retain_all_lookup, Ha, Hocc. simpl. by rewrite retained_0. }
  assert (Hrx : occurrences r xs = 0%nat) by (by eapply occurrences_fresh).
  destruct (Z.eqb_spec rc 1) as [->|Hne].
  - destruct (lean_dec_array_exclusive st2 a sz cap data Ha2 Hsz)
      as (st' & Hdec & Hheap & Hu & Hea & Heb & Hf).
    { rewrite Hst2. apply shared_beyond_insert_other; [|done].
      by apply retain_all_shared_beyond. }
    { done. }
    rewrite (bind_ok _ _ _ _ _ Hdec). exists st'. split; [done|].
    split; [|by split_and!].
    rewrite Hheap, Hst2. fold xs.
    rewrite release_all_insert_other; [|by apply retain_all_shared_beyond|done].
    rewrite release_retain_all by done.
    by rewrite delete_insert_ne by done.
  - erewrite bind_ok; [|by eapply (lean_dec_shared st2 a)].
    eexists. split; [reflexivity|]. split; [|done].
    change (heap (upd_heap (release1 (lean_ptr a)) st2))
      with (release1 (lean_ptr a) (heap st2)).
    by rewrite Hst2, release1_insert_other.
Qed.

(** *** Pushing onto an array *)

Lemma lean_array_push_run st a rc sz cap data v :
  heap st !! a = Some (mkCell rc (LeanArray sz cap data)) →
  0 ≤ sz ≤ cap → Z.of_nat (length data) = cap → cap < 2 ^ 31 → 0 ≤ rc →
  let xs := take (Z.to_nat sz) data in
  Forall (valid_ref (heap st)) xs →
  occurrences a xs = 0%nat →
  let in_place := (rc =? 1) && (sz <? cap) in
  let r := if in_place then a else fresh_addr (heap st) in
  let cap' := if in_place then cap else expanded_capacity sz in
  let rest := if in_place then drop (S (Z.to_nat sz)) data
              else replicate (Z.to_nat (cap' - sz - 1)) NULL in
  let base := if in_place then heap st
              else if rc =? 1 then delete a (heap st)
              else release1 (lean_ptr a) (retain_all xs (heap st)) in
  ∃ st',
    lean_array_push (lean_ptr a) v st = Ok (lean_ptr r, st') ∧
    heap st' = <[r := mkCell 1 (LeanArray (sz + 1) cap' (xs ++ v :: rest))]> base ∧
    same_globals st st'.
Proof.
  intros Ha Hsz Hlen Hcap Hrc xs Hval Hocc in_place r cap' rest base.
  unfold lean_array_push.
  run_with ltac:(by eapply lean_to_array_run).
  run_with ltac:(unfold lean_is_exclusive, bind, load; by rewrite Ha).
  unfold ret. cbn [m_rc]. fold in_place.
  destruct in_place eqn:Hin.
  - apply andb_true_iff in Hin as [H1 Hroom].
    apply Z.eqb_eq in H1. apply Z.ltb_lt in Hroom. subst rc.
    unfold array_store_at_end. rewrite bind_assoc.
    run_with ltac:(by eapply lean_to_array_run).
    destruct (lookup_lt_is_Some_2 data (Z.to_nat sz)) as [y Hy]; [lia|].
    rewrite bind_assoc.
    run_with ltac:(apply index_run; [lia|exact Hy]).
    run_with ltac:(by eapply set_body_run).
    eexists. split; [reflexivity|]. split; [|done].
    simpl. subst r cap' rest base xs. do 3 f_equal.
    + rewrite size_t_small by lia. done.
    + apply insert_take_drop. lia.
  - destruct (lean_copy_expand_array_run st a rc sz cap data true Ha)
      as (st1 & Hrun & Hheap & Hg); [lia|lia|lia|done|done|].
    cbv zeta in Hrun, Hheap. fold xs in Hheap.
    rewrite (bind_ok _ _ _ _ _ Hrun).
    assert (Hgrow : sz + 1 ≤ expanded_capacity sz).
    { unfold expanded_capacity. destruct (Z.ltb_spec sz 4); [lia|].
      rewrite size_t_small by lia. lia. }
    assert (Hbound : expanded_capacity sz < 2 ^ 32).
    { unfold expanded_capacity. destruct (Z.ltb_spec sz 4); [lia|].
      rewrite size_t_small by lia. lia. }
    assert (Hr1 : heap st1 !! fresh_addr (heap st) =
              Some (mkCell 1 (LeanArray sz (expanded_capacity sz)
                (xs ++ replicate (Z.to_nat (expanded_capacity sz - sz)) NULL)))).
    { rewrite Hheap. apply lookup_insert_eq. }
    run_with ltac:(by eapply lean_to_array_run).
    destruct (Z.leb_spec (expanded_capacity sz) sz); [lia|].
    run_with ltac:(reflexivity). unfold array_store_at_end. rewrite bind_assoc.
    run_with ltac:(by eapply lean_to_array_run).
    assert (Hxs : length xs = Z.to_nat sz).
    { subst xs. rewrite length_take. lia. }
    rewrite bind_assoc.
    run_with ltac:(apply index_run; [lia|]).
    2:{ rewrite lookup_app_r by lia. rewrite Hxs, Nat.sub_diag.
        replace (Z.to_nat (expanded_capacity sz - sz))
          with (S (Z.to_nat (expanded_capacity sz - sz - 1))) by lia. done. }
    run_with ltac:(by eapply set_body_run).
    eexists. split; [reflexivity|]. split.
    + simpl. rewrite Hheap, insert_insert_eq. subst r cap' rest base.
      f_equal.
      do 2 f_equal.
      * rewrite size_t_small by lia. done.
      * replace (Z.to_nat sz) with (length xs + 0)%nat at 1 by lia.
        rewrite insert_app_r.
        replace (Z.to_nat (expanded_capacity sz - sz))
          with (S (Z.to_nat (expanded_capacity sz - sz - 1))) by lia. done.
    + destruct Hg as (? & ? & ? & ?). by split_and!.
Qed.

(** X24.  [lean_array_push] returns an array with count 1 that holds the
    elements of [a] followed by [v], with size one larger and all its
    capacity allocated.  It is [a] itself exactly when [a] is exclusively
    owned and has room; otherwise it is a fresh object with capacity 4
    (fewer than 4 elements) or twice the size, and [a] loses one reference:
    a shared [a] stays with its count one lower and every element gains one
    reference per occurrence, an exclusive [a] is freed and the counts of
    the elements are as before.  No other cell changes. *)
Theorem lean_array_push_appends (st : state) (a : positive) (rc sz cap : Z)
    (data : list lean_obj) (v : lean_obj) :
  heap st !! a = Some (mkCell rc (LeanArray sz cap data)) →
  0 ≤ sz ≤ cap → Z.of_nat (length data) = cap → cap < 2 ^ 31 → 0 ≤ rc →
  let xs := take (Z.to_nat sz) data in
  Forall (valid_ref (heap st)) xs →
  occurrences a xs = 0%nat →
  ∃ r st' cap' rest,
    lean_array_push (lean_ptr a) v st = Ok (lean_ptr r, st') ∧
    heap st' !! r = Some (mkCell 1 (LeanArray (sz + 1) cap' (xs ++ v :: rest))) ∧
    Z.of_nat (length (xs ++ v :: rest)) = cap' ∧
    (r = a ↔ rc = 1 ∧ sz < cap) ∧
    (r = a → cap' = cap) ∧
    (r ≠ a →
       heap st !! r = None ∧
       cap' = (if sz <? 4 then 4 else 2 * sz) ∧
       heap st' !! a =
         if rc =? 1 then None
         else Some (mkCell (if rc =? 0 then 0 else rc - 1) (LeanArray sz cap data))) ∧
    (∀ p, p ≠ r → p ≠ a →
       heap st' !! p =
         if rc =? 1 then heap st !! p
         else retained (occurrences p xs) <$> heap st !! p) ∧
    same_globals st st'.
Proof.
  intros Ha Hsz Hlen Hcap Hrc xs Hval Hocc.
  destruct (lean_array_push_run st a rc sz cap data v Ha Hsz Hlen Hcap Hrc Hval Hocc)
    as (st' & Hrun & Hheap & Hg).
  cbv zeta in Hrun, Hheap. fold xs in Hheap.
  assert (Hfresh : heap st !! fresh_addr (heap st) = None) by apply fresh_addr_fresh.
  assert (Hne : a ≠ fresh_addr (heap st)) by (intros E; rewrite <- E in Hfresh; congruence).
  assert (Hxs : length xs = Z.to_nat sz).
  { subst xs. rewrite length_take. lia. }
  do 4 eexists. split; [exact Hrun|].
  split; [rewrite Hheap; apply lookup_insert_eq|].
  destruct (Z.eqb_spec rc 1) as [->|Hrc1]; [destruct (Z.ltb_spec sz cap) as [Hroom|Hfull]|];
    cbn [andb] in *.
  - split_and!; try done.
    + rewrite length_app. simpl. rewrite length_drop. lia.
    + intros p Hp _. rewrite Hheap. by rewrite lookup_insert_ne.
  - assert (Hgrow : sz + 1 ≤ expanded_capacity sz ∧
                    expanded_capacity sz = if sz <? 4 then 4 else 2 * sz).
    { unfold expanded_capacity. destruct (Z.ltb_spec sz 4); [lia|].
      rewrite size_t_small by lia. lia. }
    split_and!.
    + rewrite length_app. simpl. rewrite length_replicate. lia.
    + split; [done|]. intros [_ ?]. lia.
    + done.
    + intros _. split_and!; [done|tauto|].
      rewrite Hheap, lookup_insert_ne by done. apply lookup_delete_eq.
    + intros p Hp Hpa. rewrite Hheap, lookup_insert_ne by done.
      by rewrite lookup_delete_ne.
    + done.
  - assert (Hgrow : sz + 1 ≤ expanded_capacity sz ∧
                    expanded_capacity sz = if sz <? 4 then 4 else 2 * sz).
    { unfold expanded_capacity. destruct (Z.ltb_spec sz 4); [lia|].
      rewrite size_t_small by lia. lia. }
    split_and!.
    + rewrite length_app. simpl. rewrite length_replicate. lia.
    + split; [done|]. intros [? _]. lia.
    + done.
    + intros _. split_and!; [done|tauto|].
      rewrite Hheap, lookup_insert_ne by done.
      rewrite release1_lookup, decide_True by done.
      rewrite retain_all_lookup, Ha, Hocc. simpl. rewrite retained_0. simpl.
      f_equal. unfold set_rc. simpl.
      destruct (Z.ltb_spec 1 rc), (Z.eqb_spec rc 0); try done; try lia.
      f_equal. lia.
    + intros p Hp Hpa. rewrite Hheap, lookup_insert_ne by done.
      rewrite release1_lookup, decide_False by congruence.
      apply retain_all_lookup.
    + done.
Qed.

Lemma lean_array_push_appends_witness :
  ∃ r st',
    lean_array_push (lean_ptr 2) (lean_box 9) (st_pair_array 1 2) =
      Ok (lean_ptr r, st') ∧
    heap st' !! r =
      Some (mkCell 1 (LeanArray 3 4 [lean_ptr 1; lean_box 7; lean_box 9; NULL])) ∧
    heap st' !! 2%positive = None ∧
    heap st' !! 1%positive = Some (mkCell 1 (LeanCtor 0 [])).
Proof.
  destruct (lean_array_push_appends (st_pair_array 1 2) 2%positive 1 2 2
              [lean_ptr 1; lean_box 7] (lean_box 9))
    as (r & st' & cap' & rest & Hrun & Hr & Hlen & Hsame & _ & Hnew & Hother & _).
  - reflexivity.
  - lia.
  - reflexivity.
  - lia.
  - lia.
  - repeat constructor. exists (mkCell 1 (LeanCtor 0 [])). split; [reflexivity|simpl; lia].
  - reflexivity.
  - assert (Hra : r ≠ 2%positive) by (intros E; apply Hsame in E; lia).
    destruct (Hnew Hra) as (Hfresh & Hcap & Hold).
    assert (Hr1 : r ≠ 1%positive) by (intros ->; done).
    exists r, st'. split; [exact Hrun|]. split_and!.
    + rewrite Hcap in Hlen, Hr. simpl in Hlen, Hr.
      destruct rest as [|y [|z rest]]; simpl in Hlen; try lia.
      pose proof Hrun as Hrun'. vm_compute in Hrun'.
      injection Hrun' as Hr3 Hst. subst r st'.
      rewrite Hr. vm_compute in Hr. injection Hr as <-. reflexivity.
    + exact Hold.
    + rewrite (Hother 1%positive) by done. reflexivity.
Defined.

(** X25.  [lean_mk_array n v] with [n > 0] returns a new array of count 1
    whose [n] slots all hold [v]; the count of [v] ends [n - 1] higher (one
    reference per slot, less the one the call consumes).  With [n = 0] the
    result is an empty array and the call still consumes its reference to
    [v]: what follows the allocation is [lean_dec v]. *)
Theorem lean_mk_array_fills (st : state) (n : Z) (v : lean_obj) :
  0 ≤ n ≤ LEAN_MAX_SMALL_NAT →
  valid_ref (heap st) v →
  let r := fresh_addr (heap st) in
  (0 < n →
     lean_mk_array (lean_box n) v st =
       Ok (lean_ptr r,
           upd_heap (fun h =>
             <[r := mkCell 1 (LeanArray n n (replicate (Z.to_nat n) v))]>
               (retain_all (replicate (Z.to_nat (n - 1)) v) h)) st)) ∧
  (n = 0 →
     lean_mk_array (lean_box n) v st =
       (lean_dec v ;; ret (lean_ptr r))
         (upd_heap <[r := mkCell 1 (LeanArray 0 0 [])]> st)).
Proof.
  intros Hn Hv r.
  assert (Hr : heap st !! r = None) by apply fresh_addr_fresh.
  split.
  2:{ intros ->. unfold lean_mk_array. cbn [lean_unbox].
      run_with ltac:(reflexivity). fold r.
      run_with ltac:(eapply lean_to_array_run; simpl; apply lookup_insert_eq).
      run_with ltac:(eapply set_body_run; simpl; apply lookup_insert_eq).
      rewrite upd_heap_upd_heap. simpl for_loop. unfold ret at 1.
      unfold bind at 1. unfold upd_heap at 1. simpl.
      unfold upd_heap. simpl. by rewrite insert_insert_eq. }
  intros Hpos. unfold lean_mk_array. cbn [lean_unbox].
  run_with ltac:(reflexivity). fold r.
  run_with ltac:(eapply lean_to_array_run; simpl; apply lookup_insert_eq).
  run_with ltac:(eapply set_body_run; simpl; apply lookup_insert_eq).
  rewrite upd_heap_upd_heap.
  assert (Hloop : ∀ k pre old hbase st0,
    length old = k →
    heap st0 = <[r := mkCell 1 (LeanArray n n (pre ++ old))]> hbase →
    hbase !! r = None → valid_ref hbase v →
    for_loop k (Z.of_nat (length pre)) (mk_array_body (lean_ptr r) v) st0 =
      Ok (tt, upd_heap (fun _ =>
            <[r := mkCell 1 (LeanArray n n (pre ++ replicate k v))]>
              (retain_all (replicate k v) hbase)) st0)).
  { induction k as [|k IH]; intros pre old hbase st0 Hold Hst Hrb Hvb.
    - destruct old; [|done]. simpl. unfold ret. destruct st0; simpl in *. by subst.
    - destruct old as [|y old]; [done|]. simpl in Hold.
      simpl for_loop. unfold mk_array_body at 1.
      rewrite ?bind_assoc.
      run_with ltac:(apply lean_inc_run; rewrite Hst; by apply valid_ref_insert_fresh).
      assert (Hst2 : heap (upd_heap (retain v) st0) =
                <[r := mkCell 1 (LeanArray n n (pre ++ y :: old))]> (retain v hbase)).
      { simpl. rewrite Hst. by apply retain_insert_fresh. }
      rewrite ?bind_assoc.
      run_with ltac:(eapply lean_to_array_run; rewrite Hst2; apply lookup_insert_eq).
      rewrite ?bind_assoc.
      run_with ltac:(apply index_run; [lia|]).
      2:{ rewrite Nat2Z.id, lookup_app_r by lia. by rewrite Nat.sub_diag. }
      run_with ltac:(eapply set_body_run; rewrite Hst2; apply lookup_insert_eq).
      rewrite upd_heap_upd_heap.
      replace (Z.of_nat (length pre) + 1) with (Z.of_nat (length (pre ++ [v])))
        by (rewrite length_app; simpl; lia).
      rewrite (IH (pre ++ [v]) old (retain v hbase)).
      + rewrite upd_heap_upd_heap. unfold upd_heap. simpl.
        by rewrite <- !app_assoc.
      + lia.
      + simpl. rewrite Hst, retain_insert_fresh by done.
        rewrite insert_insert_eq. do 3 f_equal.
        rewrite Nat2Z.id.
        replace (length pre) with (length pre + 0)%nat at 1 by lia.
        rewrite insert_app_r. simpl. by rewrite <- app_assoc.
      + rewrite retain_lookup, Hrb. by destruct (decide _).
      + by apply retain_valid. }
  change (for_loop (Z.to_nat n) 0 _)
    with (for_loop (Z.to_nat n) (Z.of_nat (length (@nil lean_obj)))
            (mk_array_body (lean_ptr r) v)).
  rewrite ?bind_assoc.
  erewrite bind_ok.
  2:{ apply (Hloop (Z.to_nat n) [] (replicate (Z.to_nat n) NULL) (heap st)).
      - by rewrite length_replicate.
      - simpl. by rewrite insert_insert_eq.
      - done.
      - done. }
  cbv beta iota. rewrite upd_heap_upd_heap. simpl app.
  set (cr := mkCell 1 (LeanArray n n (replicate (Z.to_nat n) v))).
  set (st2 := upd_heap _ st).
  assert (Hst2 : heap st2 = <[r := cr]> (retain_all (replicate (Z.to_nat n) v) (heap st)))
    by done.
  assert (Hsplit : retain_all (replicate (Z.to_nat n) v) (heap st) =
            retain v (retain_all (replicate (Z.to_nat (n - 1)) v) (heap st))).
  { replace (Z.to_nat n) with (S (Z.to_nat (n - 1))) by lia.
    rewrite replicate_S_end. unfold retain_all. by rewrite foldl_app. }
  set (h1 := retain_all (replicate (Z.to_nat (n - 1)) v) (heap st)) in *.
  assert (Hv1 : valid_ref h1 v).
  { subst h1. generalize (Z.to_nat (n - 1)). intros k.
    induction k as [|k IHk]; [done|].
    rewrite replicate_S_end. unfold retain_all. rewrite foldl_app. simpl.
    by apply retain_valid. }
  assert (Hdec : lean_dec v st2 = Ok (tt, upd_heap (fun _ => <[r := cr]> h1) st2)).
  { assert (Hheap : release1 v (heap st2) = <[r := cr]> h1).
    { rewrite Hst2, Hsplit. destruct v as [|m|p]; [done|done|].
      rewrite release1_insert_other.
      - by rewrite release1_retain.
      - intros ->. destruct Hv as (c' & Hc' & _). congruence. }
    destruct v as [|m|p]; [done| |].
    - change (heap st2 = <[r := cr]> h1) in Hheap. by rewrite <- Hheap.
    - destruct Hv1 as (c & Hc & Hc0).
      assert (Hpr : p ≠ r).
      { intros ->. destruct Hv as (c' & Hc' & _). congruence. }
      assert (Hcell : heap st2 !! p = Some (retained 1 c)).
      { rewrite Hst2, lookup_insert_ne by done.
        rewrite Hsplit, retain_lookup, decide_True by done. by rewrite Hc. }
      rewrite (lean_dec_shared st2 p _ Hcell).
      + f_equal. f_equal. unfold upd_heap. f_equal. exact Hheap.
      + unfold retained, set_rc. destruct (Z.ltb_spec 0 (m_rc c)); simpl; lia.
      + unfold retained, set_rc. destruct (Z.ltb_spec 0 (m_rc c)); simpl; lia. }
  rewrite (bind_ok _ _ _ _ _ Hdec). done.
Qed.

Lemma lean_mk_array_fills_witness :
  lean_mk_array (lean_box 3) (lean_ptr 1) (st_pair_array 1 2) =
    Ok (lean_ptr (fresh_addr (heap (st_pair_array 1 2))),
        upd_heap (fun h =>
          <[fresh_addr (heap (st_pair_array 1 2)) :=
              mkCell 1 (LeanArray 3 3 [lean_ptr 1; lean_ptr 1; lean_ptr 1])]>
            (<[1%positive := mkCell 3 (LeanCtor 0 [])]> h)) (st_pair_array 1 2)).
Proof.
  destruct (lean_mk_array_fills (st_pair_array 1 2) 3 (lean_ptr 1)) as [H _].
  - unfold LEAN_MAX_SMALL_NAT. lia.
  - exists (mkCell 1 (LeanCtor 0 [])). split; [reflexivity|simpl; lia].
  - rewrite H by lia. reflexivity.
Defined.

(** X26.  The element pushed last is the one [l_Array_back___redArg]
    returns: after [lean_array_push a v], reading the back of the result
    gives [v] and takes one more reference to it. *)
Theorem array_push_then_back (st : state) (a : positive) (rc sz cap : Z)
    (data : list lean_obj) (v : lean_obj) :
  heap st !! a = Some (mkCell rc (LeanArray sz cap data)) →
  0 ≤ sz ≤ cap → Z.of_nat (length data) = cap → cap < 2 ^ 31 → 0 ≤ rc →
  Forall (valid_ref (heap st)) (take (Z.to_nat sz) data) →
  occurrences a (take (Z.to_nat sz) data) = 0%nat →
  valid_ref (heap st) v → v ≠ lean_ptr a →
  ∃ r st',
    lean_array_push (lean_ptr a) v st = Ok (lean_ptr r, st') ∧
    l_Array_back___redArg (lean_ptr r) st' = Ok (v, upd_heap (retain v) st').
Proof.
  intros Ha Hsz Hlen Hcap Hrc Hval Hocc Hv Hva.
  destruct (lean_array_push_run st a rc sz cap data v Ha Hsz Hlen Hcap Hrc Hval Hocc)
    as (st' & Hrun & Hheap & Hg).
  cbv zeta in Hrun, Hheap.
  set (xs := take (Z.to_nat sz) data) in *.
  assert (Hxs : length xs = Z.to_nat sz).
  { subst xs. rewrite length_take. lia. }
  eexists _, st'. split; [exact Hrun|].
  unfold l_Array_back___redArg.
  run_with ltac:(eapply lean_to_array_run; rewrite Hheap; apply lookup_insert_eq).
  destruct (Z.eqb_spec (sz + 1) 0); [lia|].
  rewrite size_t_small by lia.
  run_with ltac:(apply index_run; [lia|]).
  2:{ replace (Z.to_nat (sz + 1 - 1)) with (length xs + 0)%nat by lia.
      by rewrite lookup_app_r, Nat.add_sub' by lia. }
  erewrite bind_ok; [done|]. apply lean_inc_run.
  destruct v as [|m|p]; [done|done|].
  destruct Hv as (c & Hc & Hc0).
  assert (Hfresh : heap st !! fresh_addr (heap st) = None) by apply fresh_addr_fresh.
  assert (Hpa : p ≠ a) by congruence.
  rewrite Hheap.
  destruct (Z.eqb_spec rc 1) as [->|Hrc1]; [destruct (Z.ltb_spec sz cap)|]; cbn [andb].
  - exists c. by rewrite lookup_insert_ne.
  - exists c. rewrite lookup_insert_ne by congruence. by rewrite lookup_delete_ne.
  - cbn [valid_ref]. rewrite lookup_insert_ne by congruence.
    rewrite release1_lookup, decide_False by congruence.
    rewrite retain_all_lookup, Hc. simpl. eexists. split; [done|].
    unfold retained, set_rc. destruct (Z.ltb_spec 0 (m_rc c)); simpl; lia.
Qed.

Lemma array_push_then_back_witness :
  ∃ r st',
    lean_array_push (lean_ptr 2) (lean_box 9) (st_pair_array 2 2) =
      Ok (lean_ptr r, st') ∧
    l_Array_back___redArg (lean_ptr r) st' = Ok (lean_box 9, upd_heap (retain (lean_box 9)) st').
Proof.
  apply (array_push_then_back (st_pair_array 2 2) 2%positive 2 2 2
           [lean_ptr 1; lean_box 7] (lean_box 9)).
  - reflexivity.
  - lia.
  - reflexivity.
  - lia.
  - lia.
  - repeat constructor. exists (mkCell 1 (LeanCtor 0 [])). split; [reflexivity|simpl; lia].
  - reflexivity.
  - exact I.
  - discriminate.
Defined.

(** *** Lists *)

Lemma fresh_list_at_list_at h0 h : ∀ vs o,
  fresh_list_at h0 h o vs → list_at h o vs.
Proof.
  induction vs as [|v vs IH]; intros o; simpl.
  - intros ->. by eexists.
  - intros (a & tl & -> & _ & Ha & Htl). exists a, 1, 1, tl. auto.
Qed.

(** Cells outside [h0] that stay as they are keep a new list intact. *)
Lemma fresh_list_at_agree h0 h h' : ∀ vs o,
  (∀ p c, h0 !! p = None → h !! p = Some c → h' !! p = Some c) →
  fresh_list_at h0 h o vs → fresh_list_at h0 h' o vs.
Proof.
  induction vs as [|v vs IH]; intros o Hagree; simpl; [done|].
  intros (a & tl & -> & Hnew & Ha & Htl). exists a, tl. split_and!; auto.
Qed.

Lemma list_at_functional h : ∀ vs ws o,
  list_at h o vs → list_at h o ws → vs = ws.
Proof.
  induction vs as [|v vs IH]; intros [|w ws] o; simpl.
  - done.
  - intros [n ->] (a & ? & ? & ? & ? & _). done.
  - intros (a & ? & ? & ? & -> & _) [n ?]. done.
  - intros (a & rc & tag & tl & -> & Ha & Htl) (a' & rc' & tag' & tl' & [= <-] & Ha' & Htl').
    rewrite Ha in Ha'. injection Ha' as _ _ <- <-. f_equal. by eapply IH.
Qed.

(** A list does not pass through its own first cell again. *)
Lemma list_at_avoid h a us : list_at h (lean_ptr a) us →
  ∀ vs o, (length vs < length us)%nat → list_at h o vs → list_at (delete a h) o vs.
Proof.
  intros Hus. induction vs as [|v vs IH]; intros o Hlen; simpl; [done|].
  intros (b & rc & tag & tl & -> & Hb & Htl).
  assert (b ≠ a).
  { intros ->.
    assert (us = v :: vs) as ->; [|simpl in Hlen; lia].
    eapply list_at_functional; [exact Hus|]. simpl. eauto 10. }
  exists b, rc, tag, tl. split_and!; [done|by rewrite lookup_delete_ne|].
  apply IH; [simpl in Hlen; lia|done].
Qed.

(** A list has a cell for each of its elements. *)
Lemma list_at_length_le_size : ∀ vs h o,
  list_at h o vs → (length vs ≤ size h)%nat.
Proof.
  induction vs as [|v vs IH]; intros h o Hl; [simpl; lia|].
  pose proof Hl as (a & rc & tag & tl & -> & Ha & Htl).
  assert (Htl' : list_at (delete a h) tl vs).
  { eapply list_at_avoid; [exact Hl|simpl; lia|done]. }
  apply IH in Htl'. rewrite map_size_delete_Some in Htl' by eauto.
  assert (size h ≠ 0)%nat.
  { apply map_size_ne_0_lookup. eauto. }
  simpl. lia.
Qed.

Lemma lean_ctor_get_run st a rc tag objs i v :
  heap st !! a = Some (mkCell rc (LeanCtor tag objs)) →
  0 ≤ i → objs !! Z.to_nat i = Some v →
  lean_ctor_get (lean_ptr a) i st = Ok (v, st).
Proof.
  intros Ha Hi Hv. unfold lean_ctor_get, bind, load. rewrite Ha. simpl.
  by apply index_run.
Qed.

Lemma list_cons_run st hd r :
  list_cons hd r st =
    Ok (lean_ptr (fresh_addr (heap st)),
        upd_heap <[fresh_addr (heap st) := mkCell 1 (LeanCtor 1 [hd; r])]> st).
Proof.
  unfold list_cons.
  run_with ltac:(apply lean_alloc_ctor_run).
  run_with ltac:(eapply lean_ctor_set_run; [simpl; apply lookup_insert_eq|simpl; lia]).
  run_with ltac:(eapply lean_ctor_set_run; [simpl; apply lookup_insert_eq|simpl; lia]).
  unfold ret. rewrite !upd_heap_upd_heap. unfold upd_heap. simpl.
  by rewrite !insert_insert_eq.
Qed.

Lemma list_length_loop_run : ∀ vs fuel o len st,
  list_at (heap st) o vs → (length vs ≤ fuel)%nat →
  0 ≤ len → len + Z.of_nat (length vs) < 2 ^ 32 →
  list_length_loop fuel o len st = Ok (len + Z.of_nat (length vs), st).
Proof.
  induction vs as [|v vs IH]; intros fuel o len st Hl Hfuel Hlen Hbig.
  - destruct Hl as [n ->]. destruct fuel; simpl; unfold ret; do 2 f_equal; lia.
  - destruct Hl as (a & rc & tag & tl & -> & Ha & Htl).
    destruct fuel as [|fuel]; [simpl in Hfuel; lia|].
    cbn [list_length_loop lean_is_scalar].
    run_with ltac:(by eapply lean_ctor_get_run).
    rewrite size_t_small by (simpl length in Hbig; lia).
    rewrite IH; [|done|simpl in Hfuel; lia|lia|simpl length in Hbig; lia].
    do 2 f_equal. simpl length. lia.
Qed.

Lemma l_List_lengthTR_run st o vs :
  list_at (heap st) o vs → Z.of_nat (length vs) < 2 ^ 31 →
  l_List_lengthTR___redArg o st = Ok (lean_box (Z.of_nat (length vs)), st).
Proof.
  intros Hl Hbig. unfold l_List_lengthTR___redArg.
  erewrite bind_ok.
  2:{ apply (list_length_loop_run vs); [done| |lia|lia].
      apply list_at_length_le_size in Hl. lia. }
  unfold ret, lean_box_sz. rewrite Z.add_0_l, Z.mod_small by lia. done.
Qed.

Lemma list_skip_run : ∀ vs n o st,
  list_at (heap st) o vs → 0 ≤ n →
  ∃ cur, list_skip (Z.to_nat n) n o st = Ok (cur, st) ∧
         list_at (heap st) cur (drop (Z.to_nat n) vs).
Proof.
  induction vs as [|v vs IH]; intros n o st Hl Hn.
  - destruct Hl as [m ->]. exists (lean_box m).
    rewrite drop_nil. split; [|by exists m].
    destruct (Z.to_nat n); simpl; by rewrite andb_false_r.
  - pose proof Hl as (a & rc & tag & tl & -> & Ha & Htl).
    destruct (Z.ltb_spec 0 n) as [Hpos|Hzero].
    + replace (Z.to_nat n) with (S (Z.to_nat (n - 1))) by lia.
      cbn [list_skip lean_is_scalar negb andb].
      destruct (Z.ltb_spec 0 n); [|lia]. cbn [andb].
      run_with ltac:(by eapply lean_ctor_get_run).
      destruct (IH (n - 1) tl st Htl) as (cur & Hrun & Hcur); [lia|].
      exists cur. split; [done|]. by rewrite skipn_cons.
    + replace n with 0 by lia. exists (lean_ptr a). simpl.
      split; [done|]. by exists a, rc, tag, tl.
Qed.

Lemma l_List_get_beyond st xs vs n fallback :
  list_at (heap st) xs vs → 0 ≤ n → Z.of_nat (length vs) ≤ n →
  l_List_get_x21Internal___redArg xs (lean_box n) fallback st = Ok (fallback, st).
Proof.
  intros Hl Hn Hlen. unfold l_List_get_x21Internal___redArg. cbn [lean_unbox].
  destruct (list_skip_run vs n xs st Hl Hn) as (cur & Hrun & Hcur).
  rewrite (bind_ok _ _ _ _ _ Hrun).
  rewrite drop_ge in Hcur by lia. by destruct Hcur as [m ->].
Qed.

Lemma l_List_get_within st xs vs n fallback v :
  list_at (heap st) xs vs → 0 ≤ n → vs !! Z.to_nat n = Some v →
  valid_ref (heap st) v →
  l_List_get_x21Internal___redArg xs (lean_box n) fallback st =
    (lean_dec fallback ;; ret v) (upd_heap (retain v) st).
Proof.
  intros Hl Hn Hv Hvalid. unfold l_List_get_x21Internal___redArg. cbn [lean_unbox].
  destruct (list_skip_run vs n xs st Hl Hn) as (cur & Hrun & Hcur).
  rewrite (bind_ok _ _ _ _ _ Hrun).
  rewrite (drop_S _ _ _ Hv) in Hcur.
  destruct Hcur as (a & rc & tag & tl & -> & Ha & _). cbn [lean_is_scalar].
  run_with ltac:(by eapply lean_ctor_get_run).
  by run_with ltac:(by apply lean_inc_run).
Qed.

Lemma numbers_S n : numbers (S n) = numbers n ++ [lean_box (Z.of_nat n)].
Proof. unfold numbers. by rewrite seq_S, map_app. Qed.

Lemma numbers_lookup n k :
  (k < n)%nat → numbers n !! k = Some (lean_box (Z.of_nat k)).
Proof.
  intros Hk. unfold numbers. rewrite list_lookup_fmap.
  by rewrite lookup_seq_lt by done.
Qed.

Lemma range_loop h0 : ∀ k st r ws,
  Z.of_nat k < 2 ^ 31 →
  fresh_list_at h0 (heap st) r ws →
  (∀ p c, h0 !! p = Some c → heap st !! p = Some c) →
  ∃ r' h',
    for_down k (Z.of_nat k) (fun i r => list_cons (lean_box_sz (i - 1)) r) r st =
      Ok (r', upd_heap (fun _ => h') st) ∧
    fresh_list_at h0 h' r' (numbers k ++ ws) ∧
    (∀ p c, h0 !! p = Some c → h' !! p = Some c).
Proof.
  induction k as [|k IH]; intros st r ws Hk Hl Hold.
  - exists r, (heap st). split_and!; [by destruct st|done|done].
  - cbn [for_down]. rewrite (bind_ok _ _ _ _ _ (list_cons_run st _ r)).
    set (c := fresh_addr (heap st)).
    assert (Hc : heap st !! c = None) by apply fresh_addr_fresh.
    assert (Hc0 : h0 !! c = None).
    { destruct (h0 !! c) as [x|] eqn:E; [|done]. apply Hold in E. congruence. }
    replace (Z.of_nat (S k) - 1) with (Z.of_nat k) by lia.
    rewrite lean_box_sz_small by lia.
    destruct (IH (upd_heap <[c := mkCell 1 (LeanCtor 1 [lean_box (Z.of_nat k); r])]> st)
                (lean_ptr c) (lean_box (Z.of_nat k) :: ws))
      as (r' & h' & Hrun & Hl' & Hold').
    + lia.
    + simpl. exists c, r. split_and!; [done|done|apply lookup_insert_eq|].
      eapply fresh_list_at_agree; [|exact Hl].
      intros p x _ Hp. rewrite lookup_insert_ne; [done|]. intros <-. congruence.
    + intros p x Hp. simpl. rewrite lookup_insert_ne; [by apply Hold|].
      intros <-. congruence.
    + exists r', h'. split_and!; [|by rewrite numbers_S, <- app_assoc|done].
      rewrite Hrun. by rewrite upd_heap_upd_heap.
Qed.

(** X27.  [l_List_range n] builds the list [0, 1, ..., n - 1] out of [n]
    new cells, each owned once, and leaves every cell that was there as it
    was.  On the result [l_List_lengthTR___redArg] returns [n], and
    [l_List_get_x21Internal___redArg] returns [i] at every index [i < n] and
    the fallback at every other index. *)
Theorem list_range_counts (st : state) (n : Z) :
  0 ≤ n ≤ LEAN_MAX_SMALL_NAT →
  ∃ r h',
    l_List_range (lean_box n) st = Ok (r, upd_heap (fun _ => h') st) ∧
    fresh_list_at (heap st) h' r (numbers (Z.to_nat n)) ∧
    (∀ p c, heap st !! p = Some c → h' !! p = Some c) ∧
    l_List_lengthTR___redArg r (upd_heap (fun _ => h') st) =
      Ok (lean_box n, upd_heap (fun _ => h') st) ∧
    (∀ i fb, 0 ≤ i →
       l_List_get_x21Internal___redArg r (lean_box i) (lean_box fb)
           (upd_heap (fun _ => h') st) =
         Ok (lean_box (if i <? n then i else fb), upd_heap (fun _ => h') st)).
Proof.
  unfold LEAN_MAX_SMALL_NAT. intros Hn.
  destruct (range_loop (heap st) (Z.to_nat n) st (lean_box 0) [])
    as (r & h' & Hrun & Hl & Hold); [lia|done|done|].
  rewrite app_nil_r in Hl. rewrite Z2Nat.id in Hrun by lia.
  exists r, h'. split; [exact Hrun|]. split; [done|]. split; [done|].
  set (st' := upd_heap (fun _ => h') st).
  assert (Hat : list_at (heap st') r (numbers (Z.to_nat n))).
  { by apply (fresh_list_at_list_at (heap st)). }
  assert (Hlen : length (numbers (Z.to_nat n)) = Z.to_nat n).
  { unfold numbers. by rewrite length_map, length_seq. }
  split.
  - rewrite (l_List_lengthTR_run st' r _ Hat) by (rewrite Hlen; lia).
    rewrite Hlen. by rewrite Z2Nat.id by lia.
  - intros i fb Hi. destruct (Z.ltb_spec i n).
    + rewrite (l_List_get_within st' r _ i (lean_box fb) (lean_box i) Hat Hi).
      * by destruct st.
      * rewrite numbers_lookup by lia. by rewrite Z2Nat.id by lia.
      * done.
    + apply (l_List_get_beyond st' r _ i _ Hat Hi). rewrite Hlen. lia.
Qed.

Lemma list_range_counts_witness :
  ∃ r h',
    l_List_range (lean_box 3) (st_pair_array 1 2) =
      Ok (r, upd_heap (fun _ => h') (st_pair_array 1 2)) ∧
    fresh_list_at (heap (st_pair_array 1 2)) h' r [lean_box 0; lean_box 1; lean_box 2] ∧
    l_List_lengthTR___redArg r (upd_heap (fun _ => h') (st_pair_array 1 2)) =
      Ok (lean_box 3, upd_heap (fun _ => h') (st_pair_array 1 2)).
Proof.
  destruct (list_range_counts (st_pair_array 1 2) 3) as (r & h' & H1 & H2 & _ & H4 & _).
  - unfold LEAN_MAX_SMALL_NAT. lia.
  - exists r, h'. split_and!; [exact H1|exact H2|exact H4].
Defined.

(** X28.  On any list, [l_List_lengthTR___redArg] returns the number of
    elements and [l_List_isEmpty___redArg] tells whether there is none, both
    without changing anything.  [l_List_get_x21Internal___redArg xs n fb]
    returns [fb] and changes nothing when [n] is not an index of the list;
    at an index it returns the element there with its count raised by one
    and releases [fb]. *)
Theorem list_length_and_get (st : state) (xs : lean_obj) (vs : list lean_obj) :
  list_at (heap st) xs vs →
  Z.of_nat (length vs) < 2 ^ 31 →
  l_List_lengthTR___redArg xs st = Ok (lean_box (Z.of_nat (length vs)), st) ∧
  l_List_isEmpty___redArg xs st = Ok (if bool_decide (vs = []) then 1 else 0, st) ∧
  (∀ n fb, Z.of_nat (length vs) ≤ n →
     l_List_get_x21Internal___redArg xs (lean_box n) fb st = Ok (fb, st)) ∧
  (∀ n fb v, 0 ≤ n → vs !! Z.to_nat n = Some v → valid_ref (heap st) v →
     l_List_get_x21Internal___redArg xs (lean_box n) fb st =
       (lean_dec fb ;; ret v) (upd_heap (retain v) st)).
Proof.
  intros Hl Hbig. split_and!.
  - by apply l_List_lengthTR_run.
  - unfold l_List_isEmpty___redArg, ret. destruct vs as [|v vs]; simpl in Hl.
    + by destruct Hl as [n ->].
    + by destruct Hl as (a & ? & ? & ? & -> & _).
  - intros n fb Hn. eapply l_List_get_beyond; [done|lia|done].
  - intros n fb v Hn Hv Hvalid. by eapply l_List_get_within.
Qed.

Lemma list_length_and_get_witness :
  l_List_lengthTR___redArg (lean_ptr 2) st_list =
    Ok (lean_box 2, st_list) ∧
  l_List_get_x21Internal___redArg (lean_ptr 2) (lean_box 1) (lean_box 5) st_list =
    Ok (lean_box 8, st_list) ∧
  l_List_get_x21Internal___redArg (lean_ptr 2) (lean_box 2) (lean_box 5) st_list =
    Ok (lean_box 5, st_list).
Proof.
  destruct (list_length_and_get st_list (lean_ptr 2) [lean_box 7; lean_box 8])
    as (H1 & _ & H3 & H4).
  - simpl. exists 2%positive, 1, 1, (lean_ptr 1). split_and!; [done|done|].
    exists 1%positive, 1, 1, (lean_box 0). split_and!; [done|done|]. by exists 0.
  - simpl. lia.
  - split_and!.
    + exact H1.
    + rewrite (H4 1 (lean_box 5) (lean_box 8)); [reflexivity|lia|reflexivity|exact I].
    + apply H3. simpl. lia.
Defined.

(** *** From an array to a list *)

Lemma retained_array k rc sz cap data :
  ∃ rc', retained k (mkCell rc (LeanArray sz cap data)) =
           mkCell rc' (LeanArray sz cap data).
Proof.
  unfold retained, set_rc. simpl. destruct (0 <? rc); eauto.
Qed.

Lemma retained_nonneg k c : 0 ≤ m_rc c → 0 ≤ m_rc (retained k c).
Proof.
  intros H. unfold retained, set_rc. destruct (Z.ltb_spec 0 (m_rc c)); simpl; lia.
Qed.

Lemma to_list_loop h0 a rc sz cap data :
  h0 !! a = Some (mkCell rc (LeanArray sz cap data)) →
  ∀ k st r,
    (k ≤ length data)%nat →
    Forall (valid_ref h0) (take k data) →
    (∀ p c, h0 !! p = Some c → ∃ j, heap st !! p = Some (retained j c)) →
    ∃ r' h',
      for_down k (Z.of_nat k) (to_list_body (lean_ptr a)) r st =
        Ok (r', upd_heap (fun _ => h') st) ∧
      (∀ ws, fresh_list_at h0 (heap st) r ws →
             (∀ p c, h0 !! p = Some c →
                     heap st !! p = Some (retained (occurrences p ws) c)) →
             fresh_list_at h0 h' r' (take k data ++ ws) ∧
             (∀ p c, h0 !! p = Some c →
                     h' !! p = Some (retained (occurrences p (take k data ++ ws)) c))).
Proof.
  intros Ha. induction k as [|k IH]; intros st r Hk Hval Hdom.
  - exists r, (heap st). split; [by destruct st|]. intros ws Hl Hold. by simpl.
  - destruct (lookup_lt_is_Some_2 data k) as [x Hx]; [lia|].
    rewrite (take_S_r _ _ _ Hx) in Hval |- *.
    apply Forall_app in Hval as [Hval Hvx]. rewrite Forall_singleton in Hvx.
    cbn [for_down]. unfold to_list_body at 1.
    destruct (Hdom _ _ Ha) as [ja Hja].
    destruct (retained_array ja rc sz cap data) as [rc' Hrc']. rewrite Hrc' in Hja.
    rewrite !bind_assoc.
    run_with ltac:(by eapply lean_to_array_run).
    rewrite !bind_assoc.
    run_with ltac:(apply index_run; [lia|]).
    2:{ replace (Z.to_nat (Z.of_nat (S k) - 1)) with k by lia. exact Hx. }
    assert (Hvalid : valid_ref (heap st) x).
    { destruct x as [|n|p]; [by simpl in Hvx|done|].
      destruct Hvx as (c & Hc & Hc0). destruct (Hdom _ _ Hc) as [j Hj].
      exists (retained j c). split; [done|]. by apply retained_nonneg. }
    rewrite ?bind_assoc.
    run_with ltac:(by apply lean_inc_run).
    rewrite (bind_ok _ _ _ _ _ (list_cons_run _ x r)).
    set (st1 := upd_heap (retain x) st).
    set (c := fresh_addr (heap st1)).
    assert (Hc : heap st1 !! c = None) by apply fresh_addr_fresh.
    assert (Hcst : heap st !! c = None).
    { simpl in Hc. rewrite retain_lookup in Hc.
      destruct (decide _); [|done]. by destruct (heap st !! c). }
    assert (Hc0 : h0 !! c = None).
    { destruct (h0 !! c) as [y|] eqn:E; [|done].
      destruct (Hdom _ _ E) as [j Hj]. congruence. }
    set (st2 := upd_heap <[c := mkCell 1 (LeanCtor 1 [x; r])]> st1).
    replace (Z.of_nat (S k) - 1) with (Z.of_nat k) by lia.
    destruct (IH st2 (lean_ptr c)) as (r' & h' & Hrun & Hpost); [lia|done| |].
    { intros p y Hp. destruct (Hdom _ _ Hp) as [j Hj].
      assert (p ≠ c) by (intros ->; congruence).
      simpl. rewrite lookup_insert_ne by done. rewrite retain_lookup, Hj.
      destruct (decide _); simpl; [|eauto].
      rewrite retained_retained. eauto. }
    exists r', h'. split.
    { by rewrite Hrun. }
    intros ws Hl Hold.
    destruct (Hpost (x :: ws)) as [Hl' Hold'].
    + simpl. exists c, r. split_and!; [done|done|apply lookup_insert_eq|].
      eapply fresh_list_at_agree; [|exact Hl].
      intros p y Hp0 Hp.
      assert (p ≠ c) by (intros ->; congruence).
      rewrite lookup_insert_ne by done. rewrite retain_lookup, Hp.
      destruct (decide (x = lean_ptr p)) as [->|]; [|done].
      destruct Hvx as (? & ? & _). congruence.
    + intros p y Hp.
      assert (p ≠ c) by (intros ->; congruence).
      simpl. rewrite lookup_insert_ne by done.
      rewrite retain_lookup, (Hold _ _ Hp), occurrences_cons.
      destruct (decide (x = lean_ptr p)); simpl; [|done].
      rewrite retained_retained. do 2 f_equal. lia.
    + rewrite <- app_assoc. done.
Qed.

Lemma unretained_retained_any k c : unretained k (retained k c) = c.
Proof.
  unfold unretained, retained, set_rc.
  destruct (Z.ltb_spec 0 (m_rc c)); simpl.
  - destruct (Z.ltb_spec 0 (m_rc c + Z.of_nat k)); [|lia].
    destruct c as [rc b]. simpl. f_equal. lia.
  - destruct (Z.ltb_spec 0 (m_rc c)); [lia|done].
Qed.

(** X29.  [lean_array_to_list a] returns the list of the elements of [a],
    in order, built of new cells that are each owned once; an empty array
    gives the scalar 0.  The reference to [a] is consumed: a shared [a]
    keeps its cell with the count one lower and every element gains one
    reference per occurrence, an exclusively owned [a] is freed and the
    counts of the elements end as they were.  No other cell changes. *)
Theorem lean_array_to_list_elements (st : state) (a : positive) (rc sz cap : Z)
    (data : list lean_obj) :
  heap st !! a = Some (mkCell rc (LeanArray sz cap data)) →
  0 ≤ sz ≤ Z.of_nat (length data) → 0 ≤ rc →
  let xs := take (Z.to_nat sz) data in
  Forall (valid_ref (heap st)) xs →
  occurrences a xs = 0%nat →
  ∃ r st',
    lean_array_to_list (lean_ptr a) st = Ok (r, st') ∧
    fresh_list_at (heap st) (heap st') r xs ∧
    (∀ p c, heap st !! p = Some c → p ≠ a →
       heap st' !! p =
         Some (if rc =? 1 then c else retained (occurrences p xs) c)) ∧
    heap st' !! a =
      (if rc =? 1 then None
       else Some (mkCell (if rc =? 0 then 0 else rc - 1) (LeanArray sz cap data))) ∧
    same_globals st st'.
Proof.
  intros Ha Hsz Hrc xs Hval Hocc.
  unfold lean_array_to_list.
  run_with ltac:(by eapply lean_to_array_run).
  destruct (to_list_loop (heap st) a rc sz cap data Ha (Z.to_nat sz) st (lean_box 0))
    as (r & h' & Hrun & Hpost); [lia|done| |].
  { intros p c Hp. exists 0%nat. by rewrite retained_0. }
  rewrite Z2Nat.id in Hrun by lia.
  rewrite (bind_ok _ _ _ _ _ Hrun).
  destruct (Hpost []) as [Hl Hold]; [done| |].
  { intros p c Hp. by rewrite retained_0. }
  rewrite app_nil_r in Hl, Hold. fold xs in Hl, Hold.
  set (st1 := upd_heap (fun _ => h') st).
  assert (Ha1 : heap st1 !! a = Some (mkCell rc (LeanArray sz cap data))).
  { simpl. by rewrite (Hold _ _ Ha), Hocc, retained_0. }
  assert (Hfresh : ∀ p, heap st !! p = None → occurrences p xs = 0%nat).
  { intros p Hp. by eapply occurrences_fresh. }
  destruct (Z.eqb_spec rc 1) as [->|Hne].
  - destruct (lean_dec_array_exclusive st1 a sz cap data Ha1 Hsz)
      as (st' & Hdec & Hheap & Hu & Hea & Heb & Hf).
    { split.
      - eapply Forall_impl; [exact Hval|]. by intros [|n|p].
      - intros p Hp.
        assert (Hin : lean_ptr p ∈ take (Z.to_nat sz) data).
        { apply list_elem_of_In. apply (count_occ_In lean_obj_eq_dec).
          unfold occurrences in Hp. lia. }
        rewrite Forall_forall in Hval. destruct (Hval _ Hin) as (c & Hc & Hc0).
        exists (retained (occurrences p xs) c). split; [by apply Hold|].
        unfold retained, set_rc. fold xs.
        destruct (Z.ltb_spec 0 (m_rc c)); simpl; lia. }
    { done. }
    rewrite (bind_ok _ _ _ _ _ Hdec). exists r, st'. split; [done|].
    fold xs in Hheap.
    assert (Hsb : shared_beyond xs h').
    { split.
      - eapply Forall_impl; [exact Hval|]. by intros [|n|p].
      - intros p Hp.
        assert (Hin : lean_ptr p ∈ xs).
        { apply list_elem_of_In. apply (count_occ_In lean_obj_eq_dec).
          unfold occurrences in Hp. lia. }
        rewrite Forall_forall in Hval. destruct (Hval _ Hin) as (c & Hc & Hc0).
        exists (retained (occurrences p xs) c). split; [by apply Hold|].
        unfold retained, set_rc.
        destruct (Z.ltb_spec 0 (m_rc c)); simpl; lia. }
    split_and!.
    + eapply fresh_list_at_agree; [|exact Hl].
      intros p c Hp0 Hp. rewrite Hheap.
      rewrite lookup_delete_ne by (intros ->; congruence).
      change (heap st1) with h'. rewrite release_all_lookup by done.
      rewrite Hp, (Hfresh _ Hp0). simpl. by rewrite unretained_0.
    + intros p c Hp Hpa. rewrite Hheap, lookup_delete_ne by done.
      change (heap st1) with h'. rewrite release_all_lookup by done.
      rewrite (Hold _ _ Hp). simpl. by rewrite unretained_retained_any.
    + rewrite Hheap. apply lookup_delete_eq.
    + by split_and!.
  - erewrite bind_ok; [|by eapply (lean_dec_shared st1 a)].
    eexists r, _. split; [reflexivity|].
    change (heap (upd_heap (release1 (lean_ptr a)) st1))
      with (release1 (lean_ptr a) h').
    split_and!.
    + eapply fresh_list_at_agree; [|exact Hl].
      intros p c Hp0 Hp. rewrite release1_lookup, decide_False; [done|].
      intros [= ->]. congruence.
    + intros p c Hp Hpa. rewrite release1_lookup, decide_False by congruence.
      by apply Hold.
    + rewrite release1_lookup, decide_True by done.
      change (heap st1) with h' in Ha1. rewrite Ha1. simpl. f_equal.
      unfold set_rc. simpl.
      destruct (Z.ltb_spec 1 rc), (Z.eqb_spec rc 0); try done; try lia.
      f_equal. lia.
    + done.
Qed.

Lemma lean_array_to_list_elements_witness :
  ∃ r st',
    lean_array_to_list (lean_ptr 2) (st_pair_array 1 2) = Ok (r, st') ∧
    fresh_list_at (heap (st_pair_array 1 2)) (heap st') r [lean_ptr 1; lean_box 7] ∧
    heap st' !! 1%positive = Some (mkCell 1 (LeanCtor 0 [])) ∧
    heap st' !! 2%positive = None.
Proof.
  destruct (lean_array_to_list_elements (st_pair_array 1 2) 2%positive 1 2 2
              [lean_ptr 1; lean_box 7])
    as (r & st' & Hrun & Hl & Hold & Ha & _).
  - reflexivity.
  - simpl. lia.
  - lia.
  - repeat constructor. exists (mkCell 1 (LeanCtor 0 [])). split; [reflexivity|simpl; lia].
  - reflexivity.
  - exists r, st'. split_and!.
    + exact Hrun.
    + exact Hl.
    + rewrite (Hold 1%positive (mkCell 1 (LeanCtor 0 []))); [reflexivity|reflexivity|done].
    + exact Ha.
Defined.

(** *** Between byte arrays and lists *)

Lemma list_at_insert_fresh h p c : ∀ vs o,
  h !! p = None → list_at h o vs → list_at (<[p := c]> h) o vs.
Proof.
  induction vs as [|v vs IH]; intros o Hp; simpl; [done|].
  intros (a & rc & tag & tl & -> & Ha & Htl).
  exists a, rc, tag, tl. split_and!; [done| |by apply IH].
  rewrite lookup_insert_ne; [done|]. intros ->. congruence.
Qed.

Lemma list_over_list_at h0 : ∀ vs h o, list_over h0 h o vs → list_at h o vs.
Proof.
  induction vs as [|v vs IH]; intros h o; simpl.
  - intros [-> _]. by eexists.
  - intros (a & tl & h' & -> & Ha & -> & Htl).
    exists a, 1, 1, tl. split_and!; [done|apply lookup_insert_eq|].
    apply list_at_insert_fresh; [done|by apply IH].
Qed.

Lemma list_over_lookup h0 : ∀ vs h o p c,
  list_over h0 h o vs → h0 !! p = Some c → h !! p = Some c.
Proof.
  induction vs as [|v vs IH]; intros h o p c; simpl.
  - by intros [_ ->].
  - intros (a & tl & h' & -> & Ha & -> & Htl) Hp.
    pose proof (IH _ _ _ _ Htl Hp) as Hp'.
    rewrite lookup_insert_ne; [done|]. intros ->. congruence.
Qed.

Lemma list_over_fresh h0 vs h o p :
  list_over h0 h o vs → h !! p = None → h0 !! p = None.
Proof.
  intros Hl Hp. destruct (h0 !! p) as [c|] eqn:E; [|done].
  rewrite (list_over_lookup _ _ _ _ _ _ Hl E) in Hp. done.
Qed.

Lemma list_over_insert h0 p c : ∀ vs h o,
  list_over h0 h o vs → h !! p = None →
  list_over (<[p := c]> h0) (<[p := c]> h) o vs.
Proof.
  induction vs as [|v vs IH]; intros h o; simpl.
  - by intros [-> ->] _.
  - intros (a & tl & h' & -> & Ha & -> & Htl) Hp.
    assert (a ≠ p) by (intros ->; by rewrite lookup_insert_eq in Hp).
    rewrite lookup_insert_ne in Hp by done.
    exists a, tl, (<[p := c]> h'). split_and!.
    + done.
    + by rewrite lookup_insert_ne.
    + by apply insert_insert_ne.
    + by apply IH.
Qed.

(** Releasing a list of scalars that nobody else owns frees its cells and
    nothing else. *)
Lemma release_list_over : ∀ vs fuel o st h0,
  list_over h0 (heap st) o vs →
  Forall (fun v => lean_is_scalar v = true) vs →
  (length vs ≤ fuel)%nat →
  ∃ st',
    lean_dec_with (lean_dec_ref_cold fuel) o st = Ok (tt, st') ∧
    heap st' = h0 ∧ same_globals st st'.
Proof.
  induction vs as [|v vs IH]; intros fuel o st h0 Hl Hsc Hfuel.
  - destruct Hl as [-> Hh]. exists st. by split_and!.
  - destruct Hl as (a & tl & h' & -> & Ha & Hheap & Htl).
    apply Forall_cons in Hsc as [Hv Hsc].
    destruct v as [|n|q]; try done.
    destruct fuel as [|fuel]; [simpl in Hfuel; lia|].
    assert (Hcell : heap st !! a = Some (mkCell 1 (LeanCtor 1 [lean_box n; tl]))).
    { rewrite Hheap. apply lookup_insert_eq. }
    cbn [lean_dec_with]. unfold lean_dec_ref_with.
    unfold bind at 1, load at 1. rewrite Hcell. cbn [m_rc].
    change (1 <? 1) with false. change (1 =? 0) with false. cbv iota.
    cbn [lean_dec_ref_cold].
    set (st1 := mkState (heap st) (uninit st) (l_Array_empty st) (l_ByteArray_empty st)
                        (S (frames st)) (Nat.max (peak_frames st) (S (frames st)))).
    assert (Henter : enter_frame st = Ok (tt, st1)) by done.
    rewrite (bind_ok _ _ _ _ _ Henter).
    assert (Hload : load a st1 = Ok (mkCell 1 (LeanCtor 1 [lean_box n; tl]), st1)).
    { unfold load. simpl heap. by rewrite Hcell. }
    rewrite (bind_ok _ _ _ _ _ Hload). cbn [m_rc m_body].
    change (1 =? 1) with true. cbv iota.
    destruct (IH fuel tl st1 (<[a := mkCell 1 (LeanCtor 1 [lean_box n; tl])]> h0))
      as (st2 & Hdec & Hheap2 & Hu & Hea & Heb & Hf).
    { simpl heap. rewrite Hheap. by apply list_over_insert. }
    { done. }
    { simpl in Hfuel. lia. }
    cbn [for_each lean_dec_with]. rewrite !bind_assoc.
    run_with ltac:(reflexivity).
    rewrite !bind_assoc. rewrite (bind_ok _ _ _ _ _ Hdec).
    run_with ltac:(reflexivity).
    unfold bind at 1. unfold lean_free_object at 1.
    rewrite Hheap2, lookup_insert_eq.
    unfold leave_frame. eexists. split; [reflexivity|]. simpl.
    split.
    + rewrite Hheap2. apply delete_insert_id. by eapply list_over_fresh.
    + unfold same_globals. simpl. rewrite Hu, Hea, Heb, Hf. done.
Qed.

Lemma byte_list_loop h0 a rc sz cap data :
  h0 !! a = Some (mkCell rc (LeanScalarArray sz cap data)) →
  ∀ k st r ws,
    (k ≤ length data)%nat →
    Forall (fun b => 0 ≤ b < 256) (take k data) →
    list_over h0 (heap st) r ws →
    ∃ r' h',
      for_down k (Z.of_nat k) (byte_list_body (lean_ptr a)) r st =
        Ok (r', upd_heap (fun _ => h') st) ∧
      list_over h0 h' r' (map lean_box (take k data) ++ ws).
Proof.
  intros Ha. induction k as [|k IH]; intros st r ws Hk Hbytes Hl.
  - exists r, (heap st). split; [by destruct st|done].
  - destruct (lookup_lt_is_Some_2 data k) as [b Hb]; [lia|].
    rewrite (take_S_r _ _ _ Hb) in Hbytes |- *.
    apply Forall_app in Hbytes as [Hbytes Hb256]. rewrite Forall_singleton in Hb256.
    cbn [for_down]. unfold byte_list_body at 1. rewrite !bind_assoc.
    run_with ltac:(apply lean_alloc_ctor_run).
    set (c := fresh_addr (heap st)).
    assert (Hc : heap st !! c = None) by apply fresh_addr_fresh.
    assert (Hac : a ≠ c).
    { intros ->. rewrite (list_over_lookup _ _ _ _ _ _ Hl Ha) in Hc. done. }
    rewrite !bind_assoc.
    run_with ltac:(eapply lean_to_sarray_run; simpl; rewrite lookup_insert_ne by done;
                   by eapply list_over_lookup).
    rewrite !bind_assoc.
    run_with ltac:(apply index_run; [lia|]).
    2:{ replace (Z.to_nat (Z.of_nat (S k) - 1)) with k by lia. exact Hb. }
    rewrite ?bind_assoc.
    run_with ltac:(eapply lean_ctor_set_run; [simpl; apply lookup_insert_eq|simpl; lia]).
    rewrite ?bind_assoc.
    run_with ltac:(eapply lean_ctor_set_run; [simpl; apply lookup_insert_eq|simpl; lia]).
    run_with ltac:(reflexivity).
    rewrite !upd_heap_upd_heap.
    rewrite lean_box_sz_small by lia.
    replace (Z.of_nat (S k) - 1) with (Z.of_nat k) by lia.
    set (st1 := upd_heap _ st).
    destruct (IH st1 (lean_ptr c) (lean_box b :: ws)) as (r' & h' & Hrun & Hl'); [lia|done| |].
    { simpl. exists c, r, (heap st). split_and!; [done|done| |done].
      by rewrite !insert_insert_eq. }
    exists r', h'. split; [by rewrite Hrun|].
    by rewrite map_app, <- app_assoc.
Qed.

Lemma byte_array_mk_loop_run arr sz cap hbase : ∀ vs i d p st,
  heap st = <[arr := mkCell 1 (LeanScalarArray sz cap d)]> hbase →
  hbase !! arr = None →
  list_at hbase p vs →
  0 ≤ i → i + Z.of_nat (length vs) ≤ Z.of_nat (length d) →
  byte_array_mk_loop (length vs) i (lean_ptr arr) p st =
    Ok (tt, upd_heap (fun _ =>
          <[arr := mkCell 1 (LeanScalarArray sz cap
                     (take (Z.to_nat i) d ++
                      map (fun v => uint8_t (lean_unbox v)) vs ++
                      drop (Z.to_nat i + length vs) d))]> hbase) st).
Proof.
  induction vs as [|v vs IH]; intros i d p st Hst Harr Hl Hi Hfit.
  - simpl. unfold ret. rewrite Nat.add_0_r, take_drop.
    destruct st; simpl in *. by subst.
  - destruct Hl as (a & rc & tag & tl & -> & Ha & Htl).
    assert (Hne : a ≠ arr) by (intros ->; congruence).
    simpl length in *. cbn [byte_array_mk_loop].
    run_with ltac:(eapply lean_ctor_get_run;
                   [rewrite Hst, lookup_insert_ne by done; exact Ha|lia|reflexivity]).
    run_with ltac:(eapply memcpy_sarray_run;
                   [rewrite Hst; apply lookup_insert_eq|lia|simpl; lia]).
    run_with ltac:(eapply lean_ctor_get_run;
                   [simpl; rewrite Hst, insert_insert_eq, lookup_insert_ne by done; exact Ha
                   |lia|reflexivity]).
    set (b := uint8_t (lean_unbox v)).
    rewrite (IH (i + 1) (splice d (Z.to_nat i) [b]) tl _).
    + rewrite upd_heap_upd_heap. unfold upd_heap. simpl. do 5 f_equal.
      replace (Z.to_nat (i + 1)) with (Z.to_nat i + length [b])%nat by (simpl; lia).
      rewrite take_splice by lia.
      unfold splice. rewrite <- !app_assoc. simpl. do 3 f_equal.
      rewrite (cons_middle b), app_assoc.
      rewrite drop_app_ge by (rewrite length_app, length_take; simpl; lia).
      rewrite drop_drop, length_app, length_take. simpl length.
      match goal with
      | |- _ ++ drop ?x _ = _ ++ drop ?y _ => by replace x with y by lia
      end.
    + simpl. by rewrite Hst, insert_insert_eq.
    + done.
    + done.
    + lia.
    + rewrite length_splice by (simpl; lia). lia.
Qed.

(** X30.  From a byte array to a list and back.  [l_ByteArray_toList a]
    builds the list of the bytes of [a], one scalar for each, and changes no
    cell that was there; [a] is not released.  [lean_byte_array_mk] on that
    list returns a new byte array, owned once, with size and capacity the
    number of bytes and the same bytes, and releases the list: afterwards
    the heap is the one before [l_ByteArray_toList] with the new array added
    to it. *)
Theorem byte_array_list_round_trip (st : state) (a : positive) (rc sz cap : Z)
    (data : list Z) :
  heap st !! a = Some (mkCell rc (LeanScalarArray sz cap data)) →
  0 ≤ sz ≤ Z.of_nat (length data) → sz < 2 ^ 31 →
  let bytes := take (Z.to_nat sz) data in
  Forall (fun b => 0 ≤ b < 256) bytes →
  ∃ l h1 arr st2,
    l_ByteArray_toList (lean_ptr a) st = Ok (l, upd_heap (fun _ => h1) st) ∧
    list_at h1 l (map lean_box bytes) ∧
    (∀ p c, heap st !! p = Some c → h1 !! p = Some c) ∧
    lean_byte_array_mk l (upd_heap (fun _ => h1) st) = Ok (lean_ptr arr, st2) ∧
    heap st !! arr = None ∧
    heap st2 = <[arr := mkCell 1 (LeanScalarArray sz sz bytes)]> (heap st) ∧
    same_globals st st2.
Proof.
  intros Ha Hsz Hbig bytes Hbytes.
  destruct (byte_list_loop (heap st) a rc sz cap data Ha (Z.to_nat sz) st (lean_box 0) [])
    as (l & h1 & Hrun & Hl); [lia|done|done|].
  rewrite app_nil_r in Hl. fold bytes in Hl. rewrite Z2Nat.id in Hrun by lia.
  set (st1 := upd_heap (fun _ => h1) st).
  set (vs := map lean_box bytes) in *.
  assert (Hat : list_at (heap st1) l vs) by (by eapply list_over_list_at).
  assert (Hlen : length vs = Z.to_nat sz).
  { subst vs bytes. rewrite length_map, length_take. lia. }
  set (arr := fresh_addr h1).
  assert (Harr : h1 !! arr = None) by apply fresh_addr_fresh.
  set (d0 := map (uninit st1) (seq 0 (Z.to_nat sz))).
  assert (Hfill : byte_array_mk_loop (Z.to_nat sz) 0 (lean_ptr arr) l
            (upd_heap <[arr := mkCell 1 (LeanScalarArray sz sz d0)]> st1) =
          Ok (tt, upd_heap (fun _ => <[arr := mkCell 1 (LeanScalarArray sz sz bytes)]> h1)
                    st1)).
  { assert (Hdata : take (Z.to_nat 0) d0 ++
                      map (fun v => uint8_t (lean_unbox v)) vs ++
                      drop (Z.to_nat 0 + length vs) d0 = bytes).
    { rewrite drop_ge by (subst d0; rewrite length_uninit; lia).
      rewrite app_nil_r. simpl. subst vs. rewrite map_map.
      apply list_eq. intros k. rewrite list_lookup_fmap.
      destruct (bytes !! k) as [b|] eqn:Hb; [|done]. simpl. f_equal.
      rewrite Forall_forall in Hbytes.
      pose proof (Hbytes b (list_elem_of_lookup_2 _ _ _ Hb)).
      unfold uint8_t. by rewrite Z.mod_small by lia. }
    rewrite <- Hlen.
    rewrite (byte_array_mk_loop_run arr sz sz h1 vs 0 d0 l); [| done | done | done | lia |].
    2:{ subst d0. rewrite length_uninit. lia. }
    rewrite Hdata. by rewrite upd_heap_upd_heap. }
  set (stX := upd_heap (fun _ => <[arr := mkCell 1 (LeanScalarArray sz sz bytes)]> h1) st1).
  destruct (release_list_over vs (S (size (heap stX))) l stX
              (<[arr := mkCell 1 (LeanScalarArray sz sz bytes)]> (heap st)))
    as (st2 & Hdec & Hheap2 & Hg).
  { simpl heap. by apply list_over_insert. }
  { subst vs. rewrite Forall_fmap. by apply Forall_true. }
  { simpl heap. rewrite map_size_insert_None by done.
    apply list_at_length_le_size in Hat. simpl in Hat. lia. }
  exists l, h1, arr, st2. split_and!.
  - unfold l_ByteArray_toList.
    run_with ltac:(by eapply lean_to_sarray_run). exact Hrun.
  - exact Hat.
  - intros p c Hp. by eapply list_over_lookup.
  - unfold lean_byte_array_mk.
    erewrite bind_ok.
    2:{ apply (list_length_loop_run vs); [exact Hat| |lia|lia].
        apply list_at_length_le_size in Hat. fold st1. lia. }
    cbv beta. rewrite Z.add_0_l, Hlen, Z2Nat.id by lia.
    rewrite (bind_ok _ _ _ _ _ (lean_alloc_sarray_run st1 sz sz)).
    fold arr. fold d0.
    rewrite (bind_ok _ _ _ _ _ Hfill). fold stX.
    assert (Hdec' : lean_dec l stX = Ok (tt, st2)) by exact Hdec.
    by rewrite (bind_ok _ _ _ _ _ Hdec').
  - by eapply list_over_fresh.
  - exact Hheap2.
  - destruct Hg as (Hu & Hea & Heb & Hf). by split_and!.
Qed.

Lemma byte_array_list_round_trip_witness :
  ∃ l h1 arr st2,
    l_ByteArray_toList (lean_ptr 4) st_bytes = Ok (l, upd_heap (fun _ => h1) st_bytes) ∧
    list_at h1 l [lean_box 65; lean_box 65; lean_box 65] ∧
    lean_byte_array_mk l (upd_heap (fun _ => h1) st_bytes) = Ok (lean_ptr arr, st2) ∧
    heap st2 = <[arr := mkCell 1 (LeanScalarArray 3 3 [65; 65; 65])]> (heap st_bytes).
Proof.
  destruct (byte_array_list_round_trip st_bytes 4%positive 1 3 3 [65; 65; 65])
    as (l & h1 & arr & st2 & H1 & H2 & _ & H4 & _ & H6 & _).
  - reflexivity.
  - simpl. lia.
  - lia.
  - repeat constructor; lia.
  - exists l, h1, arr, st2. split_and!; [exact H1|exact H2|exact H4|exact H6].
Defined.
